(** * Local Files Q&A: the retrieval pipeline

    A shallow embedding of the chunker (js/pdfProcessor.js), the TF-IDF
    hashing encoder (js/embeddings.js) and the ranked search
    (js/search.js), followed by the properties stated about them.

    Conventions of the embedding.
    - A JavaScript string is a Rocq [string]; a character stands for the
      UTF-16 code unit of the same number, so the strings covered are the
      ones over code units 0..255.
    - A JavaScript integer computation is carried out in [Z], with the
      32-bit wrap-around of the bit operators written out.
    - A JavaScript number that the code treats as a fraction (weights,
      norms, similarities) is a real number: rounding of IEEE doubles and of
      [Float32Array] cells is not part of the model.
    - A [Map] is an insertion-ordered association list, as [forEach]
      visits entries in insertion order.
    - An object with mutable fields (the generator) is a record threaded
      through the calls; a [throw] is the [Throw] constructor of [result]. *)

From Stdlib Require Import String Ascii List ZArith Lia Bool Arith.
From Stdlib Require Import Reals Lra Sorted.
Import ListNotations.

Local Open Scope string_scope.
Local Open Scope list_scope.

(** ** JavaScript strings *)

Module JsString.

Definition charCode (c : ascii) : Z := Z.of_N (N_of_ascii c).

Definition ofCode (z : Z) : ascii := ascii_of_N (Z.to_N z).

(** [\s] restricted to code units below 256: TAB, LF, VT, FF, CR, SPACE
    and NBSP. [String.prototype.trim] strips the same characters. *)
Definition isSpace (c : ascii) : bool :=
  let n := charCode c in
  ((9 <=? n) && (n <=? 13) || (n =? 32) || (n =? 160))%Z.

(** [\w] is [A-Za-z0-9_]. *)
Definition isWord (c : ascii) : bool :=
  let n := charCode c in
  ((65 <=? n) && (n <=? 90) || (97 <=? n) && (n <=? 122)
   || (48 <=? n) && (n <=? 57) || (n =? 95))%Z.

(** [toLowerCase] on one code unit: A-Z and the Latin-1 capitals
    (U+00C0..U+00DE but the multiplication sign U+00D7) move up by 32. *)
Definition lowerChar (c : ascii) : ascii :=
  let n := charCode c in
  if ((65 <=? n) && (n <=? 90)
      || (192 <=? n) && (n <=? 222) && negb (n =? 215))%Z
  then ofCode (n + 32) else c.

Fixpoint mapChars (f : ascii -> ascii) (s : string) : string :=
  match s with
  | EmptyString => EmptyString
  | String c s' => String (f c) (mapChars f s')
  end.

Definition toLowerCase (s : string) : string := mapChars lowerChar s.

Fixpoint revOnto (s acc : string) : string :=
  match s with
  | EmptyString => acc
  | String c s' => revOnto s' (String c acc)
  end.

(** [s.split(/\s+/)]: the pieces between the maximal runs of white space;
    a run at either end leaves an empty piece there, and the empty string
    splits into one empty piece. [cur] is the piece being read, reversed;
    [inRun] tells that the previous character was white space. *)
Fixpoint splitAux (cur : string) (inRun : bool) (s : string) : list string :=
  match s with
  | EmptyString => [revOnto cur EmptyString]
  | String c s' =>
      if isSpace c then
        if inRun then splitAux cur true s'
        else revOnto cur EmptyString :: splitAux EmptyString true s'
      else splitAux (String c cur) false s'
  end.

Definition splitSpaces (s : string) : list string :=
  splitAux EmptyString false s.

(** [arr.join(sep)] *)
Fixpoint join (sep : string) (l : list string) : string :=
  match l with
  | [] => EmptyString
  | [w] => w
  | w :: rest => w ++ sep ++ join sep rest
  end.

Fixpoint trimStart (s : string) : string :=
  match s with
  | EmptyString => EmptyString
  | String c s' => if isSpace c then trimStart s' else s
  end.

Fixpoint trimEnd (s : string) : string :=
  match s with
  | EmptyString => EmptyString
  | String c s' =>
      match trimEnd s' with
      | EmptyString => if isSpace c then EmptyString else String c EmptyString
      | t => String c t
      end
  end.

Definition trim (s : string) : string := trimEnd (trimStart s).

Fixpoint hasNonSpace (s : string) : bool :=
  match s with
  | EmptyString => false
  | String c s' => negb (isSpace c) || hasNonSpace s'
  end.

(** [s.length] as a JavaScript number. *)
Definition jsLength (s : string) : Z := Z.of_nat (String.length s).

End JsString.

(** ** JavaScript arrays *)

Module JsArray.

(** [arr.slice(from, to)] with the relative-index rule for negative
    arguments. *)
Definition slice {A : Type} (l : list A) (from to : Z) : list A :=
  let len := Z.of_nat (length l) in
  let rel k := if (k <? 0)%Z then Z.max (len + k) 0 else Z.min k len in
  let k := rel from in
  let final := rel to in
  firstn (Z.to_nat (final - k)) (skipn (Z.to_nat k) l).

End JsArray.

(** ** pdfProcessor.js: the chunker *)

Module PdfProcessor.
Import JsString JsArray.

Record PDFProcessor := mkPDFProcessor {
  maxChunkSize : Z;
  chunkOverlap : Z
}.

(** The constructor. *)
Definition newPDFProcessor : PDFProcessor :=
  {| maxChunkSize := 500; chunkOverlap := 50 |}.

(** A chunk as [chunkText] builds it; [embedding] is [null] there. *)
Record Chunk := mkChunk {
  documentId : Z;
  chunkIndex : Z;
  text : string;
  tokenCount : Z;
  embedding : option (list R)
}.

(** The local variables of the [while] loop. *)
Record LoopState := mkLoop {
  chunks : list Chunk;
  nextIndex : Z;
  startIndex : Z
}.

Inductive Outcome :=
| Continue (st : LoopState)
| Return (cs : list Chunk).

(** One evaluation of the loop test followed, when it holds, by the body. *)
Definition loopStep (p : PDFProcessor) (words : list string) (docId : Z)
    (st : LoopState) : Outcome :=
  let len := Z.of_nat (length words) in
  if (startIndex st <? len)%Z then
    let endIndex := Z.min (startIndex st + maxChunkSize p) len in
    let chunkWords := slice words (startIndex st) endIndex in
    let chunkText := join " " chunkWords in
    let st1 :=
      if (0 <? jsLength (trim chunkText))%Z then
        {| chunks := chunks st ++
             [ {| documentId := docId;
                  chunkIndex := nextIndex st;
                  text := trim chunkText;
                  tokenCount := Z.of_nat (length chunkWords);
                  embedding := None |} ];
           nextIndex := nextIndex st + 1;
           startIndex := startIndex st |}
      else st in
    if (endIndex >=? len)%Z then Return (chunks st1)
    else
      let nextStart := (startIndex st + maxChunkSize p - chunkOverlap p)%Z in
      Continue {| chunks := chunks st1;
                  nextIndex := nextIndex st1;
                  startIndex := Z.max nextStart (startIndex st + 1) |}
  else Return (chunks st).

(** The loop, run for at most [fuel] tests; [None] when the fuel is used
    up before the loop is left. *)
Fixpoint runLoop (fuel : nat) (p : PDFProcessor) (words : list string)
    (docId : Z) (st : LoopState) : option (list Chunk) :=
  match fuel with
  | O => None
  | S fuel' =>
      match loopStep p words docId st with
      | Return cs => Some cs
      | Continue st' => runLoop fuel' p words docId st'
      end
  end.

Definition splitWords (t : string) : list string :=
  filter (fun word => (jsLength word >? 0)%Z) (splitSpaces t).

Definition initialLoop : LoopState :=
  {| chunks := []; nextIndex := 0; startIndex := 0 |}.

Definition chunkText (fuel : nat) (p : PDFProcessor) (t : string) (docId : Z)
    : option (list Chunk) :=
  runLoop fuel p (splitWords t) docId initialLoop.

End PdfProcessor.

(** ** Values shared by the modules *)

(** A call either returns a value or throws. *)
Inductive result (A : Type) : Type :=
| Ok (a : A)
| Throw (message : string).
Arguments Ok {A} a.
Arguments Throw {A} message.

Definition bind {A B : Type} (r : result A) (k : A -> result B) : result B :=
  match r with
  | Ok a => k a
  | Throw m => Throw m
  end.

(** [try { body } catch (error) { handler }] *)
Definition tryCatch {A : Type} (body : result A) (handler : string -> A) : A :=
  match body with
  | Ok a => a
  | Throw m => handler m
  end.

Fixpoint mapM {A B : Type} (f : A -> result B) (l : list A) : result (list B) :=
  match l with
  | [] => Ok []
  | x :: l' => bind (f x) (fun y => bind (mapM f l') (fun ys => Ok (y :: ys)))
  end.

(** [x || d] on numbers: the default replaces [undefined] and zero. *)
Definition orDefault (o : option R) (d : R) : R :=
  match o with
  | Some x => if Req_EM_T x 0 then d else x
  | None => d
  end.

(** [arr.sort(compare)], which is stable: [after a b] tells that
    [compare(a, b) > 0], so that [a] is to come after [b]. An element
    moves past exactly the elements it must come after. *)
Fixpoint insertSorted {A : Type} (after : A -> A -> bool) (x : A) (l : list A)
    : list A :=
  match l with
  | [] => [x]
  | y :: l' => if after x y then y :: insertSorted after x l' else x :: y :: l'
  end.

Fixpoint sortWith {A : Type} (after : A -> A -> bool) (l : list A) : list A :=
  match l with
  | [] => []
  | x :: l' => insertSorted after x (sortWith after l')
  end.

Definition Rltb (x y : R) : bool := if Rlt_dec x y then true else false.
Definition Rleb (x y : R) : bool := if Rle_dec x y then true else false.

(** An insertion-ordered [Map] with string keys. *)
Module JsMap.

Definition t (V : Type) : Type := list (string * V).

Definition empty {V : Type} : t V := [].

Fixpoint get {V : Type} (m : t V) (k : string) : option V :=
  match m with
  | [] => None
  | (k', v) :: m' => if String.eqb k k' then Some v else get m' k
  end.

(** [set] keeps the position of a key that is present and appends a new
    one. *)
Fixpoint set {V : Type} (m : t V) (k : string) (v : V) : t V :=
  match m with
  | [] => [(k, v)]
  | (k', v') :: m' =>
      if String.eqb k k' then (k', v) :: m' else (k', v') :: set m' k v
  end.

Definition size {V : Type} (m : t V) : nat := length m.

End JsMap.

(** [new Set(arr)], in insertion order. *)
Definition setOf (l : list string) : list string :=
  fold_left
    (fun acc w => if existsb (String.eqb w) acc then acc else acc ++ [w])
    l [].

(** ** embeddings.js: the TF-IDF hashing encoder *)

Module Embeddings.
Import JsString JsArray.
Export PdfProcessor.

Record EmbeddingGenerator := mkGenerator {
  isInitialized : bool;
  vocabulary : JsMap.t R;
  idfScores : JsMap.t R;
  vectorSize : Z
}.

(** The constructor. *)
Definition newEmbeddingGenerator : EmbeddingGenerator :=
  {| isInitialized := false;
     vocabulary := JsMap.empty;
     idfScores := JsMap.empty;
     vectorSize := 384 |}.

Definition initialize (g : EmbeddingGenerator) : EmbeddingGenerator :=
  if isInitialized g then g
  else {| isInitialized := true;
          vocabulary := JsMap.empty;
          idfScores := JsMap.empty;
          vectorSize := vectorSize g |}.

(** [ToInt32]: the signed 32-bit integer congruent to [z]. *)
Definition toInt32 (z : Z) : Z := ((z + 2 ^ 31) mod 2 ^ 32 - 2 ^ 31)%Z.

(** [a << n] *)
Definition shl32 (a n : Z) : Z := toInt32 (Z.shiftl (toInt32 a) (n mod 32)).

(** [a & b] *)
Definition and32 (a b : Z) : Z := toInt32 (Z.land (toInt32 a) (toInt32 b)).

(** The first loop of [getWordPositions]. *)
Definition hashStep (hash : Z) (c : ascii) : Z :=
  and32 (shl32 hash 5 - hash + charCode c) 4294967295.

Definition wordHash (word : string) : Z :=
  fold_left hashStep (list_ascii_of_string word) 0%Z.

Definition getWordPositions (g : EmbeddingGenerator) (word : string)
    (count : nat) : list Z :=
  let hash := wordHash word in
  map (fun i => Z.rem (Z.abs (hash + Z.of_nat i * 123456789)) (vectorSize g))
      (seq 0 count).

Definition tokenize (t : string) : list string :=
  slice
    (filter (fun word => (jsLength word >? 2)%Z && (jsLength word <? 20)%Z)
       (splitSpaces
          (mapChars (fun c => if isWord c || isSpace c then c else " "%char)
             (toLowerCase t))))
    0 100.

Definition calculateTermFrequency (words : list string) : JsMap.t R :=
  let totalWords := length words in
  if Nat.eqb totalWords 0 then JsMap.empty
  else
    let counted :=
      fold_left
        (fun termFreq word =>
           JsMap.set termFreq word
             (orDefault (JsMap.get termFreq word) 0 + 1)%R)
        words JsMap.empty in
    fold_left
      (fun termFreq entry =>
         JsMap.set termFreq (fst entry) (snd entry / INR totalWords)%R)
      counted counted.

(** [new Float32Array(n)] *)
Definition zeroVector (n : Z) : list R := repeat 0%R (Z.to_nat n).

Fixpoint addAtNat (n : nat) (x : R) (v : list R) : list R :=
  match v with
  | [] => []
  | y :: v' =>
      match n with
      | O => (y + x)%R :: v'
      | S n' => y :: addAtNat n' x v'
      end
  end.

(** [vector[pos] += x]; a typed array ignores an index out of range. *)
Definition addAt (pos : Z) (x : R) (v : list R) : list R :=
  if (pos <? 0)%Z then v else addAtNat (Z.to_nat pos) x v.

Definition sumSquares (v : list R) : R :=
  fold_left (fun sum val => sum + val * val)%R v 0%R.

Definition normalizeVector (v : list R) : list R :=
  let magnitude := sqrt (sumSquares v) in
  if Req_EM_T magnitude 0 then v
  else map (fun x => x / magnitude)%R v.

Definition accumulate (g : EmbeddingGenerator) (termFreq : JsMap.t R)
    (vector : list R) : list R :=
  fold_left
    (fun vector entry =>
       let word := fst entry in
       let tf := snd entry in
       let positions := getWordPositions g word 3 in
       let idf := orDefault (JsMap.get (idfScores g) word) 1 in
       let score := (tf * idf)%R in
       fold_left (fun vector pos => addAt pos score vector) positions vector)
    termFreq vector.

Definition generateTFIDFVector (g : EmbeddingGenerator) (t : string)
    : list R :=
  let words := tokenize t in
  let termFreq := calculateTermFrequency words in
  normalizeVector (accumulate g termFreq (zeroVector (vectorSize g))).

Definition generateEmbedding (g : EmbeddingGenerator) (t : string)
    : result (list R) :=
  if negb (isInitialized g) then Throw "Embedding system not initialized"
  else Ok (generateTFIDFVector g t).

(** The first pass of [buildVocabulary]: the local map [documentFreq]. *)
Definition documentFrequency (chunks : list Chunk) : JsMap.t R :=
  fold_left
    (fun documentFreq chunk =>
       fold_left
         (fun documentFreq word =>
            JsMap.set documentFreq word
              (orDefault (JsMap.get documentFreq word) 0 + 1)%R)
         (setOf (tokenize (text chunk))) documentFreq)
    chunks JsMap.empty.

Definition idfOf (totalDocs : nat) (freq : R) : R :=
  (ln (INR totalDocs / (freq + 1)) + 1)%R.

Definition buildVocabulary (g : EmbeddingGenerator) (chunks : list Chunk)
    : EmbeddingGenerator :=
  let documentFreq := documentFrequency chunks in
  let totalDocs := length chunks in
  {| isInitialized := isInitialized g;
     vocabulary := vocabulary g;
     idfScores :=
       fold_left
         (fun idf entry =>
            JsMap.set idf (fst entry) (idfOf totalDocs (snd entry)))
         documentFreq (idfScores g);
     vectorSize := vectorSize g |}.

(** The vocabulary is rebuilt before the loop; inside the loop each
    [generateEmbedding] runs under its own [try]. The progress callback is
    optional and has no part in the result. *)
Definition generateEmbeddingsBatch (g : EmbeddingGenerator)
    (chunks : list Chunk) : result (EmbeddingGenerator * list (list R)) :=
  let g' := buildVocabulary g chunks in
  let embeddings :=
    fold_left
      (fun embeddings chunk =>
         tryCatch
           (bind (generateEmbedding g' (text chunk))
                 (fun embedding => Ok (embeddings ++ [embedding])))
           (fun _ => embeddings ++ [zeroVector (vectorSize g')]))
      chunks [] in
  Ok (g', embeddings).

Definition cosineSimilarity (a b : list R) : R :=
  let minLength := Z.min (Z.of_nat (length a)) (Z.of_nat (length b)) in
  let a' := if Nat.eqb (length a) (length b) then a else slice a 0 minLength in
  let b' := if Nat.eqb (length a) (length b) then b else slice b 0 minLength in
  let sums :=
    fold_left
      (fun acc i =>
         let valA := orDefault (nth_error a' i) 0 in
         let valB := orDefault (nth_error b' i) 0 in
         match acc with
         | (dotProduct, normA, normB) =>
             (dotProduct + valA * valB, normA + valA * valA,
              normB + valB * valB)%R
         end)
      (seq 0 (length a')) (0, 0, 0)%R in
  match sums with
  | (dotProduct, normA, normB) =>
      if Req_EM_T normA 0 then 0%R
      else if Req_EM_T normB 0 then 0%R
      else
        let similarity := (dotProduct / (sqrt normA * sqrt normB))%R in
        Rmax 0 (Rmin 1 similarity)
  end.

End Embeddings.

(** ** Regular expressions built from a keyword

    [hybridSearch] hands each keyword to [new RegExp(keyword, 'g')] as it
    is. The part of the pattern language embedded here is the one of
    patterns made of ordinary characters and of [.]; [parsePattern] answers
    [None] for a keyword with any other syntax character, which this
    development leaves aside. *)

Module JsRegExp.
Import JsString.

Inductive PatternItem :=
| Literal (c : ascii)
| AnyChar.

(** The syntax characters of a pattern: [^ $ \ . * + ? ( ) [ ] { } |]. *)
Definition isSyntaxChar (c : ascii) : bool :=
  existsb (Ascii.eqb c)
    (list_ascii_of_string "^$\.*+?()[]{}|").

Fixpoint parsePattern (s : string) : option (list PatternItem) :=
  match s with
  | EmptyString => Some []
  | String c s' =>
      match parsePattern s' with
      | None => None
      | Some items =>
          if Ascii.eqb c "."%char then Some (AnyChar :: items)
          else if isSyntaxChar c then None
          else Some (Literal c :: items)
      end
  end.

(** [.] matches any character but a line terminator (LF and CR among the
    code units below 256). *)
Definition matchItem (it : PatternItem) (c : ascii) : bool :=
  match it with
  | Literal c' => Ascii.eqb c c'
  | AnyChar => negb ((charCode c =? 10)%Z || (charCode c =? 13)%Z)
  end.

(** Does the pattern match at the start of [s]? *)
Fixpoint matchAt (p : list PatternItem) (s : string) : bool :=
  match p with
  | [] => true
  | it :: p' =>
      match s with
      | EmptyString => false
      | String c s' => matchItem it c && matchAt p' s'
      end
  end.

(** The number of matches a global search finds: matches are taken
    leftmost first and do not overlap; [skip] characters belong to the
    match found last. *)
Fixpoint countFrom (p : list PatternItem) (skip : nat) (s : string) : nat :=
  match skip with
  | S k =>
      match s with
      | EmptyString => 0
      | String _ s' => countFrom p k s'
      end
  | O =>
      if matchAt p s then
        S (match s with
           | EmptyString => 0
           | String _ s' => countFrom p (length p - 1) s'
           end)
      else
        match s with
        | EmptyString => 0
        | String _ s' => countFrom p 0 s'
        end
  end.

(** [(text.match(new RegExp(keyword, 'g')) || []).length] *)
Definition matchCount (keyword t : string) : option nat :=
  match parsePattern keyword with
  | Some p => Some (countFrom p 0 t)
  | None => None
  end.

(** The number of positions of [t] at which [keyword] occurs literally. *)
Fixpoint occurrences (keyword t : string) : nat :=
  (if String.prefix keyword t then 1 else 0) +
  match t with
  | EmptyString => 0
  | String _ t' => occurrences keyword t'
  end.

End JsRegExp.

(** ** database.js: the store, as far as the search reads it *)

Module Database.
Export Embeddings.

Record Document := mkDocument {
  filename : string;
  uploadDate : Z
}.

(** The two tables, each in primary-key order. *)
Record DocumentDatabase := mkDatabase {
  documents : list (Z * Document);
  storedChunks : list Chunk
}.

Fixpoint findDocument (l : list (Z * Document)) (id : Z) : option Document :=
  match l with
  | [] => None
  | (k, d) :: l' => if (k =? id)%Z then Some d else findDocument l' id
  end.

Definition getDocument (db : DocumentDatabase) (id : Z) : option Document :=
  findDocument (documents db) id.

Definition getDocumentChunks (db : DocumentDatabase) (id : Z) : list Chunk :=
  sortWith (fun a b => (0 <? chunkIndex a - chunkIndex b)%Z)
    (filter (fun c => (documentId c =? id)%Z) (storedChunks db)).

Definition getAllChunks (db : DocumentDatabase) : list Chunk :=
  storedChunks db.

End Database.

(** ** search.js: ranked retrieval *)

Module Search.
Import JsString JsArray.
Export Database.

Record VectorSearch := mkVectorSearch {
  defaultTopK : nat;
  similarityThreshold : R
}.

(** The constructor. *)
Definition newVectorSearch : VectorSearch :=
  {| defaultTopK := 5; similarityThreshold := 0.3%R |}.

(** An entry of [similarities]. *)
Record Scored := mkScored {
  scoredChunk : Chunk;
  scoredSimilarity : R;
  scoredDocumentId : Z
}.

(** An entry of [results]: the scored entry spread out, with the document
    fields added. *)
Record SearchResult := mkSearchResult {
  chunk : Chunk;
  similarity : R;
  resultDocumentId : Z;
  documentName : string;
  resultUploadDate : option Z
}.

Record SearchResponse := mkSearchResponse {
  results : list SearchResult;
  query : string;
  totalSearched : nat;
  hasResults : option bool
}.

(** [new Float32Array(chunk.embedding)] *)
Definition embeddingOf (c : Chunk) : list R :=
  match embedding c with
  | Some v => v
  | None => []
  end.

Definition scoreChunk (queryEmbedding : list R) (c : Chunk) : Scored :=
  {| scoredChunk := c;
     scoredSimilarity := cosineSimilarity queryEmbedding (embeddingOf c);
     scoredDocumentId := documentId c |}.

(** Step 4: filter, sort, slice. *)
Definition rank (vs : VectorSearch) (similarities : list Scored) (topK : nat)
    : list Scored :=
  slice
    (sortWith
       (fun a b => Rltb 0 (scoredSimilarity b - scoredSimilarity a))
       (filter
          (fun r => Rleb (similarityThreshold vs) (scoredSimilarity r))
          similarities))
    0 (Z.of_nat topK).

Definition enhance (db : DocumentDatabase) (r : Scored) : SearchResult :=
  let document := getDocument db (scoredDocumentId r) in
  {| chunk := scoredChunk r;
     similarity := scoredSimilarity r;
     resultDocumentId := scoredDocumentId r;
     documentName :=
       match document with
       | Some d =>
           if String.eqb (filename d) "" then "Unknown Document"
           else filename d
       | None => "Unknown Document"
       end;
     resultUploadDate :=
       match document with
       | Some d => Some (uploadDate d)
       | None => None
       end |}.

(** [if (documentId)]: [null] and [0] select the whole corpus. *)
Definition selectChunks (db : DocumentDatabase) (docId : option Z)
    : list Chunk :=
  match docId with
  | Some id => if (id =? 0)%Z then getAllChunks db else getDocumentChunks db id
  | None => getAllChunks db
  end.

(** [topK] is a count of results. *)
Definition searchSimilarChunks (vs : VectorSearch) (g : EmbeddingGenerator)
    (db : DocumentDatabase) (queryText : string) (docId : option Z)
    (topK : nat) : result SearchResponse :=
  if negb (isInitialized g) then
    Throw "Embedding model not initialized. Please wait for model to load."
  else
    bind (generateEmbedding g queryText) (fun queryEmbedding =>
      let chunks := selectChunks db docId in
      if Nat.eqb (length chunks) 0 then
        Ok {| results := []; query := queryText; totalSearched := 0;
              hasResults := None |}
      else
        let similarities := map (scoreChunk queryEmbedding) chunks in
        let filteredResults := rank vs similarities topK in
        let enhancedResults := map (enhance db) filteredResults in
        Ok {| results := enhancedResults;
              query := queryText;
              totalSearched := length chunks;
              hasResults := Some (Nat.ltb 0 (length enhancedResults)) |}).

(** An entry of the hybrid results: the search result spread out, with the
    two scores added. *)
Record HybridResult := mkHybridResult {
  base : SearchResult;
  keywordScore : R;
  combinedScore : R
}.

Record HybridResponse := mkHybridResponse {
  hybridResults : list HybridResult;
  hybridQuery : string;
  hybridTotalSearched : nat;
  hybridHasResults : bool;
  searchType : string
}.

Definition queryKeywords (queryText : string) : list string :=
  filter (fun word => (jsLength word >? 2)%Z)
    (splitSpaces (toLowerCase queryText)).

Section Hybrid.

(** The regular-expression engine of the host: the number of matches of
    [new RegExp(keyword, 'g')] in a text, or [None] when the constructor
    rejects the keyword with a [SyntaxError]. *)
Variable regExpCount : string -> string -> option nat.

Definition keywordScoreOf (keywords : list string) (lowered : string)
    : result R :=
  fold_left
    (fun acc keyword =>
       bind acc (fun score =>
         match regExpCount keyword lowered with
         | Some matches => Ok (score + INR matches * 0.1)%R
         | None => Throw "Invalid regular expression"
         end))
    keywords (Ok 0%R).

Definition enhanceHybrid (keywords : list string) (r : SearchResult)
    : result HybridResult :=
  let lowered := toLowerCase (text (chunk r)) in
  bind (keywordScoreOf keywords lowered) (fun score =>
    Ok {| base := r;
          keywordScore := score;
          combinedScore := (similarity r + score)%R |}).

Definition hybridSearch (vs : VectorSearch) (g : EmbeddingGenerator)
    (db : DocumentDatabase) (queryText : string) (docId : option Z)
    (topK : nat) : result HybridResponse :=
  bind (searchSimilarChunks vs g db queryText docId (topK * 2))
    (fun vectorResults =>
       let keywords := queryKeywords queryText in
       bind (mapM (enhanceHybrid keywords) (results vectorResults))
         (fun enhancedResults =>
            let sorted :=
              sortWith
                (fun a b => Rltb 0 (combinedScore b - combinedScore a))
                enhancedResults in
            Ok {| hybridResults := slice sorted 0 (Z.of_nat topK);
                  hybridQuery := queryText;
                  hybridTotalSearched := totalSearched vectorResults;
                  hybridHasResults := Nat.ltb 0 (length sorted);
                  searchType := "hybrid" |})).

End Hybrid.

End Search.

(** ** Vocabulary of the properties *)

Module ChunkerSpec.
Import JsString JsArray PdfProcessor.

Fixpoint allNonSpace (s : string) : bool :=
  match s with
  | EmptyString => true
  | String c s' => negb (isSpace c) && allNonSpace s'
  end.

(** The tokens [s], ..., [e-1] of [words] make up chunk [c]. *)
Definition spans (words : list string) (c : Chunk) (s e : nat) : Prop :=
  (s < e <= length words)%nat /\
  text c = trim (join " " (slice words (Z.of_nat s) (Z.of_nat e))) /\
  tokenCount c = Z.of_nat (e - s).

(** Token [i] lies in the span of one of the chunks. *)
Definition covered (words : list string) (cs : list Chunk) (i : nat) : Prop :=
  exists c s e, In c cs /\ spans words c s e /\ (s <= i < e)%nat.

(** The chunk indices are 0, 1, 2, ... in this order. *)
Definition indexed (cs : list Chunk) : Prop :=
  map chunkIndex cs = map Z.of_nat (seq 0 (length cs)).

Definition loopInv (words : list string) (st : LoopState) : Prop :=
  (0 <= startIndex st)%Z /\
  nextIndex st = Z.of_nat (length (chunks st)) /\
  indexed (chunks st) /\
  forall i, (Z.of_nat i < startIndex st)%Z -> covered words (chunks st) i.

End ChunkerSpec.

Module HashSpec.
Import JsString.

(** The hash as the specification words it:
    [hash = (hash*31 + charCode) mod 2^32]. *)
Definition specHash (word : string) : Z :=
  fold_left (fun hash c => ((hash * 31 + charCode c) mod 2 ^ 32)%Z)
    (list_ascii_of_string word) 0%Z.

(** [position_i = (|hash| + i * 123456789) mod D] with [D = 384]. *)
Definition specPosition (hash : Z) (i : nat) : Z :=
  ((Z.abs hash + Z.of_nat i * 123456789) mod 384)%Z.

Definition specPositions (hash : Z) : list Z :=
  map (specPosition hash) (seq 0 3).

End HashSpec.

Module VectorSpec.

Local Open Scope R_scope.

Fixpoint dot (a b : list R) : R :=
  match a, b with
  | x :: a', y :: b' => x * y + dot a' b'
  | _, _ => 0
  end.

(** The L2 norm. *)
Definition norm (v : list R) : R := sqrt (Embeddings.sumSquares v).

Definition isZeroVector (v : list R) : Prop := Forall (fun x => x = 0) v.

Definition nonZero (v : list R) : Prop := exists x, In x v /\ x <> 0.

(** The two vectors cut to the length of the shorter one. *)
Definition common (a b : list R) : nat := Nat.min (length a) (length b).

Definition clamp01 (x : R) : R := Rmax 0 (Rmin 1 x).

Definition nonNegative (v : list R) : Prop := Forall (fun x => 0 <= x) v.

(** Every value held by the map satisfies [P]. *)
Definition allValues (P : R -> Prop) (m : JsMap.t R) : Prop :=
  Forall (fun entry => P (snd entry)) m.

(** No token of the text is a key of the [idfScores] table. *)
Definition allUnrecognized (g : Embeddings.EmbeddingGenerator) (t : string)
    : Prop :=
  forall word, In word (Embeddings.tokenize t) ->
    JsMap.get (Embeddings.idfScores g) word = None.

End VectorSpec.

Module VocabularySpec.
Import Embeddings.

(** The term is among the tokens of the chunk. *)
Definition containsTerm (term : string) (c : Chunk) : bool :=
  existsb (String.eqb term) (tokenize (text c)).

(** The number of chunks that contain the term at least once. *)
Definition df (term : string) (chunks : list Chunk) : nat :=
  length (filter (containsTerm term) chunks).

(** What [documentFreq.get] answers for a term met in [n] chunks. *)
Definition countValue (n : nat) : option R :=
  match n with
  | O => None
  | S _ => Some (INR n)
  end.

(** The two-chunk corpus "cat dog", "dog bird". *)
Definition exampleCorpus : list Chunk :=
  [ {| documentId := 1; chunkIndex := 0; text := "cat dog";
       tokenCount := 2; embedding := None |};
    {| documentId := 1; chunkIndex := 1; text := "dog bird";
       tokenCount := 2; embedding := None |} ].

End VocabularySpec.

(** Fixed-point arithmetic for the numeric bounds. *)
Module FixedPoint.

(** Numbers with 64 fractional bits. *)
Definition scale : Z := (2 ^ 64)%Z.

(** The square of a fixed-point number, rounded down. *)
Definition squareDown (z : Z) : Z := (z * z / scale)%Z.

Fixpoint squarings (k : nat) (z : Z) : Z :=
  match k with
  | O => z
  | S k' => squarings k' (squareDown z)
  end.

End FixedPoint.

Module RankSpec.

(** The comparator [(a, b) => key(b) - key(a)], as [sortWith] takes it. *)
Definition byKeyDescending {A : Type} (key : A -> R) (a b : A) : bool :=
  Rltb 0 (key b - key a).

(** Sorted non-increasing by [key]. *)
Definition descending {A : Type} (key : A -> R) : list A -> Prop :=
  StronglySorted (fun a b => (key b <= key a)%R).

(** The sum of [count * 0.1] over the counts. *)
Definition weightedSum (counts : list nat) : R :=
  fold_right (fun n s => INR n * 0.1 + s)%R 0%R counts.

End RankSpec.

(** A document ingested and then queried, as the application does it:
    the text "node js" is embedded by [generateEmbeddingsBatch] and stored
    with its vector. *)
Module HybridExample.
Import Search.

Definition ingested : Chunk :=
  {| documentId := 1; chunkIndex := 0; text := "node js";
     tokenCount := 2; embedding := None |}.

(** The generator after the batch. *)
Definition trained : EmbeddingGenerator :=
  buildVocabulary (initialize newEmbeddingGenerator) [ingested].

(** [{...chunk, embedding: embeddings[index]}] *)
Definition stored : Chunk :=
  {| documentId := 1; chunkIndex := 0; text := "node js";
     tokenCount := 2;
     embedding := Some (generateTFIDFVector trained "node js") |}.

Definition exampleDb : DocumentDatabase :=
  {| documents := [(1%Z, {| filename := "notes.pdf"; uploadDate := 0 |})];
     storedChunks := [stored] |}.

End HybridExample.

(** ** The rest of pdfProcessor.js *)

Module PdfDocument.
Import JsString JsArray.
Export PdfProcessor.

(** [extractTextFromPDF], from the text items of the pages as the PDF
    library hands them over: the items of a page joined by a space, a line
    feed after each page, the whole trimmed. *)
Definition extractTextFromPDF (pages : list (list string)) : string :=
  trim
    (fold_left
       (fun fullText items =>
          (fullText ++ (join " " items ++ String "010" ""))%string)
       pages "").

Record Stats := mkStats {
  totalWords : Z;
  totalChunks : Z;
  avgChunkSize : R
}.

Record Processed := mkProcessed {
  fullText : string;
  processedChunks : list Chunk;
  stats : Stats
}.

(** [processDocument] from the extracted text on. [None] when the fuel
    does not take the chunker out of its loop. *)
Definition processDocument (fuel : nat) (p : PDFProcessor)
    (extracted : string) (docId : Z) : option (result Processed) :=
  if String.eqb extracted "" || (jsLength extracted <? 10)%Z then
    Some (Throw "PDF appears to be empty or contains no readable text")
  else
    match chunkText fuel p extracted docId with
    | None => None
    | Some chunks =>
        if Nat.eqb (length chunks) 0 then
          Some (Throw
                  "No valid text chunks could be created from the document")
        else
          Some (Ok
            {| fullText := extracted;
               processedChunks := chunks;
               stats :=
                 {| totalWords := Z.of_nat (length (splitSpaces extracted));
                    totalChunks := Z.of_nat (length chunks);
                    avgChunkSize :=
                      (IZR (fold_left (fun sum chunk => sum + tokenCount chunk)%Z
                              chunks 0%Z)
                       / INR (length chunks))%R |} |})
    end.

End PdfDocument.

(** ** The rest of embeddings.js *)

Module EmbeddingsStatics.
Import JsString JsArray Embeddings.

(** [new Set(text.toLowerCase().split(/\s+/).filter(w => w.length > 2))] *)
Definition keywordSet (t : string) : list string :=
  setOf (filter (fun w => (jsLength w >? 2)%Z) (splitSpaces (toLowerCase t))).

Definition keywordSimilarity (textA textB : string) : R :=
  let wordsA := keywordSet textA in
  let wordsB := keywordSet textB in
  let intersection :=
    setOf (filter (fun word => existsb (String.eqb word) wordsB) wordsA) in
  let union := setOf (wordsA ++ wordsB) in
  if Nat.ltb 0 (length union)
  then (INR (length intersection) / INR (length union))%R
  else 0%R.

Record Status := mkStatus {
  initialized : bool;
  method : string;
  vocabularySize : nat;
  statusVectorSize : Z
}.

Definition getStatus (g : EmbeddingGenerator) : Status :=
  {| initialized := isInitialized g;
     method := "TF-IDF Text Similarity";
     vocabularySize := JsMap.size (idfScores g);
     statusVectorSize := vectorSize g |}.

End EmbeddingsStatics.

(** ** The rest of database.js *)

Module DatabaseOps.
Export Database.

(** [bulkAdd]: the rows receive fresh, increasing primary keys, so they
    come after the rows of the table. *)
Definition addChunksBatch (db : DocumentDatabase) (cs : list Chunk)
    : DocumentDatabase :=
  {| documents := documents db;
     storedChunks := storedChunks db ++ cs |}.

Definition addChunk (db : DocumentDatabase) (c : Chunk) : DocumentDatabase :=
  {| documents := documents db;
     storedChunks := storedChunks db ++ [c] |}.

(** The chunks of the document go first, then the document. *)
Definition deleteDocument (db : DocumentDatabase) (id : Z)
    : DocumentDatabase :=
  {| documents :=
       filter (fun entry => negb (fst entry =? id)%Z) (documents db);
     storedChunks :=
       filter (fun c => negb (documentId c =? id)%Z) (storedChunks db) |}.

Definition clearAllData (db : DocumentDatabase) : DocumentDatabase :=
  {| documents := []; storedChunks := [] |}.

Record DatabaseStats := mkDatabaseStats {
  statDocuments : nat;
  statChunks : nat
}.

Definition getDatabaseStats (db : DocumentDatabase) : DatabaseStats :=
  {| statDocuments := length (documents db);
     statChunks := length (storedChunks db) |}.

End DatabaseOps.

(** ** The rest of search.js *)

Module Suggestions.
Import JsString JsArray.
Export Database Search.

Definition searchInDocument (vs : VectorSearch) (g : EmbeddingGenerator)
    (db : DocumentDatabase) (queryText : string) (docId : Z) (topK : nat)
    : result SearchResponse :=
  searchSimilarChunks vs g db queryText (Some docId) topK.

Definition searchAllDocuments (vs : VectorSearch) (g : EmbeddingGenerator)
    (db : DocumentDatabase) (queryText : string) (topK : nat)
    : result SearchResponse :=
  searchSimilarChunks vs g db queryText None topK.

(** [s.split(re)] for a pattern [[...]+] over a class of characters: the
    pieces between the maximal runs of characters of the class. *)
Fixpoint splitRunsAux (sep : ascii -> bool) (cur : string) (inRun : bool)
    (s : string) : list string :=
  match s with
  | EmptyString => [revOnto cur EmptyString]
  | String c s' =>
      if sep c then
        if inRun then splitRunsAux sep cur true s'
        else revOnto cur EmptyString :: splitRunsAux sep EmptyString true s'
      else splitRunsAux sep (String c cur) false s'
  end.

Definition splitRuns (sep : ascii -> bool) (s : string) : list string :=
  splitRunsAux sep EmptyString false s.

(** The class [[.!?]]. *)
Definition isSentenceEnd (c : ascii) : bool :=
  Ascii.eqb c "."%char || Ascii.eqb c "!"%char || Ascii.eqb c "?"%char.

Record Suggestion := mkSuggestion {
  suggestionText : string;
  suggestionDocumentId : Z
}.

(** The two local variables of [getSearchSuggestions]; the [Set] holds
    each lowered suggestion once. *)
Record SuggestionState := mkSuggestionState {
  suggestions : list Suggestion;
  usedTerms : list string
}.

Definition considerSentence (c : Chunk) (st : SuggestionState)
    (sentence : string) : SuggestionState :=
  let words := splitSpaces (trim sentence) in
  if Nat.leb 3 (length words) && Nat.leb (length words) 8 then
    let suggestion := String.substring 0 60 (join " " words) in
    if negb (existsb (String.eqb (toLowerCase suggestion)) (usedTerms st))
    then
      {| suggestions :=
           suggestions st ++
           [ {| suggestionText := suggestion;
                suggestionDocumentId := documentId c |} ];
         usedTerms := usedTerms st ++ [toLowerCase suggestion] |}
    else st
  else st.

Definition considerChunk (st : SuggestionState) (c : Chunk)
    : SuggestionState :=
  let sentences :=
    filter (fun s => (jsLength (trim s) >? 10)%Z)
      (splitRuns isSentenceEnd (text c)) in
  fold_left (considerSentence c) (slice sentences 0 2) st.

Definition getSearchSuggestions (db : DocumentDatabase) (docId : option Z)
    (limit : nat) : list Suggestion :=
  let chunks := selectChunks db docId in
  if Nat.eqb (length chunks) 0 then []
  else
    slice
      (suggestions
         (fold_left considerChunk chunks
            {| suggestions := []; usedTerms := [] |}))
      0 (Z.of_nat limit).

End Suggestions.

(** ** app.js: from the chunks of a document to the store *)

Module App.
Export DatabaseOps Search.

(** [chunks.map((chunk, index) => ({...chunk, embedding:
    embeddings[index]}))] *)
Fixpoint withEmbeddings (index : nat) (cs : list Chunk)
    (embeddings : list (list R)) : list Chunk :=
  match cs with
  | [] => []
  | c :: cs' =>
      {| documentId := documentId c;
         chunkIndex := chunkIndex c;
         text := text c;
         tokenCount := tokenCount c;
         embedding := nth_error embeddings index |}
      :: withEmbeddings (S index) cs' embeddings
  end.

(** Steps 2 and 3 of [processDocument]: the batch of embeddings, then the
    chunks stored with their vectors. *)
Definition embedAndStore (g : EmbeddingGenerator) (db : DocumentDatabase)
    (cs : list Chunk) : result (EmbeddingGenerator * DocumentDatabase) :=
  bind (generateEmbeddingsBatch g cs) (fun r =>
    let chunksWithEmbeddings := withEmbeddings 0 cs (snd r) in
    Ok (fst r, addChunksBatch db chunksWithEmbeddings)).

End App.

(** ** More vocabulary of the properties *)

Module TokenSpec.
Import JsString.

(** A character of [[a-z0-9_]]. *)
Definition isTokenChar (c : ascii) : bool :=
  let n := charCode c in
  ((97 <=? n) && (n <=? 122) || (48 <=? n) && (n <=? 57) || (n =? 95))%Z.

Fixpoint allChars (p : ascii -> bool) (s : string) : bool :=
  match s with
  | EmptyString => true
  | String c s' => p c && allChars p s'
  end.

(** The number of times [w] is in [l]. *)
Definition occurrencesOf (w : string) (l : list string) : nat :=
  length (filter (String.eqb w) l).

(** The sum of the values of a map. *)
Definition sumValues (m : JsMap.t R) : R :=
  fold_right (fun entry s => (snd entry + s)%R) 0%R m.

End TokenSpec.

Module GeneratorSpec.
Import Embeddings.

(** The states a generator goes through: constructed, then initialized
    and fed batches in any order. *)
Inductive reachable : EmbeddingGenerator -> Prop :=
| reachable_new : reachable newEmbeddingGenerator
| reachable_initialize g : reachable g -> reachable (initialize g)
| reachable_batch g cs : reachable g -> reachable (buildVocabulary g cs).

End GeneratorSpec.

Module TieSpec.

(** [x === y] on numbers. *)
Definition Reqb (x y : R) : bool := if Req_EM_T x y then true else false.

End TieSpec.

Module SuggestionSpec.
Import JsString Suggestions.

(** What the loop keeps true of its two variables. *)
Definition suggestionInv (cs : list Chunk) (st : SuggestionState) : Prop :=
  map (fun s => toLowerCase (suggestionText s)) (suggestions st)
    = usedTerms st /\
  NoDup (usedTerms st) /\
  Forall (fun s => (String.length (suggestionText s) <= 60)%nat /\
                   exists c, In c cs /\ suggestionDocumentId s = documentId c)
    (suggestions st).

End SuggestionSpec.

Module WindowSpec.
Import JsString JsArray PdfProcessor.

(** The distance between the starts of two consecutive windows. *)
Definition stepOf (p : PDFProcessor) : Z :=
  Z.max (maxChunkSize p - chunkOverlap p) 1.

(** The number of windows over [len] tokens: none for no token, else one
    and as many more as steps are needed to reach the last token. *)
Definition chunkCount (p : PDFProcessor) (len : nat) : nat :=
  match len with
  | O => O
  | S _ =>
      S (Z.to_nat
           ((Z.max (Z.of_nat len - maxChunkSize p) 0 + stepOf p - 1)
            / stepOf p))
  end.

Definition windowStart (p : PDFProcessor) (j : nat) : Z :=
  Z.of_nat j * stepOf p.

Definition windowEnd (p : PDFProcessor) (words : list string) (j : nat) : Z :=
  Z.min (windowStart p j + maxChunkSize p) (Z.of_nat (length words)).

(** The chunk of window [j]: its words joined by single spaces. *)
Definition windowChunk (p : PDFProcessor) (words : list string) (docId : Z)
    (j : nat) : Chunk :=
  {| documentId := docId;
     chunkIndex := Z.of_nat j;
     text := join " " (slice words (windowStart p j) (windowEnd p words j));
     tokenCount := windowEnd p words j - windowStart p j;
     embedding := None |}.

(** What the loop keeps true: the chunks so far are the first windows,
    none of them the last one, and the next window starts at
    [startIndex]. *)
Definition windowInv (p : PDFProcessor) (words : list string) (docId : Z)
    (st : LoopState) : Prop :=
  exists k : nat,
    chunks st = map (windowChunk p words docId) (seq 0 k) /\
    nextIndex st = Z.of_nat k /\
    startIndex st = windowStart p k /\
    (forall j, (j < k)%nat ->
       (windowStart p j + maxChunkSize p < Z.of_nat (length words))%Z).

(** The first and the last character are not white space. *)
Definition firstNonSpace (s : string) : bool :=
  match s with
  | EmptyString => false
  | String c _ => negb (isSpace c)
  end.

Fixpoint lastNonSpace (s : string) : bool :=
  match s with
  | EmptyString => false
  | String c EmptyString => negb (isSpace c)
  | String _ s' => lastNonSpace s'
  end.

End WindowSpec.

Module StoreSpec.
Import Database Search.

(** The comparator [(a, b) => a.chunkIndex - b.chunkIndex], as [sortWith]
    takes it. *)
Definition indexAfter (a b : Chunk) : bool :=
  (0 <? chunkIndex a - chunkIndex b)%Z.

(** Sorted non-decreasing by chunk index. *)
Definition byIndex : list Chunk -> Prop :=
  StronglySorted (fun a b => (chunkIndex a <= chunkIndex b)%Z).

(** The chunk with the vector the generator gives for its text. *)
Definition embedded (g : EmbeddingGenerator) (c : Chunk) : Chunk :=
  {| documentId := documentId c;
     chunkIndex := chunkIndex c;
     text := text c;
     tokenCount := tokenCount c;
     embedding :=
       Some (tryCatch (generateEmbedding g (text c))
               (fun _ => zeroVector (vectorSize g))) |}.

(** The chunk is in the scope [if (documentId)] of a search. *)
Definition inScope (docId : option Z) (c : Chunk) : Prop :=
  match docId with
  | Some id => id = 0%Z \/ documentId c = id
  | None => True
  end.

End StoreSpec.

(** * Properties *)

Module ChunkerProofs.
Import JsString JsArray PdfProcessor ChunkerSpec.

Lemma revOnto_allNonSpace s : forall acc,
  allNonSpace s = true -> allNonSpace acc = true ->
  allNonSpace (revOnto s acc) = true.
Proof.
  induction s as [|c s IH]; intros acc Hs Hacc; simpl in *; auto.
  apply andb_true_iff in Hs as [Hc Hs].
  apply IH; auto. simpl. now rewrite Hc, Hacc.
Qed.

Lemma splitAux_allNonSpace s : forall cur inRun,
  allNonSpace cur = true ->
  Forall (fun w => allNonSpace w = true) (splitAux cur inRun s).
Proof.
  induction s as [|c s IH]; intros cur inRun Hcur; simpl.
  - constructor; [|constructor]. now apply revOnto_allNonSpace.
  - destruct (isSpace c) eqn:Hc.
    + destruct inRun.
      * now apply IH.
      * constructor; [now apply revOnto_allNonSpace | now apply IH].
    + apply IH. simpl. now rewrite Hc, Hcur.
Qed.

Lemma nonempty_allNonSpace w :
  (jsLength w >? 0)%Z = true -> allNonSpace w = true -> hasNonSpace w = true.
Proof.
  destruct w as [|c w]; simpl; intros Hlen Hall.
  - discriminate.
  - apply andb_true_iff in Hall as [Hc _]. now rewrite Hc.
Qed.

Lemma splitWords_hasNonSpace t :
  Forall (fun w => hasNonSpace w = true) (splitWords t).
Proof.
  unfold splitWords, splitSpaces.
  pose proof (splitAux_allNonSpace t EmptyString false eq_refl) as H.
  induction H as [|w l Hw Hl IH]; simpl.
  - constructor.
  - destruct (jsLength w >? 0)%Z eqn:E; auto.
    constructor; auto. now apply nonempty_allNonSpace.
Qed.

Lemma hasNonSpace_app s1 s2 :
  hasNonSpace (s1 ++ s2) = hasNonSpace s1 || hasNonSpace s2.
Proof.
  induction s1 as [|c s1 IH]; simpl; auto.
  rewrite IH. now rewrite orb_assoc.
Qed.

Lemma hasNonSpace_join w ws sep :
  hasNonSpace w = true -> hasNonSpace (join sep (w :: ws)) = true.
Proof.
  intros Hw. simpl. destruct ws; auto.
  rewrite hasNonSpace_app, Hw. reflexivity.
Qed.

Lemma hasNonSpace_trimStart s : hasNonSpace (trimStart s) = hasNonSpace s.
Proof.
  induction s as [|c s IH]; simpl; auto.
  destruct (isSpace c) eqn:Hc; simpl; auto. now rewrite Hc.
Qed.

Lemma trimEnd_nonempty s : hasNonSpace s = true -> trimEnd s <> EmptyString.
Proof.
  induction s as [|c s IH]; simpl; intros H.
  - discriminate.
  - destruct (trimEnd s) eqn:E.
    + destruct (isSpace c) eqn:Hc; simpl in H.
      * exfalso. now apply IH.
      * discriminate.
    + discriminate.
Qed.

Lemma trim_length_pos s :
  hasNonSpace s = true -> (0 <? jsLength (trim s))%Z = true.
Proof.
  intros H. unfold trim, jsLength.
  assert (Hne : trimEnd (trimStart s) <> EmptyString).
  { apply trimEnd_nonempty. now rewrite hasNonSpace_trimStart. }
  destruct (trimEnd (trimStart s)); [congruence|].
  simpl String.length. apply Z.ltb_lt. lia.
Qed.

Lemma slice_window {A} (l : list A) (s e : nat) :
  (s <= e <= length l)%nat ->
  slice l (Z.of_nat s) (Z.of_nat e) = firstn (e - s) (skipn s l).
Proof.
  intros H. unfold slice.
  destruct (Z.of_nat s <? 0)%Z eqn:E1; [apply Z.ltb_lt in E1; lia|].
  destruct (Z.of_nat e <? 0)%Z eqn:E2; [apply Z.ltb_lt in E2; lia|].
  rewrite !Z.min_l by lia.
  replace (Z.to_nat (Z.of_nat e - Z.of_nat s)) with (e - s)%nat by lia.
  now rewrite Nat2Z.id.
Qed.

Lemma slice_window_length {A} (l : list A) (s e : nat) :
  (s <= e <= length l)%nat ->
  length (slice l (Z.of_nat s) (Z.of_nat e)) = (e - s)%nat.
Proof.
  intros H. rewrite slice_window by assumption.
  rewrite length_firstn, length_skipn. lia.
Qed.

Lemma In_window {A} (x : A) (l : list A) (n m : nat) :
  In x (firstn n (skipn m l)) -> In x l.
Proof.
  intros H.
  rewrite <- (firstn_skipn m l). apply in_or_app. right.
  rewrite <- (firstn_skipn n (skipn m l)). apply in_or_app. now left.
Qed.

Lemma slice_window_hasNonSpace (l : list string) (s e : nat) :
  Forall (fun w => hasNonSpace w = true) l ->
  (s < e <= length l)%nat ->
  hasNonSpace (join " " (slice l (Z.of_nat s) (Z.of_nat e))) = true.
Proof.
  intros Hall H.
  assert (Hsub : Forall (fun w => hasNonSpace w = true)
                   (slice l (Z.of_nat s) (Z.of_nat e))).
  { rewrite slice_window by lia.
    apply Forall_forall. intros w Hin.
    apply (proj1 (Forall_forall _ l) Hall).
    eapply In_window, Hin. }
  pose proof (slice_window_length l s e ltac:(lia)) as Hlen.
  destruct (slice l (Z.of_nat s) (Z.of_nat e)) as [|w ws].
  - simpl in Hlen. lia.
  - apply hasNonSpace_join. now inversion Hsub.
Qed.

Lemma covered_app words cs c i :
  covered words cs i -> covered words (cs ++ [c]) i.
Proof.
  intros (c0 & s & e & Hin & Hsp & Hi).
  exists c0, s, e. split; [apply in_or_app; now left | auto].
Qed.

Lemma indexed_snoc cs c :
  indexed cs -> chunkIndex c = Z.of_nat (length cs) -> indexed (cs ++ [c]).
Proof.
  unfold indexed. intros H Hc.
  rewrite map_app, length_app. simpl length.
  rewrite Nat.add_1_r, seq_S, map_app, H. simpl. now rewrite Hc.
Qed.

(** Progress: a step that stays in the loop moves [startIndex] forward. *)
Lemma loopStep_progress p words docId st st' :
  loopStep p words docId st = Continue st' ->
  (startIndex st < Z.of_nat (length words))%Z /\
  (startIndex st + 1 <= startIndex st')%Z.
Proof.
  unfold loopStep.
  destruct (startIndex st <? Z.of_nat (length words))%Z eqn:Hlt;
    [|discriminate].
  apply Z.ltb_lt in Hlt.
  destruct (Z.min (startIndex st + maxChunkSize p) (Z.of_nat (length words))
              >=? Z.of_nat (length words))%Z; [discriminate|].
  intros H. injection H as <-. simpl. split; [assumption | lia].
Qed.

Lemma runLoop_terminates p words docId : forall fuel st,
  (Z.to_nat (Z.of_nat (length words) - startIndex st) < fuel)%nat ->
  exists cs, runLoop fuel p words docId st = Some cs.
Proof.
  induction fuel as [|fuel IH]; intros st Hfuel; [lia|].
  simpl. destruct (loopStep p words docId st) as [st'|cs] eqn:Hstep.
  - apply loopStep_progress in Hstep as [Hlt Hadv].
    apply IH. lia.
  - now exists cs.
Qed.

Section Window.

Variable p : PDFProcessor.
Variable words : list string.
Variable docId : Z.
Hypothesis Hsize : (1 <= maxChunkSize p)%Z.
Hypothesis Hoverlap : (0 <= chunkOverlap p)%Z.
Hypothesis Hwords : Forall (fun w => hasNonSpace w = true) words.

Lemma loopStep_inv st :
  loopInv words st ->
  match loopStep p words docId st with
  | Continue st' => loopInv words st'
  | Return cs =>
      indexed cs /\ forall i, (i < length words)%nat -> covered words cs i
  end.
Proof.
  intros (Hpos & Hnext & Hidx & Hcov).
  unfold loopStep.
  destruct (startIndex st <? Z.of_nat (length words))%Z eqn:Hlt.
  2:{ apply Z.ltb_ge in Hlt. split; [assumption|].
      intros i Hi. apply Hcov. lia. }
  apply Z.ltb_lt in Hlt.
  set (s := Z.to_nat (startIndex st)).
  set (endIndex := Z.min (startIndex st + maxChunkSize p)
                     (Z.of_nat (length words))).
  set (e := Z.to_nat endIndex).
  assert (Hs : startIndex st = Z.of_nat s) by (unfold s; lia).
  assert (He : endIndex = Z.of_nat e) by (unfold e, endIndex; lia).
  assert (Hse : (s < e <= length words)%nat) by (unfold e, endIndex, s; lia).
  rewrite Hs, He.
  rewrite (trim_length_pos _ (slice_window_hasNonSpace words s e Hwords Hse)).
  set (c := {| documentId := docId; chunkIndex := nextIndex st;
               text := trim (join " " (slice words (Z.of_nat s) (Z.of_nat e)));
               tokenCount :=
                 Z.of_nat (length (slice words (Z.of_nat s) (Z.of_nat e)));
               embedding := None |}).
  assert (Hspan : spans words c s e).
  { split; [assumption|]. split; [reflexivity|].
    simpl. now rewrite slice_window_length by lia. }
  assert (Hidx' : indexed (chunks st ++ [c])).
  { apply indexed_snoc; [assumption | exact Hnext]. }
  assert (Hcov' : forall i, (i < e)%nat -> covered words (chunks st ++ [c]) i).
  { intros i Hi. destruct (Nat.lt_ge_cases i s) as [Hlo|Hhi].
    - apply covered_app, Hcov. lia.
    - exists c, s, e. split; [apply in_or_app; right; now left|].
      split; [assumption | lia]. }
  destruct (Z.of_nat e >=? Z.of_nat (length words))%Z eqn:Hend; simpl.
  - apply Z.geb_le in Hend. split; [assumption|].
    intros i Hi. apply Hcov'. lia.
  - rewrite Z.geb_leb in Hend. apply Z.leb_gt in Hend. fold c.
    repeat split.
    + simpl. lia.
    + simpl. rewrite length_app. simpl. lia.
    + exact Hidx'.
    + simpl. intros i Hi. apply Hcov'.
      unfold e, endIndex. lia.
Qed.

Lemma runLoop_inv : forall fuel st cs,
  loopInv words st ->
  runLoop fuel p words docId st = Some cs ->
  indexed cs /\ forall i, (i < length words)%nat -> covered words cs i.
Proof.
  induction fuel as [|fuel IH]; intros st cs Hinv Hrun; [discriminate|].
  simpl in Hrun. pose proof (loopStep_inv st Hinv) as Hstep.
  destruct (loopStep p words docId st) as [st'|cs'].
  - now apply (IH st').
  - injection Hrun as <-. exact Hstep.
Qed.

End Window.

Lemma runLoop_more_fuel p words docId : forall fuel fuel' st cs,
  runLoop fuel p words docId st = Some cs -> (fuel <= fuel')%nat ->
  runLoop fuel' p words docId st = Some cs.
Proof.
  induction fuel as [|fuel IH]; intros fuel' st cs Hrun Hle; [discriminate|].
  destruct fuel' as [|fuel']; [lia|].
  simpl in *. destruct (loopStep p words docId st); auto.
  apply (IH fuel'); [assumption | lia].
Qed.

Lemma initialLoop_inv words : loopInv words initialLoop.
Proof.
  repeat split; simpl; try lia.
Qed.

(** C4. For every text, every window size of at least one token and every
    overlap of at least zero (an overlap at or above the window size
    included), the loop of [chunkText] is left after at most
    [length words + 1] tests and returns a list of chunks; every token of
    the input lies in the span of one of the chunks; and the chunk indices
    are 0, 1, 2, ... in the order of emission. *)
Theorem chunkText_terminates_and_covers (p : PDFProcessor) (t : string)
    (docId : Z) :
  (1 <= maxChunkSize p)%Z -> (0 <= chunkOverlap p)%Z ->
  exists cs,
    (forall fuel, (length (splitWords t) < fuel)%nat ->
       chunkText fuel p t docId = Some cs) /\
    (forall i, (i < length (splitWords t))%nat ->
       covered (splitWords t) cs i) /\
    map chunkIndex cs = map Z.of_nat (seq 0 (length cs)).
Proof.
  intros Hsize Hoverlap.
  set (words := splitWords t).
  destruct (runLoop_terminates p words docId (S (length words)) initialLoop)
    as [cs Hcs].
  { simpl. lia. }
  exists cs.
  destruct (runLoop_inv p words docId Hsize Hoverlap
              (splitWords_hasNonSpace t) _ _ _ (initialLoop_inv words) Hcs)
    as [Hidx Hcov].
  split; [|split; assumption].
  intros fuel Hfuel. unfold chunkText. fold words.
  apply (runLoop_more_fuel _ _ _ (S (length words))); [assumption | lia].
Qed.

(** The theorem at a window of two tokens and an overlap of five. *)
Lemma chunkText_terminates_and_covers_witness :
  exists cs,
    (forall fuel, (length (splitWords "a b c") < fuel)%nat ->
       chunkText fuel {| maxChunkSize := 2; chunkOverlap := 5 |} "a b c" 7
       = Some cs) /\
    (forall i, (i < length (splitWords "a b c"))%nat ->
       covered (splitWords "a b c") cs i) /\
    map chunkIndex cs = map Z.of_nat (seq 0 (length cs)).
Proof.
  apply (chunkText_terminates_and_covers
           {| maxChunkSize := 2; chunkOverlap := 5 |} "a b c" 7); simpl; lia.
Defined.

(** With an overlap above the window size the window still moves on, one
    token at a time. *)
Example chunkText_overlap_above_size :
  chunkText 4 {| maxChunkSize := 2; chunkOverlap := 5 |} "a b c" 7 =
  Some [ {| documentId := 7; chunkIndex := 0; text := "a b";
            tokenCount := 2; embedding := None |};
         {| documentId := 7; chunkIndex := 1; text := "b c";
            tokenCount := 2; embedding := None |} ].
Proof. vm_compute. reflexivity. Qed.

End ChunkerProofs.

Module HashProofs.
Import JsString Embeddings HashSpec.
Local Open Scope Z_scope.

Lemma toInt32_range z : - 2 ^ 31 <= toInt32 z < 2 ^ 31.
Proof.
  unfold toInt32.
  pose proof (Z.mod_pos_bound (z + 2 ^ 31) (2 ^ 32) ltac:(lia)). lia.
Qed.

Lemma toInt32_small z : - 2 ^ 31 <= z < 2 ^ 31 -> toInt32 z = z.
Proof.
  intros H. unfold toInt32. rewrite Z.mod_small; lia.
Qed.

Lemma toInt32_idem z : toInt32 (toInt32 z) = toInt32 z.
Proof. apply toInt32_small, toInt32_range. Qed.

Lemma toInt32_congr a b :
  a mod 2 ^ 32 = b mod 2 ^ 32 -> toInt32 a = toInt32 b.
Proof.
  intros H. unfold toInt32. f_equal.
  rewrite <- (Zplus_mod_idemp_l a), <- (Zplus_mod_idemp_l b). now rewrite H.
Qed.

Lemma toInt32_mod z : (toInt32 z) mod 2 ^ 32 = z mod 2 ^ 32.
Proof.
  unfold toInt32.
  rewrite Zminus_mod_idemp_l. f_equal. lia.
Qed.

Lemma toInt32_of_mod z : toInt32 (z mod 2 ^ 32) = toInt32 z.
Proof. apply toInt32_congr. apply Z.mod_mod. lia. Qed.

Lemma hashStep_formula hash c :
  hashStep hash c = toInt32 (hash * 31 + charCode c).
Proof.
  unfold hashStep, and32, shl32.
  change (toInt32 4294967295) with (-1).
  rewrite Z.land_m1_r, toInt32_idem.
  change (5 mod 32) with 5. rewrite Z.shiftl_mul_pow2 by lia.
  apply toInt32_congr.
  rewrite <- Zplus_mod_idemp_l, <- Zminus_mod_idemp_l, toInt32_mod.
  rewrite Zminus_mod_idemp_l, Zplus_mod_idemp_l.
  rewrite <- (Zplus_mod_idemp_l (toInt32 hash * 2 ^ 5 - hash)).
  rewrite <- (Zminus_mod_idemp_l (toInt32 hash * 2 ^ 5)).
  rewrite <- (Zmult_mod_idemp_l (toInt32 hash)), toInt32_mod.
  rewrite Zmult_mod_idemp_l, Zminus_mod_idemp_l, Zplus_mod_idemp_l.
  f_equal. lia.
Qed.

Lemma fold_hashStep l : forall a b,
  a = toInt32 b ->
  fold_left hashStep l a =
  toInt32 (fold_left (fun hash c => (hash * 31 + charCode c) mod 2 ^ 32) l b).
Proof.
  induction l as [|c l IH]; intros a b Hab; simpl.
  - assumption.
  - apply IH. rewrite hashStep_formula, Hab, toInt32_of_mod.
    apply toInt32_congr.
    rewrite <- Zplus_mod_idemp_l, <- Zmult_mod_idemp_l, toInt32_mod.
    now rewrite Zmult_mod_idemp_l, Zplus_mod_idemp_l.
Qed.

Lemma wordHash_specHash word : wordHash word = toInt32 (specHash word).
Proof. unfold wordHash, specHash. now apply fold_hashStep. Qed.

Lemma specHash_range word : 0 <= specHash word < 2 ^ 32.
Proof.
  unfold specHash.
  assert (H : forall l b, 0 <= b < 2 ^ 32 ->
            0 <= fold_left (fun hash c => (hash * 31 + charCode c) mod 2 ^ 32)
                   l b < 2 ^ 32).
  { induction l as [|c l IH]; intros b Hb; simpl; [assumption|].
    apply IH. apply Z.mod_pos_bound. lia. }
  apply H. lia.
Qed.

(** C2, amended. For every term, the hash of [getWordPositions] is the
    signed 32-bit integer congruent modulo 2^32 to the rolling hash
    [hash*31 + charCode]; the three positions are
    [|hash + i * 123456789| mod 384] for i = 0, 1, 2, each in [0, 384); and
    when the hash is not negative it is the rolling hash itself and the
    positions are [(|hash| + i * 123456789) mod 384]. *)
Theorem getWordPositions_formula (word : string) :
  let hash := wordHash word in
  hash = toInt32 (specHash word) /\
  - 2 ^ 31 <= hash < 2 ^ 31 /\
  getWordPositions newEmbeddingGenerator word 3 =
    [ Z.abs hash mod 384;
      Z.abs (hash + 123456789) mod 384;
      Z.abs (hash + 2 * 123456789) mod 384 ] /\
  Forall (fun pos => 0 <= pos < 384)
    (getWordPositions newEmbeddingGenerator word 3) /\
  (0 <= hash ->
   hash = specHash word /\
   getWordPositions newEmbeddingGenerator word 3 = specPositions hash).
Proof.
  intros hash.
  assert (Hspec : hash = toInt32 (specHash word)) by apply wordHash_specHash.
  assert (Hrange : - 2 ^ 31 <= hash < 2 ^ 31).
  { rewrite Hspec. apply toInt32_range. }
  assert (Hpos : getWordPositions newEmbeddingGenerator word 3 =
    [ Z.abs hash mod 384; Z.abs (hash + 123456789) mod 384;
      Z.abs (hash + 2 * 123456789) mod 384 ]).
  { unfold getWordPositions. fold hash. simpl.
    rewrite !Z.rem_mod_nonneg by lia.
    repeat f_equal; lia. }
  split; [assumption|]. split; [assumption|]. split; [assumption|].
  split.
  - rewrite Hpos. repeat constructor; apply Z.mod_pos_bound; lia.
  - intros Hnonneg. split.
    + rewrite Hspec. pose proof (specHash_range word) as Hs.
      unfold toInt32 in *.
      destruct (Z_lt_ge_dec (specHash word) (2 ^ 31)) as [Hlt|Hge].
      * rewrite Z.mod_small; lia.
      * exfalso.
        replace (specHash word + 2 ^ 31)
          with (specHash word - 2 ^ 31 + 1 * 2 ^ 32) in Hspec by lia.
        rewrite Z.mod_add, Z.mod_small in Hspec; lia.
    + rewrite Hpos. unfold specPositions, specPosition. simpl.
      repeat f_equal; lia.
Qed.

(** C2, as stated, fails on "search": its hash is negative, and the
    positions the code computes are neither the ones the stated formula
    gives on the hash reduced modulo 2^32 nor the ones it gives on the
    signed hash. *)
Lemma getWordPositions_not_spec :
  getWordPositions newEmbeddingGenerator "search" 3 = [88; 67; 46] /\
  getWordPositions newEmbeddingGenerator "search" 3
    <> specPositions (specHash "search") /\
  getWordPositions newEmbeddingGenerator "search" 3
    <> specPositions (wordHash "search").
Proof. vm_compute. repeat split; discriminate. Qed.

(** The theorem at "cat", whose hash is not negative. *)
Lemma getWordPositions_formula_witness :
  0 <= wordHash "cat" /\
  getWordPositions newEmbeddingGenerator "cat" 3
    = specPositions (wordHash "cat").
Proof.
  split.
  - vm_compute. discriminate.
  - destruct (getWordPositions_formula "cat") as (_ & _ & _ & _ & H).
    apply H. vm_compute. discriminate.
Defined.

End HashProofs.

Module VectorProofs.
Import JsArray Embeddings VectorSpec.
Local Open Scope R_scope.

Lemma orDefault_zero x : orDefault (Some x) 0 = x.
Proof. unfold orDefault. destruct (Req_EM_T x 0); lra. Qed.

Lemma dot_comm a : forall b, dot a b = dot b a.
Proof.
  induction a as [|x a IH]; intros [|y b]; simpl; try reflexivity.
  rewrite IH. lra.
Qed.

Lemma dot_self_nonneg v : 0 <= dot v v.
Proof. induction v as [|x v IH]; simpl; nra. Qed.

Lemma dot_self_zero v : dot v v = 0 -> isZeroVector v.
Proof.
  induction v as [|x v IH]; simpl; intros H; constructor.
  - pose proof (dot_self_nonneg v). nra.
  - apply IH. pose proof (dot_self_nonneg v). nra.
Qed.

Lemma dot_self_pos v : nonZero v -> 0 < dot v v.
Proof.
  intros (x & Hin & Hx).
  pose proof (dot_self_nonneg v) as Hge.
  destruct (Req_dec (dot v v) 0) as [H0|Hne]; [|lra].
  exfalso. apply Hx.
  exact (proj1 (Forall_forall _ v) (dot_self_zero v H0) x Hin).
Qed.

Lemma fold_sumSquares v : forall s,
  fold_left (fun sum val => sum + val * val) v s = s + dot v v.
Proof.
  induction v as [|x v IH]; intros s; simpl.
  - lra.
  - rewrite IH. lra.
Qed.

Lemma sumSquares_dot v : sumSquares v = dot v v.
Proof. unfold sumSquares. rewrite fold_sumSquares. lra. Qed.

Lemma dot_scale v k : dot (map (fun x => x / k) v) (map (fun x => x / k) v)
                      = dot v v / k / k.
Proof.
  induction v as [|x v IH]; simpl.
  - unfold Rdiv. lra.
  - rewrite IH. unfold Rdiv. lra.
Qed.

(** The loop of [cosineSimilarity] over the indices, read off as three
    sums over the paired entries. *)
Lemma fold_indices (a b : list R) : forall pa pb dp na nb,
  length pa = length pb -> length a = length b ->
  fold_left
    (fun acc i =>
       let valA := orDefault (nth_error (pa ++ a) i) 0 in
       let valB := orDefault (nth_error (pb ++ b) i) 0 in
       match acc with
       | (dotProduct, normA, normB) =>
           (dotProduct + valA * valB, normA + valA * valA,
            normB + valB * valB)
       end)
    (seq (length pa) (length a)) (dp, na, nb)
  = (dp + dot a b, na + dot a a, nb + dot b b).
Proof.
  revert b. induction a as [|x a IH]; intros [|y b] pa pb dp na nb Hp Hab;
    simpl in Hab; try discriminate.
  - simpl. f_equal; [f_equal|]; lra.
  - simpl seq. simpl fold_left.
    rewrite (nth_error_app2 pa) by lia.
    rewrite Hp at 2. rewrite (nth_error_app2 pb) by lia.
    rewrite Hp, Nat.sub_diag. simpl nth_error. rewrite !orDefault_zero.
    replace (pa ++ x :: a) with ((pa ++ [x]) ++ a)
      by (now rewrite <- app_assoc).
    replace (pb ++ y :: b) with ((pb ++ [y]) ++ b)
      by (now rewrite <- app_assoc).
    replace (S (length pb)) with (length (pa ++ [x]))
      by (rewrite length_app; simpl; lia).
    rewrite IH.
    + simpl. f_equal; [f_equal|]; lra.
    + rewrite !length_app. simpl. lia.
    + now injection Hab.
Qed.

Lemma slice_prefix {A} (l : list A) (n : nat) :
  slice l 0 (Z.of_nat n) = firstn n l.
Proof.
  unfold slice. change (0 <? 0)%Z with false. cbv iota.
  destruct (Z.of_nat n <? 0)%Z eqn:E; [apply Z.ltb_lt in E; lia|].
  rewrite (Z.min_l 0) by lia. rewrite Z.sub_0_r. simpl skipn.
  destruct (Nat.le_gt_cases n (length l)) as [Hle|Hgt].
  - rewrite Z.min_l by lia. now rewrite Nat2Z.id.
  - rewrite Z.min_r by lia. rewrite Nat2Z.id.
    rewrite !firstn_all2; auto; lia.
Qed.

(** [cosineSimilarity] in closed form. *)
Lemma cosineSimilarity_closed (a b : list R) :
  let a' := firstn (common a b) a in
  let b' := firstn (common a b) b in
  cosineSimilarity a b =
    if Req_EM_T (dot a' a') 0 then 0
    else if Req_EM_T (dot b' b') 0 then 0
    else clamp01 (dot a' b' / (sqrt (dot a' a') * sqrt (dot b' b'))).
Proof.
  intros a' b'. unfold cosineSimilarity.
  assert (Ha : (if Nat.eqb (length a) (length b) then a
                else slice a 0 (Z.min (Z.of_nat (length a))
                                      (Z.of_nat (length b)))) = a').
  { unfold a', common. destruct (Nat.eqb_spec (length a) (length b)) as [E|E].
    - rewrite E, Nat.min_id, <- E. now rewrite firstn_all.
    - rewrite <- Nat2Z.inj_min. apply slice_prefix. }
  assert (Hb : (if Nat.eqb (length a) (length b) then b
                else slice b 0 (Z.min (Z.of_nat (length a))
                                      (Z.of_nat (length b)))) = b').
  { unfold b', common. destruct (Nat.eqb_spec (length a) (length b)) as [E|E].
    - rewrite E, Nat.min_id. now rewrite firstn_all.
    - rewrite <- Nat2Z.inj_min. apply slice_prefix. }
  rewrite Ha, Hb.
  assert (Hlen : length a' = length b').
  { unfold a', b', common. rewrite !length_firstn. lia. }
  pose proof (fold_indices a' b' [] [] 0 0 0 eq_refl Hlen) as Hfold.
  simpl in Hfold. rewrite Hfold. rewrite !Rplus_0_l. reflexivity.
Qed.

Lemma common_comm a b : common a b = common b a.
Proof. unfold common. apply Nat.min_comm. Qed.

Lemma cosineSimilarity_self v : 0 < dot v v -> cosineSimilarity v v = 1.
Proof.
  intros Hpos. rewrite cosineSimilarity_closed. cbv zeta.
  unfold common. rewrite Nat.min_id, firstn_all.
  destruct (Req_EM_T (dot v v) 0) as [H0|_]; [lra|].
  rewrite sqrt_sqrt by lra.
  unfold clamp01, Rdiv. rewrite Rinv_r by lra.
  rewrite Rmin_left by lra. apply Rmax_right. lra.
Qed.

(** C8. [cosineSimilarity] is symmetric, for vectors of any lengths, and
    the similarity of a vector with a non-zero entry to itself is 1 (in
    real arithmetic, so with no rounding to allow for). *)
Theorem cosineSimilarity_symmetric_and_self :
  (forall a b : list R, cosineSimilarity a b = cosineSimilarity b a) /\
  (forall v : list R, nonZero v -> cosineSimilarity v v = 1).
Proof.
  split.
  - intros a b. rewrite !cosineSimilarity_closed. cbv zeta.
    rewrite (common_comm b a).
    set (a' := firstn (common a b) a). set (b' := firstn (common a b) b).
    rewrite (dot_comm b' a'), (Rmult_comm (sqrt (dot b' b'))).
    destruct (Req_EM_T (dot a' a') 0), (Req_EM_T (dot b' b') 0); reflexivity.
  - intros v Hv. apply cosineSimilarity_self. now apply dot_self_pos.
Qed.

(** The theorem at the vector (3, 4). *)
Lemma cosineSimilarity_self_witness :
  cosineSimilarity [3; 4] [3; 4] = 1.
Proof.
  apply (proj2 cosineSimilarity_symmetric_and_self).
  exists 3. split; [now left | lra].
Defined.

(** *** [normalizeVector] *)

Lemma isZeroVector_repeat v : isZeroVector v -> v = repeat 0 (length v).
Proof.
  induction 1 as [|x v Hx Hv IH]; simpl; [reflexivity|].
  now rewrite Hx, <- IH.
Qed.

Lemma dot_repeat_zero n : dot (repeat 0 n) (repeat 0 n) = 0.
Proof. induction n as [|n IH]; simpl; [reflexivity|]. rewrite IH. lra. Qed.

Lemma normalizeVector_length v : length (normalizeVector v) = length v.
Proof.
  unfold normalizeVector.
  destruct (Req_EM_T (sqrt (sumSquares v)) 0); [reflexivity|].
  apply length_map.
Qed.

Lemma normalizeVector_zero_or_unit v :
  (isZeroVector v /\ normalizeVector v = v) \/ norm (normalizeVector v) = 1.
Proof.
  unfold normalizeVector.
  pose proof (dot_self_nonneg v) as Hge.
  destruct (Req_EM_T (sqrt (sumSquares v)) 0) as [H0|Hne].
  - left. split; [|reflexivity].
    apply dot_self_zero. rewrite sumSquares_dot in H0.
    now apply sqrt_eq_0.
  - right. unfold norm. rewrite sumSquares_dot, dot_scale.
    rewrite sumSquares_dot in *.
    assert (Hpos : 0 < dot v v).
    { destruct (Req_dec (dot v v) 0) as [E|E]; [|lra].
      rewrite E, sqrt_0 in Hne. lra. }
    replace (dot v v / sqrt (dot v v) / sqrt (dot v v)) with 1.
    + apply sqrt_1.
    + rewrite <- (sqrt_sqrt (dot v v)) at 1 by lra.
      field. exact Hne.
Qed.

Lemma normalizeVector_unit v : 0 < dot v v -> norm (normalizeVector v) = 1.
Proof.
  intros Hpos. destruct (normalizeVector_zero_or_unit v) as [[Hz _]|H]; auto.
  exfalso. rewrite (isZeroVector_repeat v Hz), dot_repeat_zero in Hpos. lra.
Qed.

(** *** Accumulation *)

Lemma addAtNat_length n x : forall v, length (addAtNat n x v) = length v.
Proof.
  induction n as [|n IH]; intros [|y v]; simpl; auto.
Qed.

Lemma addAt_length pos x v : length (addAt pos x v) = length v.
Proof.
  unfold addAt. destruct (pos <? 0)%Z; [reflexivity|apply addAtNat_length].
Qed.

Lemma addAtNat_grows n x : forall v,
  0 <= x -> nonNegative v ->
  nonNegative (addAtNat n x v) /\
  dot v v <= dot (addAtNat n x v) (addAtNat n x v) /\
  ((n < length v)%nat -> 0 < x ->
   dot v v < dot (addAtNat n x v) (addAtNat n x v)).
Proof.
  induction n as [|n IH]; intros [|y v] Hx Hv; simpl.
  - repeat split; [constructor | lra | lia].
  - inversion Hv as [|? ? Hy Hv']; subst.
    repeat split.
    + constructor; [lra | assumption].
    + nra.
    + intros _ Hpos. nra.
  - repeat split; [constructor | lra | lia].
  - inversion Hv as [|? ? Hy Hv']; subst.
    destruct (IH v Hx Hv') as (Hnn & Hle & Hlt).
    repeat split.
    + constructor; assumption.
    + lra.
    + intros Hn Hpos. assert (n < length v)%nat by lia.
      specialize (Hlt H Hpos). lra.
Qed.

Lemma addAt_grows pos x v :
  0 <= x -> nonNegative v ->
  nonNegative (addAt pos x v) /\
  dot v v <= dot (addAt pos x v) (addAt pos x v) /\
  ((0 <= pos < Z.of_nat (length v))%Z -> 0 < x ->
   dot v v < dot (addAt pos x v) (addAt pos x v)).
Proof.
  intros Hx Hv. unfold addAt.
  destruct (pos <? 0)%Z eqn:E.
  - apply Z.ltb_lt in E. repeat split; [assumption | lra | lia].
  - destruct (addAtNat_grows (Z.to_nat pos) x v Hx Hv) as (H1 & H2 & H3).
    repeat split; auto. intros Hpos. apply H3. lia.
Qed.

Lemma addAll_grows x : forall positions v,
  0 < x -> nonNegative v ->
  Forall (fun pos => (0 <= pos < Z.of_nat (length v))%Z) positions ->
  let v' := fold_left (fun vector pos => addAt pos x vector) positions v in
  nonNegative v' /\ length v' = length v /\
  dot v v <= dot v' v' /\ (positions <> [] -> dot v v < dot v' v').
Proof.
  induction positions as [|pos ps IH]; intros v Hx Hv Hps; simpl.
  - repeat split; [assumption | lra | congruence].
  - inversion Hps as [|? ? Hpos Hps']; subst.
    destruct (addAt_grows pos x v ltac:(lra) Hv) as (Hnn & Hle & Hlt).
    specialize (Hlt Hpos Hx).
    destruct (IH (addAt pos x v) Hx Hnn) as (H1 & H2 & H3 & _).
    { now rewrite addAt_length. }
    repeat split.
    + exact H1.
    + now rewrite H2, addAt_length.
    + lra.
    + intros _. lra.
Qed.

Lemma getWordPositions_in_range g word count :
  (0 < vectorSize g)%Z ->
  Forall (fun pos => (0 <= pos < vectorSize g)%Z)
    (getWordPositions g word count).
Proof.
  intros Hvs. unfold getWordPositions.
  apply Forall_forall. intros pos Hin.
  apply in_map_iff in Hin as (i & <- & _).
  rewrite Z.rem_mod_nonneg by lia.
  apply Z.mod_pos_bound. lia.
Qed.

Lemma getWordPositions_nonempty g word : getWordPositions g word 3 <> [].
Proof. unfold getWordPositions. simpl. discriminate. Qed.

(** *** Maps *)

Lemma get_set {V} (m : JsMap.t V) k v k' :
  JsMap.get (JsMap.set m k v) k' =
  if String.eqb k' k then Some v else JsMap.get m k'.
Proof.
  induction m as [|[k0 v0] m IH]; simpl.
  - reflexivity.
  - destruct (String.eqb_spec k k0) as [E|E]; simpl.
    + subst k0. destruct (String.eqb_spec k' k); reflexivity.
    + rewrite IH. destruct (String.eqb_spec k' k0) as [E0|E0]; auto.
      subst k0. destruct (String.eqb_spec k' k); [congruence | reflexivity].
Qed.

Lemma set_allValues P (m : JsMap.t R) k v :
  P v -> allValues P m -> allValues P (JsMap.set m k v).
Proof.
  unfold allValues. intros Hv.
  induction m as [|[k0 v0] m IH]; simpl; intros Hm.
  - constructor; [assumption | constructor].
  - inversion Hm as [|? ? H0 Hm']; subst.
    destruct (String.eqb k k0); constructor; auto.
Qed.

Lemma get_allValues P (m : JsMap.t R) k x :
  allValues P m -> JsMap.get m k = Some x -> P x.
Proof.
  unfold allValues. induction m as [|[k0 v0] m IH]; simpl; intros Hm Hget.
  - discriminate.
  - inversion Hm as [|? ? H0 Hm']; subst.
    destruct (String.eqb k k0); [injection Hget as <-; exact H0 | auto].
Qed.

Lemma set_nonempty {V} (m : JsMap.t V) k v : JsMap.set m k v <> [].
Proof.
  destruct m as [|[k0 v0] m]; simpl; [discriminate|].
  destruct (String.eqb k k0); discriminate.
Qed.

Lemma orDefault_count_pos (m : JsMap.t R) k :
  allValues (fun x => 0 < x) m -> 0 < orDefault (JsMap.get m k) 0 + 1.
Proof.
  intros Hm. destruct (JsMap.get m k) as [x|] eqn:E; simpl.
  - pose proof (get_allValues _ _ _ _ Hm E) as Hx. simpl in Hx.
    destruct (Req_EM_T x 0); lra.
  - lra.
Qed.

Lemma fold_set_invariant {A} (P : R -> Prop) (key : JsMap.t R -> A -> string)
    (val : JsMap.t R -> A -> R) :
  (forall m a, allValues P m -> P (val m a)) ->
  forall l m, allValues P m ->
    allValues P (fold_left (fun m a => JsMap.set m (key m a) (val m a)) l m) /\
    (m <> [] \/ l <> [] ->
     fold_left (fun m a => JsMap.set m (key m a) (val m a)) l m <> []).
Proof.
  intros Hval. induction l as [|a l IH]; intros m Hm; simpl.
  - split; [assumption|]. intros [H|H]; congruence.
  - destruct (IH (JsMap.set m (key m a) (val m a))) as [H1 H2].
    { apply set_allValues; auto. }
    split; [assumption|]. intros _. apply H2. left. apply set_nonempty.
Qed.

Lemma calculateTermFrequency_positive words :
  words <> [] ->
  calculateTermFrequency words <> [] /\
  allValues (fun x => 0 < x) (calculateTermFrequency words).
Proof.
  intros Hne. unfold calculateTermFrequency.
  destruct (Nat.eqb_spec (length words) 0) as [E|E].
  { destruct words; [congruence | discriminate]. }
  set (counted := fold_left _ words JsMap.empty).
  assert (Hcounted : allValues (fun x => 0 < x) counted /\ counted <> []).
  { destruct (fold_set_invariant (fun x => 0 < x) (fun _ w => w)
                (fun m w => orDefault (JsMap.get m w) 0 + 1)
                (fun m w => orDefault_count_pos m w) words JsMap.empty)
      as [H1 H2]; [constructor|].
    split; [exact H1 | apply H2; now right]. }
  destruct Hcounted as [Hpos Hnonempty].
  assert (Htotal : 0 < INR (length words)) by (apply lt_0_INR; lia).
  assert (Hgen : forall entries m,
    allValues (fun x => 0 < x) entries -> allValues (fun x => 0 < x) m ->
    m <> [] ->
    let m' := fold_left (fun termFreq entry =>
                JsMap.set termFreq (fst entry)
                  (snd entry / INR (length words))) entries m in
    m' <> [] /\ allValues (fun x => 0 < x) m').
  { induction entries as [|e entries IH]; intros m He Hm Hm0; simpl.
    - split; assumption.
    - inversion He as [|? ? He0 He']; subst. apply IH; auto.
      + apply set_allValues; auto. now apply Rdiv_lt_0_compat.
      + apply set_nonempty. }
  now apply Hgen.
Qed.

Lemma orDefault_idf_pos (m : JsMap.t R) k :
  allValues (fun x => 0 <= x) m -> 0 < orDefault (JsMap.get m k) 1.
Proof.
  intros Hm. destruct (JsMap.get m k) as [x|] eqn:E; simpl.
  - pose proof (get_allValues _ _ _ _ Hm E) as Hx. simpl in Hx.
    destruct (Req_EM_T x 0); lra.
  - lra.
Qed.

Lemma addAll_length x : forall positions v,
  length (fold_left (fun vector pos => addAt pos x vector) positions v)
  = length v.
Proof.
  induction positions as [|pos ps IH]; intros v; simpl; [reflexivity|].
  now rewrite IH, addAt_length.
Qed.

Lemma accumulate_length g : forall termFreq v,
  length (accumulate g termFreq v) = length v.
Proof.
  unfold accumulate.
  induction termFreq as [|e termFreq IH]; intros v; cbn [fold_left];
    [reflexivity|].
  now rewrite IH, addAll_length.
Qed.

Lemma accumulate_grows g :
  (0 < vectorSize g)%Z ->
  allValues (fun x => 0 <= x) (idfScores g) ->
  forall termFreq v,
    allValues (fun x => 0 < x) termFreq ->
    nonNegative v -> length v = Z.to_nat (vectorSize g) ->
    nonNegative (accumulate g termFreq v) /\
    dot v v <= dot (accumulate g termFreq v) (accumulate g termFreq v) /\
    (termFreq <> [] ->
     dot v v < dot (accumulate g termFreq v) (accumulate g termFreq v)).
Proof.
  intros Hvs Hidf. unfold accumulate.
  induction termFreq as [|e termFreq IH]; intros v Htf Hv Hlen;
    cbn [fold_left].
  - repeat split; [assumption | lra | congruence].
  - inversion Htf as [|? ? He Htf']; subst.
    set (score := snd e * orDefault (JsMap.get (idfScores g) (fst e)) 1).
    assert (Hscore : 0 < score).
    { apply Rmult_lt_0_compat; [exact He | now apply orDefault_idf_pos]. }
    destruct (addAll_grows score (getWordPositions g (fst e) 3) v Hscore Hv)
      as (H1 & H2 & H3 & H4).
    { rewrite Hlen.
      eapply Forall_impl; [|apply getWordPositions_in_range; exact Hvs].
      simpl. intros pos Hpos. lia. }
    specialize (H4 (getWordPositions_nonempty g (fst e))).
    destruct (IH _ Htf' H1 ltac:(congruence)) as (I1 & I2 & _).
    repeat split; [exact I1 | lra | intros _; lra].
Qed.

Lemma zeroVector_nonNegative n : nonNegative (zeroVector n).
Proof.
  unfold zeroVector, nonNegative. apply Forall_forall.
  intros x Hx. apply repeat_spec in Hx. lra.
Qed.

Lemma generateTFIDFVector_length g t :
  length (generateTFIDFVector g t) = Z.to_nat (vectorSize g).
Proof.
  unfold generateTFIDFVector.
  rewrite normalizeVector_length, accumulate_length.
  apply repeat_length.
Qed.

Lemma generateTFIDFVector_tokens g t :
  tokenize t <> [] -> (0 < vectorSize g)%Z ->
  allValues (fun x => 0 <= x) (idfScores g) ->
  0 < dot (accumulate g (calculateTermFrequency (tokenize t))
             (zeroVector (vectorSize g)))
          (accumulate g (calculateTermFrequency (tokenize t))
             (zeroVector (vectorSize g))) /\
  norm (generateTFIDFVector g t) = 1 /\
  generateTFIDFVector g t <> zeroVector (vectorSize g).
Proof.
  intros Htokens Hvs Hidf.
  assert (Hzero : dot (zeroVector (vectorSize g)) (zeroVector (vectorSize g))
                  = 0) by apply dot_repeat_zero.
  destruct (calculateTermFrequency_positive _ Htokens) as [Hne Hpos].
  destruct (accumulate_grows g Hvs Hidf _ _ Hpos
              (zeroVector_nonNegative _) (repeat_length _ _))
    as (_ & _ & Hlt).
  specialize (Hlt Hne). rewrite Hzero in Hlt.
  pose proof (normalizeVector_unit _ Hlt) as Hunit.
  split; [exact Hlt|]. split; [exact Hunit|].
  unfold generateTFIDFVector. intros Habs. unfold norm in Hunit.
  rewrite Habs, sumSquares_dot, Hzero, sqrt_0 in Hunit. lra.
Qed.

Lemma norm_unit_dot v : norm v = 1 -> 0 < dot v v.
Proof.
  unfold norm. rewrite sumSquares_dot. intros H.
  pose proof (dot_self_nonneg v) as Hge.
  destruct (Req_dec (dot v v) 0) as [E|E]; [|lra].
  rewrite E, sqrt_0 in H. lra.
Qed.

(** C1, amended. For every text and every generator, the vector of
    [generateTFIDFVector] is the zero vector or has L2 norm 1 (in real
    arithmetic); it is the zero vector when the text has no token; and when
    the text has a token and no stored weight is negative, it has norm 1
    and is not the zero vector, whether the tokens are keys of the table
    or not: a token without a stored weight counts with weight 1. *)
Theorem generateTFIDFVector_zero_or_unit (g : EmbeddingGenerator)
    (t : string) :
  let v := generateTFIDFVector g t in
  (v = zeroVector (vectorSize g) \/ norm v = 1) /\
  (tokenize t = [] -> v = zeroVector (vectorSize g)) /\
  (tokenize t <> [] -> (0 < vectorSize g)%Z ->
   allValues (fun x => 0 <= x) (idfScores g) ->
   norm v = 1 /\ v <> zeroVector (vectorSize g)).
Proof.
  intros v. unfold v, generateTFIDFVector.
  set (acc := accumulate g (calculateTermFrequency (tokenize t))
                (zeroVector (vectorSize g))).
  assert (Hlen : length acc = Z.to_nat (vectorSize g)).
  { unfold acc. rewrite accumulate_length. apply repeat_length. }
  assert (Hzero : dot (zeroVector (vectorSize g)) (zeroVector (vectorSize g))
                  = 0) by apply dot_repeat_zero.
  split; [|split].
  - destruct (normalizeVector_zero_or_unit acc) as [[Hz Hsame]|Hunit].
    + left. rewrite Hsame, (isZeroVector_repeat acc Hz), Hlen. reflexivity.
    + now right.
  - intros Hempty. unfold acc. rewrite Hempty. simpl.
    unfold normalizeVector.
    rewrite sumSquares_dot, Hzero, sqrt_0.
    destruct (Req_EM_T 0 0); [reflexivity | congruence].
  - intros Htokens Hvs Hidf.
    destruct (generateTFIDFVector_tokens g t Htokens Hvs Hidf)
      as (_ & Hunit & Hnz).
    split; assumption.
Qed.

Lemma tokenize_cat : tokenize "cat" = ["cat"].
Proof. vm_compute. reflexivity. Qed.

Lemma tokenize_empty : tokenize "" = [].
Proof. vm_compute. reflexivity. Qed.

(** C1, as stated, fails on "cat" with an empty table: no token of the
    text is recognized, and the vector is not the zero vector. *)
Lemma generateTFIDFVector_unrecognized_not_zero :
  allUnrecognized newEmbeddingGenerator "cat" /\
  generateTFIDFVector newEmbeddingGenerator "cat" <> zeroVector 384.
Proof.
  split.
  - intros word _. reflexivity.
  - apply (generateTFIDFVector_tokens newEmbeddingGenerator "cat").
    + rewrite tokenize_cat. discriminate.
    + reflexivity.
    + constructor.
Qed.

(** The theorem at the empty text and at "cat". *)
Lemma generateTFIDFVector_zero_or_unit_witness :
  generateTFIDFVector newEmbeddingGenerator "" = zeroVector 384 /\
  norm (generateTFIDFVector newEmbeddingGenerator "cat") = 1.
Proof.
  destruct (generateTFIDFVector_zero_or_unit newEmbeddingGenerator "")
    as (_ & Hempty & _).
  destruct (generateTFIDFVector_zero_or_unit newEmbeddingGenerator "cat")
    as (_ & _ & Hunit).
  split.
  - apply Hempty. apply tokenize_empty.
  - apply Hunit.
    + rewrite tokenize_cat. discriminate.
    + reflexivity.
    + constructor.
Defined.

End VectorProofs.

Module ExpBounds.
Import FixedPoint.
Local Open Scope R_scope.

Lemma squareDown_nonneg z : (0 <= z)%Z -> (0 <= squareDown z)%Z.
Proof. intros H. unfold squareDown, scale. apply Z.div_pos; nia. Qed.

Lemma squareDown_below z y :
  (0 <= z)%Z -> IZR z / IZR scale <= y ->
  IZR (squareDown z) / IZR scale <= y * y.
Proof.
  intros Hz Hy.
  assert (Hs : 0 < IZR scale) by (apply IZR_lt; reflexivity).
  assert (Hfloor : IZR (squareDown z) * IZR scale <= IZR z * IZR z).
  { rewrite <- !mult_IZR. apply IZR_le. unfold squareDown.
    rewrite Z.mul_comm. apply Z.mul_div_le. reflexivity. }
  assert (Hz' : 0 <= IZR z / IZR scale).
  { apply Rmult_le_pos; [now apply IZR_le | left; now apply Rinv_0_lt_compat]. }
  apply Rle_trans with (IZR z / IZR scale * (IZR z / IZR scale)).
  - apply Rmult_le_reg_r with (IZR scale * IZR scale); [nra|].
    replace (IZR (squareDown z) / IZR scale * (IZR scale * IZR scale))
      with (IZR (squareDown z) * IZR scale) by (field; lra).
    replace (IZR z / IZR scale * (IZR z / IZR scale)
             * (IZR scale * IZR scale))
      with (IZR z * IZR z) by (field; lra).
    exact Hfloor.
  - apply Rmult_le_compat; assumption.
Qed.

Lemma squarings_below k : forall z y,
  (0 <= z)%Z -> IZR z / IZR scale <= exp y ->
  IZR (squarings k z) / IZR scale <= exp (y * 2 ^ k).
Proof.
  induction k as [|k IH]; intros z y Hz Hy; simpl.
  - now rewrite Rmult_1_r.
  - replace (y * (2 * 2 ^ k)) with ((y + y) * 2 ^ k) by ring.
    apply IH; [now apply squareDown_nonneg|].
    rewrite exp_plus. now apply squareDown_below.
Qed.

(** [exp x] is above the fixed-point value of [(1 + x/2^k)^(2^k)]. *)
Lemma exp_above k z x c :
  (0 <= z)%Z -> IZR z / IZR scale <= 1 + x / 2 ^ k ->
  c < IZR (squarings k z) / IZR scale ->
  c < exp x.
Proof.
  intros Hz Hbase Hc.
  apply Rlt_le_trans with (1 := Hc).
  replace x with (x / 2 ^ k * 2 ^ k) at 1.
  - apply squarings_below; [assumption|].
    apply Rle_trans with (1 := Hbase). apply exp_ineq1_le.
  - field. apply pow_nonzero. lra.
Qed.

Lemma exp_4055 : 3 / 2 < exp 0.4055.
Proof.
  apply (exp_above 12 18448570283358450352%Z).
  - lia.
  - unfold scale. simpl. lra.
  - assert (H : (3 * scale < 2 * squarings 12 18448570283358450352)%Z)
      by (vm_compute; reflexivity).
    apply IZR_lt in H. rewrite !mult_IZR in H.
    assert (Hs : 0 < IZR scale) by (apply IZR_lt; reflexivity).
    apply Rmult_lt_reg_r with (IZR scale); [assumption|].
    unfold Rdiv at 2. rewrite Rmult_assoc, Rinv_l by lra. lra.
Qed.

Lemma exp_m4045 : 2 / 3 < exp (-0.4045).
Proof.
  apply (exp_above 12 18444922367660280250%Z).
  - lia.
  - unfold scale. simpl. lra.
  - assert (H : (2 * scale < 3 * squarings 12 18444922367660280250)%Z)
      by (vm_compute; reflexivity).
    apply IZR_lt in H. rewrite !mult_IZR in H.
    assert (Hs : 0 < IZR scale) by (apply IZR_lt; reflexivity).
    apply Rmult_lt_reg_r with (IZR scale); [assumption|].
    unfold Rdiv at 2. rewrite Rmult_assoc, Rinv_l by lra. lra.
Qed.

(** [ln (2/3) + 1] is 0.595 to three decimals. *)
Lemma ln_two_thirds : 0.5945 < ln (2 / 3) + 1 < 0.5955.
Proof.
  split.
  - assert (H : - 0.4055 < ln (2 / 3)).
    { rewrite <- (ln_exp (- 0.4055)).
      apply ln_increasing; [apply exp_pos|].
      replace (- 0.4055) with (- (4055 / 10000)) by lra.
      rewrite exp_Ropp.
      replace (4055 / 10000) with 0.4055 by lra.
      pose proof exp_4055 as H. pose proof (exp_pos 0.4055) as Hp.
      apply Rmult_lt_reg_r with (exp 0.4055); [assumption|].
      rewrite Rinv_l by lra. lra. }
    lra.
  - assert (H : ln (2 / 3) < - 0.4045).
    { rewrite <- (ln_exp (- 0.4045)).
      apply ln_increasing; [lra | apply exp_m4045]. }
    lra.
Qed.

End ExpBounds.

Module VocabularyProofs.
Import Embeddings VectorSpec VocabularySpec VectorProofs.
Local Open Scope R_scope.

Lemma existsb_eqb_In t l : existsb (String.eqb t) l = true <-> In t l.
Proof.
  rewrite existsb_exists. split.
  - intros (x & Hin & Heq). apply String.eqb_eq in Heq. now subst.
  - intros Hin. exists t. split; [assumption | apply String.eqb_refl].
Qed.

Lemma setOf_fold l : forall acc,
  NoDup acc ->
  let s := fold_left
             (fun acc w => if existsb (String.eqb w) acc then acc
                           else acc ++ [w]) l acc in
  NoDup s /\ forall w, In w s <-> In w acc \/ In w l.
Proof.
  induction l as [|x l IH]; intros acc Hnd; simpl.
  - split; [assumption|]. intros w. tauto.
  - destruct (existsb (String.eqb x) acc) eqn:E.
    + destruct (IH acc Hnd) as [H1 H2]. split; [assumption|].
      intros w. rewrite H2. apply existsb_eqb_In in E.
      split; [tauto|]. intros [H|[H|H]]; subst; auto.
    + assert (Hx : ~ In x acc).
      { intros Hin. apply existsb_eqb_In in Hin. congruence. }
      destruct (IH (acc ++ [x])) as [H1 H2].
      { apply NoDup_app; [assumption | repeat constructor; intros [] |].
        intros a Ha [Hb|[]]. now subst. }
      split; [assumption|].
      intros w. rewrite H2, in_app_iff. simpl. tauto.
Qed.

Lemma setOf_NoDup l : NoDup (setOf l).
Proof. apply (setOf_fold l []). constructor. Qed.

Lemma setOf_In l w : In w (setOf l) <-> In w l.
Proof.
  destruct (setOf_fold l [] (NoDup_nil _)) as [_ H].
  unfold setOf. rewrite H. simpl. tauto.
Qed.

Lemma existsb_setOf t l :
  existsb (String.eqb t) (setOf l) = existsb (String.eqb t) l.
Proof.
  apply eq_true_iff_eq. rewrite !existsb_eqb_In. apply setOf_In.
Qed.

(** One chunk's words bump the counter of each of them once. *)
Lemma bump_words ws : NoDup ws -> forall (m : JsMap.t R) t,
  JsMap.get
    (fold_left
       (fun documentFreq word =>
          JsMap.set documentFreq word
            (orDefault (JsMap.get documentFreq word) 0 + 1)) ws m) t
  = if existsb (String.eqb t) ws
    then Some (orDefault (JsMap.get m t) 0 + 1)
    else JsMap.get m t.
Proof.
  induction 1 as [|w ws Hw Hnd IH]; intros m t; simpl.
  - reflexivity.
  - rewrite IH, get_set.
    destruct (String.eqb_spec t w) as [E|E].
    + subst w. simpl.
      destruct (existsb (String.eqb t) ws) eqn:Hex; [|reflexivity].
      apply existsb_eqb_In in Hex. contradiction.
    + simpl. reflexivity.
Qed.

Lemma orDefault_countValue n : orDefault (countValue n) 0 = INR n.
Proof.
  destruct n as [|n]; [reflexivity|].
  unfold countValue. apply orDefault_zero.
Qed.

Lemma documentFrequency_fold term : forall cs (m : JsMap.t R) k,
  JsMap.get m term = countValue k ->
  JsMap.get
    (fold_left
       (fun documentFreq chunk =>
          fold_left
            (fun documentFreq word =>
               JsMap.set documentFreq word
                 (orDefault (JsMap.get documentFreq word) 0 + 1))
            (setOf (tokenize (text chunk))) documentFreq)
       cs m) term
  = countValue (k + df term cs)%nat.
Proof.
  induction cs as [|c chunks IH]; intros m k Hm; simpl.
  - now rewrite Nat.add_0_r.
  - assert (Hdf : df term (c :: chunks) =
              ((if containsTerm term c then 1 else 0) + df term chunks)%nat).
    { unfold df. simpl. now destruct (containsTerm term c). }
    rewrite Hdf.
    rewrite (IH _ (if containsTerm term c then S k else k)).
    + destruct (containsTerm term c); f_equal; lia.
    + rewrite bump_words by apply setOf_NoDup.
      rewrite existsb_setOf. fold (containsTerm term c).
      destruct (containsTerm term c); [|assumption].
      rewrite Hm, orDefault_countValue. simpl countValue.
      f_equal. destruct k; simpl; lra.
Qed.

Lemma documentFrequency_df term chunks :
  JsMap.get (documentFrequency chunks) term = countValue (df term chunks).
Proof.
  unfold documentFrequency.
  now rewrite (documentFrequency_fold term chunks JsMap.empty 0).
Qed.

(** *** Keys are unique *)

Lemma set_keys {V} (m : JsMap.t V) k v :
  map fst (JsMap.set m k v) =
  if existsb (String.eqb k) (map fst m) then map fst m
  else map fst m ++ [k].
Proof.
  induction m as [|[k0 v0] m IH]; simpl; [reflexivity|].
  destruct (String.eqb k k0); simpl; [reflexivity|].
  rewrite IH. now destruct (existsb (String.eqb k) (map fst m)).
Qed.

Lemma set_NoDup {V} (m : JsMap.t V) k v :
  NoDup (map fst m) -> NoDup (map fst (JsMap.set m k v)).
Proof.
  intros Hnd. rewrite set_keys.
  destruct (existsb (String.eqb k) (map fst m)) eqn:E; [assumption|].
  apply NoDup_app; [assumption | repeat constructor; intros [] |].
  intros a Ha [Hb|[]]. subst a.
  apply existsb_eqb_In in Ha. congruence.
Qed.

Lemma fold_set_NoDup {A V} (key : JsMap.t V -> A -> string)
    (val : JsMap.t V -> A -> V) : forall l m,
  NoDup (map fst m) ->
  NoDup (map fst
           (fold_left (fun m a => JsMap.set m (key m a) (val m a)) l m)).
Proof.
  induction l as [|a l IH]; intros m Hm; simpl; [assumption|].
  apply IH. now apply set_NoDup.
Qed.

Lemma documentFrequency_NoDup chunks :
  NoDup (map fst (documentFrequency chunks)).
Proof.
  unfold documentFrequency.
  assert (H : forall cs (m : JsMap.t R), NoDup (map fst m) ->
    NoDup (map fst
      (fold_left
         (fun documentFreq chunk =>
            fold_left
              (fun documentFreq word =>
                 JsMap.set documentFreq word
                   (orDefault (JsMap.get documentFreq word) 0 + 1))
              (setOf (tokenize (text chunk))) documentFreq) cs m))).
  { induction cs as [|c cs IH]; intros m Hm; simpl; [assumption|].
    apply IH.
    apply (fold_set_NoDup (fun _ w => w)
             (fun m w => orDefault (JsMap.get m w) 0 + 1)). exact Hm. }
  apply H. constructor.
Qed.

Lemma get_not_key {V} (m : JsMap.t V) k :
  ~ In k (map fst m) -> JsMap.get m k = None.
Proof.
  induction m as [|[k0 v0] m IH]; simpl; intros Hk; [reflexivity|].
  destruct (String.eqb_spec k k0) as [E|E]; [subst; tauto|].
  apply IH. tauto.
Qed.

(** The second pass: every key of [documentFreq] receives its weight. *)
Lemma idf_fold (f : R -> R) : forall (entries idf : JsMap.t R) t,
  NoDup (map fst entries) ->
  JsMap.get
    (fold_left (fun idf entry => JsMap.set idf (fst entry) (f (snd entry)))
       entries idf) t
  = match JsMap.get entries t with
    | Some freq => Some (f freq)
    | None => JsMap.get idf t
    end.
Proof.
  induction entries as [|[k v] entries IH]; intros idf t Hnd; simpl.
  - reflexivity.
  - inversion Hnd as [|? ? Hk Hnd']; subst.
    rewrite IH by assumption.
    destruct (String.eqb_spec t k) as [E|E].
    + subst k. rewrite (get_not_key entries t Hk), get_set.
      now rewrite String.eqb_refl.
    + destruct (JsMap.get entries t); [reflexivity|].
      rewrite get_set. destruct (String.eqb_spec t k); [contradiction|].
      reflexivity.
Qed.

Lemma df_le term chunks : (df term chunks <= length chunks)%nat.
Proof. unfold df. apply filter_length_le. Qed.

Lemma idfOf_positive (N n : nat) :
  (1 <= N)%nat -> (n <= N)%nat -> 0 < idfOf N (INR n).
Proof.
  intros HN Hn. unfold idfOf.
  assert (HNr : 1 <= INR N) by (change 1 with (INR 1); now apply le_INR).
  assert (Hnr : 0 <= INR n <= INR N)
    by (split; [apply pos_INR | now apply le_INR]).
  assert (Hhalf : / 2 <= INR N / (INR n + 1)).
  { apply Rmult_le_reg_r with (2 * (INR n + 1)); [lra|].
    replace (/ 2 * (2 * (INR n + 1))) with (INR n + 1) by field.
    replace (INR N / (INR n + 1) * (2 * (INR n + 1))) with (2 * INR N)
      by (field; lra).
    lra. }
  assert (Hexp : exp (Ropp 1) < / 2).
  { rewrite exp_Ropp. apply Rinv_lt_contravar.
    - pose proof (exp_pos 1). lra.
    - pose proof (exp_ineq1 1 ltac:(lra)). lra. }
  assert (Hln : Ropp 1 < ln (INR N / (INR n + 1))).
  { rewrite <- (ln_exp (Ropp 1)).
    apply ln_increasing; [apply exp_pos | lra]. }
  lra.
Qed.

Lemma In_get {V} (m : JsMap.t V) k v :
  NoDup (map fst m) -> In (k, v) m -> JsMap.get m k = Some v.
Proof.
  induction m as [|[k0 v0] m IH]; simpl; intros Hnd Hin; [tauto|].
  inversion Hnd as [|? ? Hk Hnd']; subst.
  destruct Hin as [E|Hin].
  - injection E as -> ->. now rewrite String.eqb_refl.
  - destruct (String.eqb_spec k k0) as [E|E].
    + subst k0. exfalso. apply Hk.
      apply in_map_iff. exists (k, v). auto.
    + auto.
Qed.

(** Every weight the builder writes is positive. *)
Lemma buildVocabulary_positive g cs :
  allValues (fun x => 0 < x) (idfScores g) ->
  allValues (fun x => 0 < x) (idfScores (buildVocabulary g cs)).
Proof.
  intros Hg. unfold buildVocabulary. simpl idfScores.
  assert (Hentries : Forall (fun entry => 0 < idfOf (length cs) (snd entry))
                       (documentFrequency cs)).
  { apply Forall_forall. intros [k v] Hin. simpl.
    pose proof (In_get _ _ _ (documentFrequency_NoDup cs) Hin) as Hget.
    rewrite documentFrequency_df in Hget.
    pose proof (df_le k cs) as Hle.
    destruct (df k cs) as [|n] eqn:E; [discriminate|].
    change (countValue (S n)) with (Some (INR (S n))) in Hget.
    assert (Hv : v = INR (S n)) by congruence.
    rewrite Hv. apply idfOf_positive; lia. }
  revert Hentries Hg. generalize (idfScores g) as idf.
  induction (documentFrequency cs) as [|e entries IH]; intros idf He Hidf;
    simpl; [assumption|].
  inversion He; subst. apply IH; [assumption|].
  now apply set_allValues.
Qed.

Lemma buildVocabulary_get g cs term :
  (0 < df term cs)%nat ->
  JsMap.get (idfScores (buildVocabulary g cs)) term
  = Some (ln (INR (length cs) / (INR (df term cs) + 1)) + 1).
Proof.
  intros Hpos. unfold buildVocabulary. simpl idfScores.
  rewrite (idf_fold (idfOf (length cs))) by apply documentFrequency_NoDup.
  rewrite documentFrequency_df.
  destruct (df term cs) as [|n]; [lia|]. reflexivity.
Qed.

(** C6. For every batch of N chunks and every term, [documentFreq] holds
    for the term the number of chunks whose tokens contain it, which is at
    most N; a term met in some chunk gets the weight
    [ln (N / (df + 1)) + 1], and this is positive, as it is for every
    df <= N with N >= 1. On the corpus "cat dog", "dog bird": df(cat) = 1,
    df(dog) = 2, df(bird) = 1, idf(cat) = idf(bird) = 1 and
    idf(dog) = ln(2/3) + 1, which is 0.595 to three decimals. *)
Theorem buildVocabulary_df_idf :
  (forall (g : EmbeddingGenerator) (cs : list Chunk) (term : string),
     let N := length cs in
     let n := df term cs in
     JsMap.get (documentFrequency cs) term = countValue n /\
     (n <= N)%nat /\
     ((0 < n)%nat ->
      JsMap.get (idfScores (buildVocabulary g cs)) term
        = Some (ln (INR N / (INR n + 1)) + 1) /\
      0 < ln (INR N / (INR n + 1)) + 1)) /\
  (forall N n : nat, (1 <= N)%nat -> (n <= N)%nat ->
     0 < ln (INR N / (INR n + 1)) + 1) /\
  (let g := buildVocabulary newEmbeddingGenerator exampleCorpus in
   df "cat" exampleCorpus = 1%nat /\
   df "dog" exampleCorpus = 2%nat /\
   df "bird" exampleCorpus = 1%nat /\
   JsMap.get (idfScores g) "cat" = Some 1 /\
   JsMap.get (idfScores g) "bird" = Some 1 /\
   JsMap.get (idfScores g) "dog" = Some (ln (2 / 3) + 1) /\
   0.5945 < ln (2 / 3) + 1 < 0.5955).
Proof.
  split; [|split].
  - intros g cs term N n.
    split; [apply documentFrequency_df|].
    split; [apply df_le|].
    intros Hpos. split; [now apply buildVocabulary_get|].
    apply (idfOf_positive N n); [|apply df_le].
    pose proof (df_le term cs). unfold N, n in *. lia.
  - intros N n HN Hn. now apply (idfOf_positive N n).
  - assert (Hcat : df "cat" exampleCorpus = 1%nat) by (vm_compute; reflexivity).
    assert (Hdog : df "dog" exampleCorpus = 2%nat) by (vm_compute; reflexivity).
    assert (Hbird : df "bird" exampleCorpus = 1%nat)
      by (vm_compute; reflexivity).
    cbv zeta.
    rewrite !buildVocabulary_get by (rewrite ?Hcat, ?Hdog, ?Hbird; lia).
    rewrite Hcat, Hdog, Hbird.
    change (length exampleCorpus) with 2%nat.
    replace (INR 2 / (INR 1 + 1)) with 1 by (simpl; field).
    replace (INR 2 / (INR 2 + 1)) with (2 / 3) by (simpl; field).
    rewrite ln_1, Rplus_0_l.
    repeat split; try reflexivity; apply ExpBounds.ln_two_thirds.
Qed.

(** The theorem at the term "dog" of the example corpus. *)
Lemma buildVocabulary_df_idf_witness :
  (0 < df "dog" exampleCorpus)%nat /\
  JsMap.get (idfScores (buildVocabulary newEmbeddingGenerator exampleCorpus))
    "dog"
  = Some (ln (INR (length exampleCorpus)
              / (INR (df "dog" exampleCorpus) + 1)) + 1).
Proof.
  assert (Hdog : (0 < df "dog" exampleCorpus)%nat) by (vm_compute; lia).
  split; [exact Hdog|].
  apply (proj1 buildVocabulary_df_idf newEmbeddingGenerator exampleCorpus
           "dog"). exact Hdog.
Defined.

End VocabularyProofs.

Module SortProofs.
Import JsArray VectorProofs RankSpec.

Lemma insertSorted_In {A} (after : A -> A -> bool) x y : forall l,
  In y (insertSorted after x l) <-> y = x \/ In y l.
Proof.
  induction l as [|z l IH]; simpl.
  - intuition auto.
  - destruct (after x z); simpl; rewrite ?IH; intuition auto.
Qed.

Lemma sortWith_In {A} (after : A -> A -> bool) y : forall l,
  In y (sortWith after l) <-> In y l.
Proof.
  induction l as [|x l IH]; simpl; [tauto|].
  rewrite insertSorted_In, IH. intuition auto.
Qed.

Lemma insertSorted_length {A} (after : A -> A -> bool) x : forall l,
  length (insertSorted after x l) = S (length l).
Proof.
  induction l as [|z l IH]; simpl; [reflexivity|].
  destruct (after x z); simpl; now rewrite ?IH.
Qed.

Lemma sortWith_length {A} (after : A -> A -> bool) : forall l,
  length (sortWith after l) = length l.
Proof.
  induction l as [|x l IH]; simpl; [reflexivity|].
  now rewrite insertSorted_length, IH.
Qed.

Lemma Rltb_true x y : Rltb x y = true <-> (x < y)%R.
Proof. unfold Rltb. destruct (Rlt_dec x y); split; auto; discriminate. Qed.

Lemma Rleb_true x y : Rleb x y = true <-> (x <= y)%R.
Proof. unfold Rleb. destruct (Rle_dec x y); split; auto; discriminate. Qed.

Section Descending.

Context {A : Type}.
Variable key : A -> R.

Lemma insertSorted_descending x : forall l,
  descending key l -> descending key (insertSorted (byKeyDescending key) x l).
Proof.
  unfold descending.
  induction l as [|y l IH]; simpl; intros Hl.
  - repeat constructor.
  - inversion Hl as [|? ? Hl' Hy]; subst.
    unfold byKeyDescending at 1.
    destruct (Rltb 0 (key y - key x)) eqn:E.
    + apply Rltb_true in E. constructor; [now apply IH|].
      apply Forall_forall. intros z Hz.
      apply insertSorted_In in Hz as [->|Hz]; [lra|].
      exact (proj1 (Forall_forall _ l) Hy z Hz).
    + assert (Hxy : (key y <= key x)%R).
      { destruct (Rle_dec (key y) (key x)); [assumption|].
        assert (Hlt : (0 < key y - key x)%R) by lra.
        apply Rltb_true in Hlt. congruence. }
      constructor; [assumption|].
      constructor; [assumption|].
      eapply Forall_impl; [|exact Hy]. simpl. intros z Hz. lra.
Qed.

Lemma sortWith_descending : forall l,
  descending key (sortWith (byKeyDescending key) l).
Proof.
  induction l as [|x l IH]; simpl; [constructor|].
  now apply insertSorted_descending.
Qed.

Lemma firstn_descending n : forall l,
  descending key l -> descending key (firstn n l).
Proof.
  unfold descending.
  induction n as [|n IH]; intros [|x l] Hl; simpl; try constructor.
  - inversion Hl; subst. now apply IH.
  - inversion Hl as [|? ? _ Hx]; subst.
    apply Forall_forall. intros z Hz.
    apply (proj1 (Forall_forall _ l) Hx).
    rewrite <- (firstn_skipn n l). apply in_or_app. now left.
Qed.

End Descending.

Lemma In_firstn {A} (x : A) n l : In x (firstn n l) -> In x l.
Proof.
  intros H. rewrite <- (firstn_skipn n l). apply in_or_app. now left.
Qed.

Lemma map_descending {A B} (f : A -> B) (keyA : A -> R) (keyB : B -> R) l :
  (forall a, keyB (f a) = keyA a) ->
  descending keyA l -> descending keyB (map f l).
Proof.
  unfold descending. intros Hkey.
  induction 1 as [|x l Hl IH Hx]; simpl; constructor; auto.
  apply Forall_forall. intros z Hz.
  apply in_map_iff in Hz as (a & <- & Ha). rewrite !Hkey.
  exact (proj1 (Forall_forall _ l) Hx a Ha).
Qed.

End SortProofs.

Module SearchProofs.
Import JsString JsArray Search VectorSpec RankSpec VectorProofs SortProofs.
Local Open Scope R_scope.

Lemma rank_firstn vs sims topK :
  rank vs sims topK =
  firstn topK
    (sortWith (byKeyDescending scoredSimilarity)
       (filter (fun r => Rleb (similarityThreshold vs) (scoredSimilarity r))
          sims)).
Proof. unfold rank. apply slice_prefix. Qed.

Lemma rank_length vs sims topK : (length (rank vs sims topK) <= topK)%nat.
Proof. rewrite rank_firstn. apply firstn_le_length. Qed.

Lemma rank_In vs sims topK r :
  In r (rank vs sims topK) ->
  In r sims /\ similarityThreshold vs <= scoredSimilarity r.
Proof.
  rewrite rank_firstn. intros H.
  apply In_firstn, sortWith_In, filter_In in H as [Hin Hle].
  split; [assumption | now apply Rleb_true].
Qed.

Lemma rank_descending vs sims topK :
  descending scoredSimilarity (rank vs sims topK).
Proof.
  rewrite rank_firstn. apply firstn_descending, sortWith_descending.
Qed.

Lemma rank_complete vs sims topK r :
  In r sims -> similarityThreshold vs <= scoredSimilarity r ->
  (length (filter (fun r => Rleb (similarityThreshold vs)
                              (scoredSimilarity r)) sims) <= topK)%nat ->
  In r (rank vs sims topK).
Proof.
  intros Hin Hle Hlen. rewrite rank_firstn.
  rewrite firstn_all2 by (now rewrite sortWith_length).
  apply sortWith_In, filter_In. split; [assumption | now apply Rleb_true].
Qed.

Lemma filter_map_length {A B} (f : A -> B) (p : B -> bool) l :
  length (filter p (map f l)) = length (filter (fun a => p (f a)) l).
Proof.
  induction l as [|a l IH]; simpl; [reflexivity|].
  destruct (p (f a)); simpl; now rewrite IH.
Qed.

(** What a successful search returns. *)
Lemma searchSimilarChunks_results vs g db q docId topK resp :
  searchSimilarChunks vs g db q docId topK = Ok resp ->
  results resp =
  map (enhance db)
    (rank vs (map (scoreChunk (generateTFIDFVector g q))
                (selectChunks db docId)) topK).
Proof.
  unfold searchSimilarChunks, generateEmbedding.
  destruct (isInitialized g); simpl; [|discriminate].
  destruct (Nat.eqb_spec (length (selectChunks db docId)) 0) as [E|E];
    intros H; injection H as <-; simpl; [|reflexivity].
  apply length_zero_iff_nil in E. rewrite E. simpl.
  rewrite rank_firstn. simpl. now destruct topK.
Qed.

(** C3. A search that returns, with the threshold 0.3 of the constructor,
    returns at most [topK] results, each with a similarity of at least 0.3,
    sorted non-increasing by similarity; each result carries the similarity
    of its chunk to the query vector, so that a candidate at 0.29 is in no
    result, and a candidate at 0.30 is in the results whenever the
    candidates at or above the threshold are at most [topK]. *)
Theorem searchSimilarChunks_threshold_sorted_topK
    (g : EmbeddingGenerator) (db : DocumentDatabase) (q : string)
    (docId : option Z) (topK : nat) (resp : SearchResponse) :
  searchSimilarChunks newVectorSearch g db q docId topK = Ok resp ->
  let sim c := cosineSimilarity (generateTFIDFVector g q) (embeddingOf c) in
  (length (results resp) <= topK)%nat /\
  Forall (fun r => 0.3 <= similarity r) (results resp) /\
  descending similarity (results resp) /\
  (forall r, In r (results resp) ->
     In (chunk r) (selectChunks db docId) /\ similarity r = sim (chunk r)) /\
  (forall c, In c (selectChunks db docId) -> sim c = 0.29 ->
     ~ exists r, In r (results resp) /\ chunk r = c) /\
  (forall c, In c (selectChunks db docId) -> sim c = 0.30 ->
     (length (filter (fun c' => Rleb 0.3 (sim c')) (selectChunks db docId))
      <= topK)%nat ->
     exists r, In r (results resp) /\ chunk r = c /\ similarity r = 0.30).
Proof.
  intros Hok sim.
  pose proof (searchSimilarChunks_results _ _ _ _ _ _ _ Hok) as Hres.
  set (sims := map (scoreChunk (generateTFIDFVector g q))
                 (selectChunks db docId)) in Hres.
  assert (Hin : forall r, In r (results resp) ->
            In (chunk r) (selectChunks db docId) /\
            similarity r = sim (chunk r) /\ 0.3 <= similarity r).
  { intros r Hr. rewrite Hres in Hr.
    apply in_map_iff in Hr as (s & <- & Hs).
    apply rank_In in Hs as [Hs Hle]. simpl in Hle.
    apply in_map_iff in Hs as (c & <- & Hc). simpl. auto. }
  split; [|split; [|split; [|split; [|split]]]].
  - rewrite Hres, length_map. apply rank_length.
  - apply Forall_forall. intros r Hr. now apply Hin.
  - rewrite Hres.
    apply (map_descending (enhance db) scoredSimilarity similarity);
      [reflexivity | apply rank_descending].
  - intros r Hr. destruct (Hin r Hr) as (H1 & H2 & _). now split.
  - intros c Hc Hsim (r & Hr & Hrc).
    destruct (Hin r Hr) as (_ & H2 & H3). subst c. lra.
  - intros c Hc Hsim Hlen.
    exists (enhance db (scoreChunk (generateTFIDFVector g q) c)).
    split; [|split; [reflexivity | exact Hsim]].
    rewrite Hres. apply in_map. apply rank_complete.
    + unfold sims. now apply in_map.
    + simpl. fold (sim c). lra.
    + unfold sims. rewrite filter_map_length. exact Hlen.
Qed.

(** *** Hybrid search *)

Lemma mapM_Ok {A B} (f : A -> result B) : forall l ys,
  mapM f l = Ok ys -> Forall2 (fun x y => f x = Ok y) l ys.
Proof.
  induction l as [|x l IH]; simpl; intros ys H.
  - injection H as <-. constructor.
  - destruct (f x) as [y|] eqn:Hx; simpl in H; [|discriminate].
    destruct (mapM f l) as [ys'|]; simpl in H; [|discriminate].
    injection H as <-. constructor; auto.
Qed.

Lemma Forall2_In_r {A B} (P : A -> B -> Prop) l ys y :
  Forall2 P l ys -> In y ys -> exists x, In x l /\ P x y.
Proof.
  induction 1 as [|x y' l ys Hp Hrest IH]; simpl; intros Hin; [tauto|].
  destruct Hin as [->|Hin].
  - exists x. auto.
  - destruct (IH Hin) as (x' & Hx' & Hp'). exists x'. auto.
Qed.

Section HybridProofs.

Variable regExpCount : string -> string -> option nat.

Lemma keywordScore_fold lowered : forall keywords acc score,
  fold_left
    (fun acc keyword =>
       bind acc (fun score =>
         match regExpCount keyword lowered with
         | Some matches => Ok (score + INR matches * 0.1)
         | None => Throw "Invalid regular expression"
         end))
    keywords acc = Ok score ->
  exists start counts,
    acc = Ok start /\
    Forall2 (fun keyword n => regExpCount keyword lowered = Some n)
      keywords counts /\
    score = start + weightedSum counts.
Proof.
  induction keywords as [|k keywords IH]; simpl; intros acc score H.
  - exists score, []. repeat split; [assumption | constructor |].
    unfold weightedSum. simpl. lra.
  - apply IH in H as (start' & counts & Hacc & Hall & Hsum).
    destruct acc as [start|]; simpl in Hacc; [|discriminate].
    destruct (regExpCount k lowered) as [n|] eqn:Hk; [|discriminate].
    injection Hacc as <-.
    exists start, (n :: counts). repeat split; [constructor; auto|].
    unfold weightedSum in *. simpl. lra.
Qed.

Lemma keywordScoreOf_sum keywords lowered score :
  keywordScoreOf regExpCount keywords lowered = Ok score ->
  exists counts,
    Forall2 (fun keyword n => regExpCount keyword lowered = Some n)
      keywords counts /\
    score = weightedSum counts.
Proof.
  intros H. apply keywordScore_fold in H as (start & counts & Hs & Hall & ->).
  injection Hs as <-. exists counts. split; [assumption | lra].
Qed.

Lemma weightedSum_nonneg counts : 0 <= weightedSum counts.
Proof.
  induction counts as [|n counts IH]; unfold weightedSum in *; simpl.
  - lra.
  - pose proof (pos_INR n). lra.
Qed.


End HybridProofs.

End SearchProofs.

Module BatchProofs.
Import Embeddings VectorSpec.

(** The vector the loop pushes for one chunk. *)
Lemma batch_step g' embeddings (c : Chunk) :
  tryCatch
    (bind (generateEmbedding g' (text c))
          (fun embedding => Ok (embeddings ++ [embedding])))
    (fun _ => embeddings ++ [zeroVector (vectorSize g')])
  = embeddings ++
    [tryCatch (generateEmbedding g' (text c))
       (fun _ => zeroVector (vectorSize g'))].
Proof. now destruct (generateEmbedding g' (text c)). Qed.

Lemma batch_loop g' : forall (cs : list Chunk) embeddings,
  fold_left
    (fun embeddings chunk =>
       tryCatch
         (bind (generateEmbedding g' (text chunk))
               (fun embedding => Ok (embeddings ++ [embedding])))
         (fun _ => embeddings ++ [zeroVector (vectorSize g')]))
    cs embeddings
  = embeddings ++
    map (fun c => tryCatch (generateEmbedding g' (text c))
                    (fun _ => zeroVector (vectorSize g'))) cs.
Proof.
  induction cs as [|c cs IH]; intros embeddings; simpl.
  - now rewrite app_nil_r.
  - rewrite batch_step, IH, <- app_assoc. reflexivity.
Qed.

Lemma generateEmbeddingsBatch_map g cs :
  generateEmbeddingsBatch g cs =
  Ok (buildVocabulary g cs,
      map (fun c => tryCatch (generateEmbedding (buildVocabulary g cs) (text c))
                      (fun _ => zeroVector (vectorSize g))) cs).
Proof.
  unfold generateEmbeddingsBatch. f_equal. f_equal.
  now rewrite batch_loop.
Qed.


(** C9. On a generator that is not initialized, every
    [generateEmbedding] of the batch throws, the throw is caught inside the
    loop, and [generateEmbeddingsBatch] returns one zero vector of
    dimension 384 per chunk. *)
Theorem generateEmbeddingsBatch_before_initialize
    (g : EmbeddingGenerator) (cs : list Chunk) :
  isInitialized g = false -> vectorSize g = 384%Z ->
  (forall c, In c cs ->
     generateEmbedding (buildVocabulary g cs) (text c)
     = Throw "Embedding system not initialized") /\
  generateEmbeddingsBatch g cs =
    Ok (buildVocabulary g cs, map (fun _ => repeat 0%R 384) cs).
Proof.
  intros Hinit Hsize.
  assert (Hthrow : forall t, generateEmbedding (buildVocabulary g cs) t
                    = Throw "Embedding system not initialized").
  { intros t. unfold generateEmbedding. simpl. now rewrite Hinit. }
  split; [intros c _; apply Hthrow|].
  rewrite generateEmbeddingsBatch_map. f_equal. f_equal.
  apply map_ext. intros c. rewrite Hthrow. simpl. now rewrite Hsize.
Qed.

End BatchProofs.

Module ExampleProofs.
Import JsString JsArray Search VectorSpec RankSpec HybridExample.
Import VectorProofs VocabularyProofs SortProofs SearchProofs BatchProofs.
Local Open Scope R_scope.

Lemma searchSimilarChunks_initialized vs g db q docId topK :
  isInitialized g = true ->
  exists resp,
    searchSimilarChunks vs g db q docId topK = Ok resp /\
    results resp =
      map (enhance db)
        (rank vs (map (scoreChunk (generateTFIDFVector g q))
                    (selectChunks db docId)) topK).
Proof.
  intros Hinit.
  assert (H : exists resp, searchSimilarChunks vs g db q docId topK = Ok resp).
  { unfold searchSimilarChunks, generateEmbedding. rewrite Hinit. simpl.
    destruct (Nat.eqb (length (selectChunks db docId)) 0); eexists;
      reflexivity. }
  destruct H as [resp H]. exists resp. split; [assumption|].
  now apply searchSimilarChunks_results.
Qed.

Lemma rank_single vs s topK :
  similarityThreshold vs <= scoredSimilarity s -> (0 < topK)%nat ->
  rank vs [s] topK = [s].
Proof.
  intros Hle Hk. rewrite rank_firstn. simpl.
  apply Rleb_true in Hle. rewrite Hle. simpl.
  destruct topK; [lia|]. simpl. now destruct topK.
Qed.

Lemma trained_initialized : isInitialized trained = true.
Proof. reflexivity. Qed.

Lemma trained_idf_nonneg : allValues (fun x => 0 <= x) (idfScores trained).
Proof.
  assert (H : allValues (fun x => 0 < x) (idfScores trained)).
  { apply buildVocabulary_positive. constructor. }
  eapply Forall_impl; [|exact H]. simpl. intros e He. lra.
Qed.

Lemma tokenize_node : tokenize "node.js" = tokenize "node js".
Proof. vm_compute. reflexivity. Qed.

Lemma query_vector :
  generateTFIDFVector trained "node.js" = generateTFIDFVector trained "node js".
Proof. unfold generateTFIDFVector. now rewrite tokenize_node. Qed.

Lemma stored_similarity :
  cosineSimilarity (generateTFIDFVector trained "node.js")
    (embeddingOf stored) = 1.
Proof.
  rewrite query_vector. simpl embeddingOf.
  apply cosineSimilarity_self, norm_unit_dot.
  apply (generateTFIDFVector_tokens trained "node js").
  - vm_compute. discriminate.
  - reflexivity.
  - apply trained_idf_nonneg.
Qed.

Lemma select_stored : selectChunks exampleDb (Some 1%Z) = [stored].
Proof. reflexivity. Qed.

Lemma search_stored topK :
  (0 < topK)%nat ->
  exists resp,
    searchSimilarChunks newVectorSearch trained exampleDb "node.js"
      (Some 1%Z) topK = Ok resp /\
    results resp =
      [enhance exampleDb
         (scoreChunk (generateTFIDFVector trained "node.js") stored)].
Proof.
  intros Hk.
  destruct (searchSimilarChunks_initialized newVectorSearch trained exampleDb
              "node.js" (Some 1%Z) topK trained_initialized)
    as (resp & Hok & Hres).
  exists resp. split; [assumption|].
  rewrite Hres, select_stored. cbn [map].
  rewrite rank_single; [reflexivity | | assumption].
  cbn [scoreChunk scoredSimilarity]. rewrite stored_similarity. simpl. lra.
Qed.

Lemma keywords_node : queryKeywords "node.js" = ["node.js"].
Proof. vm_compute. reflexivity. Qed.

Lemma lowered_node : toLowerCase "node js" = "node js".
Proof. vm_compute. reflexivity. Qed.

Lemma pattern_node : JsRegExp.matchCount "node.js" "node js" = Some 1%nat.
Proof. vm_compute. reflexivity. Qed.

Lemma occurrences_node :
  JsRegExp.occurrences "node.js" "node js" = 0%nat.
Proof. vm_compute. reflexivity. Qed.

(** The query "node.js" over the stored chunk. *)
Lemma hybrid_stored :
  exists resp r,
    hybridSearch JsRegExp.matchCount newVectorSearch trained exampleDb
      "node.js" (Some 1%Z) 5 = Ok resp /\
    hybridResults resp = [r] /\
    chunk (base r) = stored /\
    keywordScore r = 0.1.
Proof.
  destruct (search_stored (5 * 2) ltac:(lia)) as (vr & Hok & Hres).
  set (x := enhance exampleDb
              (scoreChunk (generateTFIDFVector trained "node.js") stored))
    in Hres.
  assert (Hscore : keywordScoreOf JsRegExp.matchCount ["node.js"] "node js"
                   = Ok (0 + INR 1 * 0.1)).
  { unfold keywordScoreOf. cbn [fold_left bind]. now rewrite pattern_node. }
  assert (Hx : enhanceHybrid JsRegExp.matchCount ["node.js"] x
               = Ok {| base := x; keywordScore := 0 + INR 1 * 0.1;
                       combinedScore := similarity x + (0 + INR 1 * 0.1) |}).
  { unfold enhanceHybrid.
    change (text (chunk x)) with "node js".
    rewrite lowered_node, Hscore. reflexivity. }
  eexists. eexists. split; [|split; [|split]].
  - unfold hybridSearch. rewrite Hok. cbn [bind]. rewrite Hres, keywords_node.
    cbn [mapM]. rewrite Hx. cbn [bind]. reflexivity.
  - cbn [hybridResults sortWith insertSorted]. rewrite slice_prefix.
    reflexivity.
  - reflexivity.
  - simpl. lra.
Qed.

(** C10: the keyword "node.js" of the query is read as a pattern. The text
    "node js" does not contain "node.js", yet the pattern matches it once,
    and the chunk gets the keyword score 0.1. *)
Theorem hybridSearch_keyword_read_as_pattern :
  queryKeywords "node.js" = ["node.js"] /\
  JsRegExp.occurrences "node.js" (toLowerCase (text stored)) = 0%nat /\
  JsRegExp.matchCount "node.js" (toLowerCase (text stored)) = Some 1%nat /\
  exists resp r,
    hybridSearch JsRegExp.matchCount newVectorSearch trained exampleDb
      "node.js" (Some 1%Z) 5 = Ok resp /\
    hybridResults resp = [r] /\
    chunk (base r) = stored /\
    keywordScore r = 0.1.
Proof.
  change (text stored) with "node js". rewrite lowered_node.
  split; [apply keywords_node|].
  split; [apply occurrences_node|].
  split; [apply pattern_node|].
  apply hybrid_stored.
Qed.

(** The search theorem at the stored chunk. *)
Lemma searchSimilarChunks_threshold_sorted_topK_witness :
  exists resp,
    searchSimilarChunks newVectorSearch trained exampleDb "node.js"
      (Some 1%Z) 5 = Ok resp /\
    (length (results resp) <= 5)%nat /\
    Forall (fun r => 0.3 <= similarity r) (results resp) /\
    descending similarity (results resp).
Proof.
  destruct (search_stored 5 ltac:(lia)) as (resp & Hok & _).
  exists resp. split; [exact Hok|].
  destruct (searchSimilarChunks_threshold_sorted_topK trained exampleDb
              "node.js" (Some 1%Z) 5 resp Hok) as (H1 & H2 & H3 & _).
  split; [exact H1 | split; [exact H2 | exact H3]].
Defined.



(** The batch theorem on the generator as constructed. *)
Lemma generateEmbeddingsBatch_before_initialize_witness :
  generateEmbeddingsBatch newEmbeddingGenerator VocabularySpec.exampleCorpus
  = Ok (buildVocabulary newEmbeddingGenerator VocabularySpec.exampleCorpus,
        [repeat 0 384; repeat 0 384]).
Proof.
  apply (generateEmbeddingsBatch_before_initialize newEmbeddingGenerator
           VocabularySpec.exampleCorpus eq_refl eq_refl).
Defined.

End ExampleProofs.

Module TokenProofs.
Import JsString JsArray Embeddings VectorSpec TokenSpec.
Import VectorProofs VocabularyProofs SortProofs.

Lemma revOnto_allChars p s : forall acc,
  allChars p s = true -> allChars p acc = true ->
  allChars p (revOnto s acc) = true.
Proof.
  induction s as [|c s IH]; intros acc Hs Hacc; simpl in *; auto.
  apply andb_true_iff in Hs as [Hc Hs].
  apply IH; auto. simpl. now rewrite Hc, Hacc.
Qed.

(** The pieces of a split are made of the characters of the text that are
    not white space. *)
Lemma splitAux_allChars p s : forall cur inRun,
  allChars p cur = true ->
  allChars (fun c => isSpace c || p c) s = true ->
  Forall (fun w => allChars p w = true) (splitAux cur inRun s).
Proof.
  induction s as [|c s IH]; intros cur inRun Hcur Hs; simpl in *.
  - constructor; [|constructor]. now apply revOnto_allChars.
  - apply andb_true_iff in Hs as [Hc Hs].
    destruct (isSpace c) eqn:Hsp.
    + destruct inRun.
      * now apply IH.
      * constructor; [now apply revOnto_allChars | now apply IH].
    + apply IH; auto. simpl in *. now rewrite Hc, Hcur.
Qed.

Lemma cleaned_char c :
  let x := lowerChar c in
  let y := if isWord x || isSpace x then x else " "%char in
  isSpace y || isTokenChar y = true.
Proof.
  destruct c as [[] [] [] [] [] [] [] []]; vm_compute; reflexivity.
Qed.

Lemma cleaned_allChars t :
  allChars (fun c => isSpace c || isTokenChar c)
    (mapChars (fun c => if isWord c || isSpace c then c else " "%char)
       (toLowerCase t)) = true.
Proof.
  unfold toLowerCase. induction t as [|c t IH]; simpl; [reflexivity|].
  rewrite IH, andb_true_r. apply cleaned_char.
Qed.

Lemma tokenize_firstn t :
  tokenize t =
  firstn 100
    (filter (fun word => (jsLength word >? 2)%Z && (jsLength word <? 20)%Z)
       (splitSpaces
          (mapChars (fun c => if isWord c || isSpace c then c else " "%char)
             (toLowerCase t)))).
Proof. unfold tokenize. apply (slice_prefix _ 100). Qed.

(** X1. [tokenize] returns at most 100 tokens; each has between 3 and 19
    characters, all of them lower-case letters, digits or underscores. *)
Theorem tokenize_shape (t : string) :
  (length (tokenize t) <= 100)%nat /\
  Forall (fun w => (3 <= String.length w <= 19)%nat /\
                   allChars isTokenChar w = true) (tokenize t).
Proof.
  rewrite tokenize_firstn. split; [apply firstn_le_length|].
  apply Forall_forall. intros w Hw.
  apply In_firstn, filter_In in Hw as [Hin Hlen].
  apply andb_true_iff in Hlen as [H2 H20]. unfold jsLength in *.
  split; [lia|].
  pose proof (splitAux_allChars isTokenChar _ EmptyString false eq_refl
                (cleaned_allChars t)) as Hall.
  exact (proj1 (Forall_forall _ _) Hall w Hin).
Qed.

Lemma lowerChar_idem c : lowerChar (lowerChar c) = lowerChar c.
Proof.
  destruct c as [[] [] [] [] [] [] [] []]; vm_compute; reflexivity.
Qed.

Lemma toLowerCase_idem t : toLowerCase (toLowerCase t) = toLowerCase t.
Proof.
  unfold toLowerCase. induction t as [|c t IH]; simpl; [reflexivity|].
  now rewrite lowerChar_idem, IH.
Qed.

Lemma tokenize_lowered t : tokenize (toLowerCase t) = tokenize t.
Proof. unfold tokenize. now rewrite toLowerCase_idem. Qed.

(** X2. The encoder does not see the case of the letters: a text and
    its lower-case form have the same tokens, the same vector, and the
    same result of [generateEmbedding]. *)
Theorem encoder_ignores_case (g : EmbeddingGenerator) (t : string) :
  tokenize (toLowerCase t) = tokenize t /\
  generateTFIDFVector g (toLowerCase t) = generateTFIDFVector g t /\
  generateEmbedding g (toLowerCase t) = generateEmbedding g t.
Proof.
  split; [apply tokenize_lowered|].
  assert (H : generateTFIDFVector g (toLowerCase t) = generateTFIDFVector g t).
  { unfold generateTFIDFVector. now rewrite tokenize_lowered. }
  split; [exact H|]. unfold generateEmbedding. now rewrite H.
Qed.

(** *** Term frequencies *)

Local Open Scope R_scope.

Lemma occurrencesOf_cons w x l :
  occurrencesOf w (x :: l) =
  ((if String.eqb w x then 1 else 0) + occurrencesOf w l)%nat.
Proof. unfold occurrencesOf. simpl. now destruct (String.eqb w x). Qed.

Lemma counted_get : forall (words : list string) (m : JsMap.t R) w,
  JsMap.get
    (fold_left
       (fun termFreq word =>
          JsMap.set termFreq word
            (orDefault (JsMap.get termFreq word) 0 + 1)) words m) w
  = match occurrencesOf w words with
    | O => JsMap.get m w
    | S _ => Some (orDefault (JsMap.get m w) 0 + INR (occurrencesOf w words))
    end.
Proof.
  induction words as [|x words IH]; intros m w; [reflexivity|].
  cbn [fold_left]. rewrite IH, occurrencesOf_cons, get_set.
  destruct (String.eqb_spec w x) as [E|E].
  - subst x. rewrite orDefault_zero.
    destruct (occurrencesOf w words) as [|n] eqn:Hn.
    + cbn [Nat.add INR]. reflexivity.
    + cbn [Nat.add]. f_equal. rewrite (S_INR (S n)). lra.
  - reflexivity.
Qed.

Lemma set_skip {V} (l1 : JsMap.t V) k v v' l2 :
  ~ In k (map fst l1) ->
  JsMap.set (l1 ++ (k, v) :: l2) k v' = l1 ++ (k, v') :: l2.
Proof.
  induction l1 as [|[k0 v0] l1 IH]; simpl; intros Hk.
  - now rewrite String.eqb_refl.
  - destruct (String.eqb_spec k k0) as [E|E]; [subst; tauto|].
    rewrite IH by tauto. reflexivity.
Qed.

(** Rewriting each value of a map while visiting it. *)
Lemma fold_over_itself (f : R -> R) : forall (entries pre : JsMap.t R),
  NoDup (map fst (pre ++ entries)) ->
  fold_left (fun m entry => JsMap.set m (fst entry) (f (snd entry))) entries
    (map (fun e => (fst e, f (snd e))) pre ++ entries)
  = map (fun e => (fst e, f (snd e))) (pre ++ entries).
Proof.
  induction entries as [|[k v] entries IH]; intros pre Hnd.
  - simpl. now rewrite !app_nil_r.
  - cbn [fold_left fst snd]. rewrite set_skip.
    + replace (pre ++ (k, v) :: entries) with ((pre ++ [(k, v)]) ++ entries)
        in * by (now rewrite <- app_assoc).
      rewrite <- (IH (pre ++ [(k, v)]) Hnd).
      rewrite map_app. simpl. now rewrite <- app_assoc.
    + rewrite map_map. simpl. rewrite map_app in Hnd.
      apply NoDup_remove_2 in Hnd. intros Hin. apply Hnd.
      apply in_or_app. now left.
Qed.

Lemma get_map_values (f : R -> R) (m : JsMap.t R) w :
  JsMap.get (map (fun e => (fst e, f (snd e))) m) w =
  match JsMap.get m w with
  | Some x => Some (f x)
  | None => None
  end.
Proof.
  induction m as [|[k v] m IH]; simpl; [reflexivity|].
  now destruct (String.eqb w k).
Qed.

Lemma counted_NoDup words :
  NoDup (map fst
    (fold_left
       (fun termFreq word =>
          JsMap.set termFreq word
            (orDefault (JsMap.get termFreq word) 0 + 1)) words JsMap.empty)).
Proof.
  apply (fold_set_NoDup (fun _ w => w)
           (fun m w => orDefault (JsMap.get m w) 0 + 1)).
  constructor.
Qed.

Lemma calculateTermFrequency_map words :
  words <> [] ->
  calculateTermFrequency words =
  map (fun e => (fst e, snd e / INR (length words)))
    (fold_left
       (fun termFreq word =>
          JsMap.set termFreq word
            (orDefault (JsMap.get termFreq word) 0 + 1)) words JsMap.empty).
Proof.
  intros Hne. unfold calculateTermFrequency.
  destruct (Nat.eqb_spec (length words) 0) as [E|E].
  { destruct words; [congruence | discriminate]. }
  apply (fold_over_itself (fun x => x / INR (length words)) _ []).
  apply counted_NoDup.
Qed.

(** X3. [calculateTermFrequency] holds, for each word of the list, the
    number of its occurrences divided by the number of words, and nothing
    for a word that is not in the list. *)
Theorem calculateTermFrequency_get (words : list string) (w : string) :
  JsMap.get (calculateTermFrequency words) w =
  match occurrencesOf w words with
  | O => None
  | S _ => Some (INR (occurrencesOf w words) / INR (length words))
  end.
Proof.
  destruct words as [|x words].
  - reflexivity.
  - rewrite calculateTermFrequency_map by discriminate.
    rewrite (get_map_values (fun r => r / INR (length (x :: words)))).
    rewrite counted_get.
    destruct (occurrencesOf w (x :: words)); [reflexivity|].
    simpl JsMap.get. simpl orDefault. now rewrite Rplus_0_l.
Qed.

Lemma set_sum (m : JsMap.t R) k v :
  sumValues (JsMap.set m k v) =
  sumValues m - orDefault (JsMap.get m k) 0 + v.
Proof.
  induction m as [|[k0 v0] m IH]; simpl.
  - lra.
  - destruct (String.eqb k k0); simpl.
    + destruct (Req_EM_T v0 0); lra.
    + rewrite IH. lra.
Qed.

Lemma counted_sum : forall (words : list string) (m : JsMap.t R),
  sumValues
    (fold_left
       (fun termFreq word =>
          JsMap.set termFreq word
            (orDefault (JsMap.get termFreq word) 0 + 1)) words m)
  = sumValues m + INR (length words).
Proof.
  induction words as [|x words IH]; intros m.
  - simpl. lra.
  - cbn [fold_left]. rewrite IH, set_sum.
    change (length (x :: words)) with (S (length words)).
    rewrite S_INR. lra.
Qed.

Lemma sumValues_map k (m : JsMap.t R) :
  sumValues (map (fun e => (fst e, snd e / k)) m) = sumValues m / k.
Proof.
  induction m as [|e m IH]; simpl.
  - unfold Rdiv. lra.
  - rewrite IH. unfold Rdiv. lra.
Qed.

(** X4. For a list with at least one word, the frequencies that
    [calculateTermFrequency] holds add up to 1. *)
Theorem calculateTermFrequency_sum (words : list string) :
  words <> [] -> sumValues (calculateTermFrequency words) = 1.
Proof.
  intros Hne. rewrite calculateTermFrequency_map by assumption.
  rewrite (sumValues_map (INR (length words))), counted_sum.
  simpl sumValues.
  assert (0 < INR (length words)).
  { apply lt_0_INR. destruct words; [congruence | simpl; lia]. }
  field. lra.
Qed.

Lemma calculateTermFrequency_sum_witness :
  sumValues (calculateTermFrequency ["cat"; "dog"; "cat"]) = 1.
Proof. apply calculateTermFrequency_sum. discriminate. Defined.

End TokenProofs.

Module EncoderProofs.
Import JsString JsArray Embeddings VectorSpec VocabularySpec GeneratorSpec.
Import VectorProofs VocabularyProofs.
Local Open Scope R_scope.

(** X5. [normalizeVector] is idempotent (in real arithmetic): a vector
    that was normalized is left as it is. *)
Theorem normalizeVector_idempotent (v : list R) :
  normalizeVector (normalizeVector v) = normalizeVector v.
Proof.
  destruct (normalizeVector_zero_or_unit v) as [[_ Hsame]|Hunit].
  - now rewrite Hsame, Hsame.
  - unfold norm in Hunit.
    unfold normalizeVector at 1. rewrite Hunit.
    destruct (Req_EM_T 1 0) as [H|_]; [lra|].
    rewrite <- (map_id (normalizeVector v)) at 2.
    apply map_ext. intros x. field.
Qed.

Lemma clamp01_range x : 0 <= clamp01 x <= 1.
Proof.
  unfold clamp01. split.
  - apply Rmax_l.
  - apply Rmax_lub; [lra | apply Rmin_l].
Qed.

Lemma dot_nil_r a : dot a [] = 0.
Proof. now destruct a. Qed.

Lemma cosineSimilarity_comm a b :
  cosineSimilarity a b = cosineSimilarity b a.
Proof.
  rewrite !cosineSimilarity_closed. cbv zeta.
  rewrite (common_comm b a).
  set (a' := firstn (common a b) a). set (b' := firstn (common a b) b).
  rewrite (dot_comm b' a'), (Rmult_comm (sqrt (dot b' b'))).
  destruct (Req_EM_T (dot a' a') 0), (Req_EM_T (dot b' b') 0); reflexivity.
Qed.

(** X6. [cosineSimilarity] lies between 0 and 1; it is 0 when one of the
    vectors is empty, and when one of two vectors of the same length is
    all zeros. *)
Theorem cosineSimilarity_range_and_zero :
  (forall a b, 0 <= cosineSimilarity a b <= 1) /\
  (forall a, cosineSimilarity a [] = 0 /\ cosineSimilarity [] a = 0) /\
  (forall a b, length a = length b -> isZeroVector b ->
     cosineSimilarity a b = 0 /\ cosineSimilarity b a = 0).
Proof.
  assert (Hrange : forall a b, 0 <= cosineSimilarity a b <= 1).
  { intros a b. rewrite cosineSimilarity_closed. cbv zeta.
    destruct (Req_EM_T _ 0); [lra|].
    destruct (Req_EM_T _ 0); [lra|]. apply clamp01_range. }
  assert (Hnil : forall a, cosineSimilarity a [] = 0).
  { intros a. rewrite cosineSimilarity_closed. cbv zeta.
    unfold common. simpl length. rewrite Nat.min_0_r. simpl.
    destruct (Req_EM_T 0 0); [reflexivity | lra]. }
  assert (Hzero : forall a b, length a = length b -> isZeroVector b ->
                    cosineSimilarity a b = 0).
  { intros a b Hlen Hb. rewrite cosineSimilarity_closed. cbv zeta.
    unfold common. rewrite Hlen, Nat.min_id, firstn_all.
    rewrite (isZeroVector_repeat b Hb), dot_repeat_zero.
    destruct (Req_EM_T _ 0); [reflexivity|].
    destruct (Req_EM_T 0 0); [reflexivity | lra]. }
  split; [exact Hrange|]. split.
  - intros a. split; [apply Hnil|].
    rewrite cosineSimilarity_comm. apply Hnil.
  - intros a b Hlen Hb. split; [now apply Hzero|].
    rewrite cosineSimilarity_comm. now apply Hzero.
Qed.

Lemma cosineSimilarity_range_and_zero_witness :
  cosineSimilarity [1; 2] [0; 0] = 0.
Proof.
  apply (proj2 (proj2 cosineSimilarity_range_and_zero) [1; 2] [0; 0]).
  - reflexivity.
  - repeat constructor.
Defined.

(** *** Components of an embedding *)

Lemma In_square_le x v : In x v -> x * x <= dot v v.
Proof.
  induction v as [|y v IH]; simpl; intros Hin; [tauto|].
  pose proof (dot_self_nonneg v).
  destruct Hin as [->|Hin]; [lra|]. specialize (IH Hin). nra.
Qed.

Lemma accumulated_nonNegative g t :
  (0 < vectorSize g)%Z ->
  allValues (fun x => 0 <= x) (idfScores g) ->
  nonNegative
    (accumulate g (calculateTermFrequency (tokenize t))
       (zeroVector (vectorSize g))).
Proof.
  intros Hvs Hidf.
  destruct (tokenize t) as [|w ws] eqn:Ht.
  - simpl. apply zeroVector_nonNegative.
  - assert (Hne : w :: ws <> []) by discriminate.
    destruct (calculateTermFrequency_positive _ Hne) as [_ Hpos].
    now destruct (accumulate_grows g Hvs Hidf _ _ Hpos
                    (zeroVector_nonNegative _) (repeat_length _ _)).
Qed.

Lemma normalizeVector_nonNegative v :
  nonNegative v -> Forall (fun x => 0 <= x <= 1) (normalizeVector v).
Proof.
  intros Hv.
  destruct (normalizeVector_zero_or_unit v) as [[Hz Hsame]|Hunit].
  - rewrite Hsame. eapply Forall_impl; [|exact Hz].
    simpl. intros x ->. lra.
  - pose proof (norm_unit_dot _ Hunit) as Hpos.
    unfold norm in Hunit. rewrite sumSquares_dot in Hunit.
    assert (Hone : dot (normalizeVector v) (normalizeVector v) = 1).
    { rewrite <- (sqrt_sqrt _ (dot_self_nonneg (normalizeVector v))).
      rewrite Hunit. lra. }
    assert (Hnn : nonNegative (normalizeVector v)).
    { unfold normalizeVector.
      destruct (Req_EM_T (sqrt (sumSquares v)) 0); [assumption|].
      pose proof (sqrt_pos (sumSquares v)).
      apply Forall_forall. intros y Hy.
      apply in_map_iff in Hy as (x & <- & Hx).
      pose proof (proj1 (Forall_forall _ v) Hv x Hx) as Hx0. simpl in Hx0.
      apply Rmult_le_pos; [assumption|].
      left. apply Rinv_0_lt_compat. lra. }
    apply Forall_forall. intros x Hx.
    pose proof (proj1 (Forall_forall _ _) Hnn x Hx) as Hx0. simpl in Hx0.
    pose proof (In_square_le x _ Hx). split; [assumption | nra].
Qed.

Lemma embedding_in_unit_interval g t :
  (0 < vectorSize g)%Z ->
  allValues (fun x => 0 <= x) (idfScores g) ->
  Forall (fun x => 0 <= x <= 1) (generateTFIDFVector g t).
Proof.
  intros Hvs Hidf. unfold generateTFIDFVector.
  now apply normalizeVector_nonNegative, accumulated_nonNegative.
Qed.

(** X7. With a positive vector size and no negative weight in the table,
    the vector of [generateTFIDFVector] has [vectorSize] components, each
    between 0 and 1. *)
Theorem generateTFIDFVector_components (g : EmbeddingGenerator)
    (t : string) :
  (0 < vectorSize g)%Z ->
  allValues (fun x => 0 <= x) (idfScores g) ->
  length (generateTFIDFVector g t) = Z.to_nat (vectorSize g) /\
  Forall (fun x => 0 <= x <= 1) (generateTFIDFVector g t).
Proof.
  intros Hvs Hidf. split; [apply generateTFIDFVector_length|].
  now apply embedding_in_unit_interval.
Qed.

Lemma generateTFIDFVector_components_witness :
  length (generateTFIDFVector newEmbeddingGenerator "cat dog") = 384%nat /\
  Forall (fun x => 0 <= x <= 1)
    (generateTFIDFVector newEmbeddingGenerator "cat dog").
Proof.
  apply (generateTFIDFVector_components newEmbeddingGenerator "cat dog").
  - reflexivity.
  - constructor.
Defined.

(** *** Similarity of two embeddings *)

Lemma dot_schwarz_unit u : forall v,
  0 <= dot u u + dot v v - 2 * dot u v.
Proof.
  induction u as [|x u IH]; intros [|y v]; simpl.
  - lra.
  - pose proof (dot_self_nonneg v). nra.
  - pose proof (dot_self_nonneg u). nra.
  - specialize (IH v).
    assert (0 <= (x - y) * (x - y)) by apply Rle_0_sqr.
    lra.
Qed.

Lemma dot_nonNegative u : forall v,
  Forall (fun x => 0 <= x) u -> Forall (fun x => 0 <= x) v -> 0 <= dot u v.
Proof.
  induction u as [|x u IH]; intros [|y v] Hu Hv; simpl; try lra.
  inversion Hu as [|? ? Hx Hu']; inversion Hv as [|? ? Hy Hv']; subst.
  specialize (IH v Hu' Hv'). nra.
Qed.

Lemma unit_dot v : norm v = 1 -> dot v v = 1.
Proof.
  intros H. unfold norm in H. rewrite sumSquares_dot in H.
  rewrite <- (sqrt_sqrt _ (dot_self_nonneg v)). rewrite H. lra.
Qed.

(** X8. For two texts that each have a token, encoded by the same
    generator (positive vector size, no negative weight), the similarity of
    the two vectors is their dot product: the clamp and the division by the
    norms change nothing. *)
Theorem cosineSimilarity_of_embeddings (g : EmbeddingGenerator)
    (t1 t2 : string) :
  (0 < vectorSize g)%Z ->
  allValues (fun x => 0 <= x) (idfScores g) ->
  tokenize t1 <> [] -> tokenize t2 <> [] ->
  cosineSimilarity (generateTFIDFVector g t1) (generateTFIDFVector g t2)
  = dot (generateTFIDFVector g t1) (generateTFIDFVector g t2).
Proof.
  intros Hvs Hidf H1 H2.
  destruct (generateTFIDFVector_tokens g t1 H1 Hvs Hidf) as (_ & Hu1 & _).
  destruct (generateTFIDFVector_tokens g t2 H2 Hvs Hidf) as (_ & Hu2 & _).
  set (u := generateTFIDFVector g t1) in *.
  set (v := generateTFIDFVector g t2) in *.
  assert (Hlen : length u = length v).
  { unfold u, v. now rewrite !generateTFIDFVector_length. }
  pose proof (unit_dot u Hu1) as Du. pose proof (unit_dot v Hu2) as Dv.
  assert (Hge : 0 <= dot u v).
  { apply dot_nonNegative.
    - eapply Forall_impl; [|apply (embedding_in_unit_interval g t1 Hvs Hidf)].
      simpl. intros; lra.
    - eapply Forall_impl; [|apply (embedding_in_unit_interval g t2 Hvs Hidf)].
      simpl. intros; lra. }
  pose proof (dot_schwarz_unit u v) as Hle.
  rewrite cosineSimilarity_closed. cbv zeta.
  unfold common. rewrite Hlen, Nat.min_id, firstn_all.
  rewrite <- Hlen, firstn_all. rewrite Du, Dv.
  destruct (Req_EM_T 1 0); [lra|].
  rewrite sqrt_1. unfold clamp01.
  replace (dot u v / (1 * 1)) with (dot u v) by field.
  rewrite Rmin_right by lra. apply Rmax_right. lra.
Qed.

Lemma cosineSimilarity_of_embeddings_witness :
  cosineSimilarity (generateTFIDFVector newEmbeddingGenerator "cat")
    (generateTFIDFVector newEmbeddingGenerator "dog")
  = dot (generateTFIDFVector newEmbeddingGenerator "cat")
      (generateTFIDFVector newEmbeddingGenerator "dog").
Proof.
  apply cosineSimilarity_of_embeddings.
  - reflexivity.
  - constructor.
  - vm_compute. discriminate.
  - vm_compute. discriminate.
Defined.

(** *** The states of the generator *)

Lemma initialize_positive g :
  allValues (fun x => 0 < x) (idfScores g) ->
  allValues (fun x => 0 < x) (idfScores (initialize g)).
Proof.
  intros H. unfold initialize. destruct (isInitialized g); [assumption|].
  constructor.
Qed.

(** X9. In every state a generator reaches from its constructor by
    [initialize] and [buildVocabulary], the vector size is 384, every
    stored weight is positive, every vector has 384 components, and the
    vector of a text with a token has norm 1. *)
Theorem reachable_invariant (g : EmbeddingGenerator) :
  reachable g ->
  vectorSize g = 384%Z /\
  allValues (fun x => 0 < x) (idfScores g) /\
  (forall t, length (generateTFIDFVector g t) = 384%nat) /\
  (forall t, tokenize t <> [] -> norm (generateTFIDFVector g t) = 1).
Proof.
  intros Hreach.
  assert (Hinv : vectorSize g = 384%Z /\
                 allValues (fun x => 0 < x) (idfScores g)).
  { induction Hreach as [|g Hg [IH1 IH2]|g cs Hg [IH1 IH2]].
    - split; [reflexivity | constructor].
    - split; [|now apply initialize_positive].
      unfold initialize. now destruct (isInitialized g).
    - split; [exact IH1 | now apply buildVocabulary_positive]. }
  destruct Hinv as [Hsize Hpos].
  split; [exact Hsize|]. split; [exact Hpos|]. split.
  - intros t. rewrite generateTFIDFVector_length, Hsize. reflexivity.
  - intros t Ht.
    apply (generateTFIDFVector_tokens g t Ht).
    + rewrite Hsize. reflexivity.
    + eapply Forall_impl; [|exact Hpos]. simpl. intros e He. lra.
Qed.

Lemma reachable_invariant_witness :
  vectorSize (buildVocabulary (initialize newEmbeddingGenerator) exampleCorpus)
  = 384%Z.
Proof.
  apply (reachable_invariant
           (buildVocabulary (initialize newEmbeddingGenerator) exampleCorpus)).
  apply reachable_batch, reachable_initialize, reachable_new.
Defined.

(** X10. [buildVocabulary] does not reset the table: a term that no chunk
    of the batch contains keeps the weight, or the absence of a weight, it
    had before. *)
Theorem buildVocabulary_keeps_absent_terms (g : EmbeddingGenerator)
    (cs : list Chunk) (term : string) :
  df term cs = 0%nat ->
  JsMap.get (idfScores (buildVocabulary g cs)) term
  = JsMap.get (idfScores g) term.
Proof.
  intros Hdf. unfold buildVocabulary. simpl idfScores.
  rewrite (idf_fold (idfOf (length cs))) by apply documentFrequency_NoDup.
  now rewrite documentFrequency_df, Hdf.
Qed.

Lemma buildVocabulary_keeps_absent_terms_witness :
  JsMap.get
    (idfScores
       (buildVocabulary
          (buildVocabulary newEmbeddingGenerator exampleCorpus) [])) "cat"
  = JsMap.get (idfScores (buildVocabulary newEmbeddingGenerator exampleCorpus))
      "cat".
Proof.
  apply buildVocabulary_keeps_absent_terms. reflexivity.
Defined.

End EncoderProofs.

Module RankingProofs.
Import JsString JsArray Search VectorSpec RankSpec TieSpec.
Import VectorProofs SortProofs SearchProofs.
Local Open Scope R_scope.

Lemma Reqb_true x y : Reqb x y = true <-> x = y.
Proof. unfold Reqb. destruct (Req_EM_T x y); split; auto; discriminate. Qed.

(** *** Stability of the sort *)

Lemma insertSorted_filter {A} (after : A -> A -> bool) (p : A -> bool) x :
  (forall y, after x y = true -> p x = true -> p y = false) ->
  forall l, filter p (insertSorted after x l) = filter p (x :: l).
Proof.
  intros Hp. induction l as [|y l IH]; [reflexivity|].
  cbn [insertSorted]. destruct (after x y) eqn:E; [|reflexivity].
  cbn [filter] in *. rewrite IH.
  destruct (p x) eqn:Hx; [|reflexivity].
  now rewrite (Hp y E eq_refl).
Qed.

Lemma sortWith_stable {A} (key : A -> R) (k : R) : forall l,
  filter (fun x => Reqb (key x) k) (sortWith (byKeyDescending key) l)
  = filter (fun x => Reqb (key x) k) l.
Proof.
  induction l as [|x l IH]; [reflexivity|].
  cbn [sortWith]. rewrite insertSorted_filter.
  - cbn [filter]. now rewrite IH.
  - intros y Hafter Hx. apply Reqb_true in Hx.
    unfold byKeyDescending in Hafter. apply Rltb_true in Hafter.
    destruct (Reqb (key y) k) eqn:Hy; [|reflexivity].
    apply Reqb_true in Hy. lra.
Qed.

Lemma filter_firstn_prefix {A} (p : A -> bool) n : forall l,
  exists m, filter p (firstn n l) = firstn m (filter p l).
Proof.
  induction n as [|n IH]; intros l.
  - exists 0%nat. reflexivity.
  - destruct l as [|x l]; [exists 0%nat; reflexivity|].
    destruct (IH l) as [m Hm]. cbn [firstn filter].
    destruct (p x).
    + exists (S m). cbn [firstn]. now rewrite Hm.
    + exists m. exact Hm.
Qed.

Lemma filter_map_comm {A B} (f : A -> B) (p : B -> bool) l :
  filter p (map f l) = map f (filter (fun a => p (f a)) l).
Proof.
  induction l as [|a l IH]; simpl; [reflexivity|].
  destruct (p (f a)); simpl; now rewrite IH.
Qed.

Lemma filter_filter_comm {A} (p q : A -> bool) l :
  filter p (filter q l) = filter q (filter p l).
Proof.
  induction l as [|a l IH]; simpl; [reflexivity|].
  destruct (p a) eqn:Hp, (q a) eqn:Hq; simpl; rewrite ?Hp, ?Hq, IH;
    reflexivity.
Qed.

Lemma filter_all_or_none {A} (p q : A -> bool) l :
  (forall a b, p a = true -> p b = true -> q a = q b) ->
  filter q (filter p l) = filter p l \/ filter q (filter p l) = [].
Proof.
  intros Hpq. induction l as [|a l IH]; simpl; [now left|].
  destruct (p a) eqn:Hp; [|exact IH]. simpl.
  destruct (q a) eqn:Hq.
  - left. f_equal.
    clear IH. induction l as [|b l IH]; simpl; [reflexivity|].
    destruct (p b) eqn:Hb; [|exact IH]. simpl.
    rewrite <- (Hpq a b Hp Hb), Hq. now rewrite IH.
  - right.
    clear IH. induction l as [|b l IH]; simpl; [reflexivity|].
    destruct (p b) eqn:Hb; [|exact IH]. simpl.
    now rewrite <- (Hpq a b Hp Hb), Hq.
Qed.

(** X11. The sort of [searchSimilarChunks] is stable: for every value of
    the similarity, the returned chunks with that similarity are a prefix
    of the candidates with that similarity, in the order of the
    candidates. *)
Theorem searchSimilarChunks_ties_in_candidate_order
    (vs : VectorSearch) (g : EmbeddingGenerator) (db : DocumentDatabase)
    (q : string) (docId : option Z) (topK : nat) (resp : SearchResponse)
    (s : R) :
  searchSimilarChunks vs g db q docId topK = Ok resp ->
  let sim c := cosineSimilarity (generateTFIDFVector g q) (embeddingOf c) in
  exists n,
    map chunk (filter (fun r => Reqb (similarity r) s) (results resp))
    = firstn n (filter (fun c => Reqb (sim c) s) (selectChunks db docId)).
Proof.
  intros Hok sim.
  rewrite (searchSimilarChunks_results _ _ _ _ _ _ _ Hok), rank_firstn.
  set (cands := selectChunks db docId).
  set (sims := map (scoreChunk (generateTFIDFVector g q)) cands).
  set (passing := filter (fun r => Rleb (similarityThreshold vs)
                                     (scoredSimilarity r)) sims).
  rewrite (filter_map_comm (enhance db)). cbn [enhance similarity].
  rewrite map_map. cbn [enhance chunk].
  destruct (filter_firstn_prefix (fun a => Reqb (scoredSimilarity a) s) topK
              (sortWith (byKeyDescending scoredSimilarity) passing))
    as [m Hm].
  rewrite Hm, sortWith_stable.
  unfold passing. rewrite filter_filter_comm.
  destruct (filter_all_or_none (fun a => Reqb (scoredSimilarity a) s)
              (fun r => Rleb (similarityThreshold vs) (scoredSimilarity r))
              sims) as [Hall|Hnone].
  { intros a b Ha Hb. apply Reqb_true in Ha, Hb. now rewrite Ha, Hb. }
  - rewrite Hall. exists m. unfold sims.
    rewrite (filter_map_comm (scoreChunk (generateTFIDFVector g q))).
    rewrite firstn_map, map_map. cbn [scoreChunk scoredChunk scoredSimilarity].
    now rewrite map_id.
  - rewrite Hnone. exists 0%nat. now destruct m.
Qed.

(** *** Scope of a search *)

Lemma selectChunks_stored db docId c :
  In c (selectChunks db docId) ->
  In c (storedChunks db) /\
  (forall id, docId = Some id -> id <> 0%Z -> documentId c = id).
Proof.
  unfold selectChunks, getAllChunks, getDocumentChunks.
  destruct docId as [id|].
  - destruct (Z.eqb_spec id 0) as [E|E]; intros Hin.
    + split; [assumption|]. intros id' Hid Hne. congruence.
    + apply sortWith_In, filter_In in Hin as [Hin Hdoc].
      split; [assumption|]. intros id' Hid _.
      injection Hid as <-. now apply Z.eqb_eq.
  - intros Hin. split; [assumption | discriminate].
Qed.

Lemma search_total vs g db q docId topK resp :
  searchSimilarChunks vs g db q docId topK = Ok resp ->
  totalSearched resp = length (selectChunks db docId).
Proof.
  unfold searchSimilarChunks, generateEmbedding.
  destruct (isInitialized g); simpl; [|discriminate].
  destruct (Nat.eqb_spec (length (selectChunks db docId)) 0) as [E|E];
    intros H; injection H as <-; simpl; congruence.
Qed.

Lemma search_result_origin vs g db q docId topK resp r :
  searchSimilarChunks vs g db q docId topK = Ok resp ->
  In r (results resp) ->
  exists c,
    In c (selectChunks db docId) /\
    r = enhance db (scoreChunk (generateTFIDFVector g q) c) /\
    similarityThreshold vs <= similarity r.
Proof.
  intros Hok Hr.
  rewrite (searchSimilarChunks_results _ _ _ _ _ _ _ Hok) in Hr.
  apply in_map_iff in Hr as (sc & <- & Hsc).
  apply rank_In in Hsc as [Hsc Hle].
  apply in_map_iff in Hsc as (c & <- & Hc).
  exists c. repeat split; assumption.
Qed.

(** X12. A search that returns has counted all the chunks in its scope
    in [totalSearched]; each result is a stored chunk, carries the document
    id of its chunk and a similarity at or above the threshold; and when a
    non-zero document id is given, each result is a chunk of that
    document. *)
Theorem searchSimilarChunks_scope
    (vs : VectorSearch) (g : EmbeddingGenerator) (db : DocumentDatabase)
    (q : string) (docId : option Z) (topK : nat) (resp : SearchResponse) :
  searchSimilarChunks vs g db q docId topK = Ok resp ->
  totalSearched resp = length (selectChunks db docId) /\
  forall r, In r (results resp) ->
    In (chunk r) (storedChunks db) /\
    resultDocumentId r = documentId (chunk r) /\
    similarityThreshold vs <= similarity r /\
    (forall id, docId = Some id -> id <> 0%Z -> documentId (chunk r) = id).
Proof.
  intros Hok. split; [now apply (search_total _ _ _ _ _ _ _ Hok)|].
  intros r Hr.
  destruct (search_result_origin _ _ _ _ _ _ _ _ Hok Hr)
    as (c & Hc & -> & Hle).
  destruct (selectChunks_stored db docId c Hc) as [Hst Hdoc].
  repeat split; assumption.
Qed.

Lemma searchSimilarChunks_total_on_initialized vs g db q docId topK :
  (isInitialized g = true <->
   exists resp, searchSimilarChunks vs g db q docId topK = Ok resp) /\
  (isInitialized g = false ->
   searchSimilarChunks vs g db q docId topK
     = Throw "Embedding model not initialized. Please wait for model to load.").
Proof.
  split; [split|].
  - intros Hinit. unfold searchSimilarChunks, generateEmbedding.
    rewrite Hinit. simpl.
    destruct (Nat.eqb (length (selectChunks db docId)) 0); eexists;
      reflexivity.
  - intros [resp Hok]. revert Hok. unfold searchSimilarChunks.
    destruct (isInitialized g); [reflexivity | discriminate].
  - intros Hinit. unfold searchSimilarChunks. now rewrite Hinit.
Qed.

(** X13. [searchSimilarChunks] returns exactly when the generator is
    initialized, whatever the store holds; on a generator that is not
    initialized it throws, and [hybridSearch] throws the same error. *)
Theorem searchSimilarChunks_throws_iff_uninitialized
    (regExpCount : string -> string -> option nat)
    (vs : VectorSearch) (g : EmbeddingGenerator) (db : DocumentDatabase)
    (q : string) (docId : option Z) (topK : nat) :
  (isInitialized g = true <->
   exists resp, searchSimilarChunks vs g db q docId topK = Ok resp) /\
  (isInitialized g = false ->
   searchSimilarChunks vs g db q docId topK
     = Throw "Embedding model not initialized. Please wait for model to load."
   /\
   hybridSearch regExpCount vs g db q docId topK
     = Throw "Embedding model not initialized. Please wait for model to load.").
Proof.
  split.
  - apply searchSimilarChunks_total_on_initialized.
  - intros Hinit.
    split; [now apply searchSimilarChunks_total_on_initialized|].
    unfold hybridSearch.
    now rewrite (proj2 (searchSimilarChunks_total_on_initialized
                          vs g db q docId (topK * 2)) Hinit).
Qed.

(** *** The shape of the hybrid results *)

Section HybridShape.

Variable regExpCount : string -> string -> option nat.

Lemma mapM_length {A B} (f : A -> result B) : forall l ys,
  mapM f l = Ok ys -> length ys = length l.
Proof.
  intros l ys H. apply mapM_Ok in H.
  induction H; simpl; auto.
Qed.

(** X14. A hybrid search that returns gives at most [topK] results,
    sorted non-increasing by combined score; each has a similarity and a
    combined score at or above the threshold and is a stored chunk;
    [totalSearched] counts the chunks in scope, and [hasResults] tells
    whether the vector search with [topK * 2] found anything. *)
Theorem hybridSearch_shape
    (vs : VectorSearch) (g : EmbeddingGenerator) (db : DocumentDatabase)
    (q : string) (docId : option Z) (topK : nat) (resp : HybridResponse) :
  hybridSearch regExpCount vs g db q docId topK = Ok resp ->
  (length (hybridResults resp) <= topK)%nat /\
  descending combinedScore (hybridResults resp) /\
  hybridTotalSearched resp = length (selectChunks db docId) /\
  searchType resp = "hybrid" /\
  (forall r, In r (hybridResults resp) ->
     similarityThreshold vs <= similarity (base r) /\
     similarityThreshold vs <= combinedScore r /\
     In (chunk (base r)) (storedChunks db)) /\
  (forall vectorResults,
     searchSimilarChunks vs g db q docId (topK * 2) = Ok vectorResults ->
     hybridHasResults resp = negb (Nat.eqb (length (results vectorResults)) 0)).
Proof.
  unfold hybridSearch. intros Hok.
  destruct (searchSimilarChunks vs g db q docId (topK * 2))
    as [vectorResults|] eqn:Hsearch; simpl in Hok; [|discriminate].
  destruct (mapM (enhanceHybrid regExpCount (queryKeywords q))
              (results vectorResults)) as [enhanced|] eqn:Hmap;
    simpl in Hok; [|discriminate].
  injection Hok as <-. cbn [hybridResults hybridTotalSearched searchType
                              hybridHasResults].
  rewrite slice_prefix.
  pose proof (search_total _ _ _ _ _ _ _ Hsearch) as Htotal.
  split; [apply firstn_le_length|].
  split; [apply firstn_descending, sortWith_descending|].
  split; [exact Htotal|]. split; [reflexivity|]. split.
  - intros r Hr. apply In_firstn, sortWith_In in Hr.
    destruct (Forall2_In_r _ _ _ _ (mapM_Ok _ _ _ Hmap) Hr) as (x & Hx & Hxr).
    unfold enhanceHybrid in Hxr.
    destruct (keywordScoreOf regExpCount (queryKeywords q)
                (toLowerCase (text (chunk x)))) as [score|] eqn:Hscore;
      simpl in Hxr; [|discriminate].
    injection Hxr as <-. cbn [base combinedScore].
    destruct (keywordScoreOf_sum _ _ _ _ Hscore) as (counts & _ & ->).
    pose proof (weightedSum_nonneg counts).
    destruct (search_result_origin _ _ _ _ _ _ _ _ Hsearch Hx)
      as (c & Hc & Hxc & Hle).
    destruct (selectChunks_stored db (docId) c Hc) as [Hst _].
    repeat split; [assumption | lra | now rewrite Hxc].
  - intros vr Hvr. injection Hvr as <-.
    rewrite sortWith_length, (mapM_length _ _ _ Hmap).
    now destruct (results vectorResults).
Qed.

End HybridShape.

End RankingProofs.

Module KeywordProofs.
Import JsString JsArray Embeddings EmbeddingsStatics.
Import VectorProofs VocabularyProofs.
Local Open Scope R_scope.

Lemma same_elements_length {A} (l1 l2 : list A) :
  NoDup l1 -> NoDup l2 -> (forall x, In x l1 <-> In x l2) ->
  length l1 = length l2.
Proof.
  intros H1 H2 H. apply Nat.le_antisymm; apply NoDup_incl_length; auto;
    intros x Hx; now apply H.
Qed.

Lemma intersection_In wordsA wordsB w :
  In w (setOf (filter (fun word => existsb (String.eqb word) wordsB) wordsA))
  <-> In w wordsA /\ In w wordsB.
Proof.
  rewrite setOf_In, filter_In, existsb_eqb_In. reflexivity.
Qed.

Lemma union_In wordsA wordsB w :
  In w (setOf (wordsA ++ wordsB)) <-> In w wordsA \/ In w wordsB.
Proof. rewrite setOf_In. apply in_app_iff. Qed.

(** X15. [keywordSimilarity] lies between 0 and 1 and is symmetric; a
    text compared with itself gives 1 when it has a word of more than two
    characters and 0 otherwise; two texts without a common word give 0. *)
Theorem keywordSimilarity_properties :
  (forall a b, 0 <= keywordSimilarity a b <= 1) /\
  (forall a b, keywordSimilarity a b = keywordSimilarity b a) /\
  (forall a, keywordSimilarity a a = if Nat.eqb (length (keywordSet a)) 0
                                     then 0 else 1) /\
  (forall a b, (forall w, In w (keywordSet a) -> ~ In w (keywordSet b)) ->
     keywordSimilarity a b = 0).
Proof.
  split; [|split; [|split]].
  - intros a b. unfold keywordSimilarity.
    set (A := keywordSet a). set (B := keywordSet b).
    destruct (Nat.ltb_spec 0 (length (setOf (A ++ B)))) as [Hpos|Hz]; [|lra].
    assert (Hle : (length (setOf (filter (fun word =>
                     existsb (String.eqb word) B) A))
                   <= length (setOf (A ++ B)))%nat).
    { apply NoDup_incl_length; [apply setOf_NoDup|].
      intros w Hw. apply union_In. apply intersection_In in Hw. tauto. }
    apply le_INR in Hle. apply lt_INR in Hpos. simpl in Hpos.
    pose proof (pos_INR (length (setOf (filter (fun word =>
                     existsb (String.eqb word) B) A)))) as H0.
    split.
    + apply Rmult_le_pos; [assumption|]. left. now apply Rinv_0_lt_compat.
    + apply Rmult_le_reg_r with (INR (length (setOf (A ++ B))));
        [assumption|].
      unfold Rdiv. rewrite Rmult_assoc, Rinv_l by lra. lra.
  - intros a b. unfold keywordSimilarity.
    set (A := keywordSet a). set (B := keywordSet b).
    assert (HU : length (setOf (A ++ B)) = length (setOf (B ++ A))).
    { apply same_elements_length; try apply setOf_NoDup.
      intros w. rewrite !union_In. tauto. }
    assert (HI : length (setOf (filter (fun word =>
                   existsb (String.eqb word) B) A))
                 = length (setOf (filter (fun word =>
                   existsb (String.eqb word) A) B))).
    { apply same_elements_length; try apply setOf_NoDup.
      intros w. rewrite !intersection_In. tauto. }
    now rewrite HU, HI.
  - intros a. unfold keywordSimilarity.
    set (A := keywordSet a).
    assert (HA : NoDup A) by apply setOf_NoDup.
    assert (HU : length (setOf (A ++ A)) = length A).
    { apply same_elements_length; [apply setOf_NoDup | assumption|].
      intros w. rewrite union_In. tauto. }
    assert (HI : length (setOf (filter (fun word =>
                   existsb (String.eqb word) A) A)) = length A).
    { apply same_elements_length; [apply setOf_NoDup | assumption|].
      intros w. rewrite intersection_In. tauto. }
    rewrite HU, HI.
    destruct (length A) as [|n] eqn:E; [reflexivity|].
    change (Nat.ltb 0 (S n)) with true. cbv iota.
    change (Nat.eqb (S n) 0) with false. cbv iota.
    field. apply not_0_INR. discriminate.
  - intros a b Hdisj. unfold keywordSimilarity.
    set (A := keywordSet a) in *. set (B := keywordSet b) in *.
    assert (HI : setOf (filter (fun word =>
                   existsb (String.eqb word) B) A) = []).
    { destruct (setOf _) as [|w l] eqn:E; [reflexivity|].
      assert (Hw : In w (setOf (filter (fun word =>
                     existsb (String.eqb word) B) A)))
        by (rewrite E; now left).
      apply intersection_In in Hw as [Ha Hb]. now apply Hdisj in Ha. }
    rewrite HI. simpl length.
    destruct (Nat.ltb 0 (length (setOf (A ++ B)))); [|reflexivity].
    unfold Rdiv. simpl. lra.
Qed.

Lemma keywordSimilarity_properties_witness :
  keywordSimilarity "red fox" "blue whale" = 0.
Proof.
  apply (proj2 (proj2 (proj2 keywordSimilarity_properties))).
  intros w Ha Hb.
  assert (HA : keywordSet "red fox" = ["red"; "fox"])
    by (vm_compute; reflexivity).
  assert (HB : keywordSet "blue whale" = ["blue"; "whale"])
    by (vm_compute; reflexivity).
  rewrite HA in Ha. rewrite HB in Hb. simpl in Ha, Hb.
  destruct Ha as [<-|[<-|[]]]; destruct Hb as [H|[H|[]]]; discriminate.
Defined.

End KeywordProofs.

Module SuggestionProofs.
Import JsString JsArray Suggestions SuggestionSpec.
Import VectorProofs VocabularyProofs SortProofs.

Lemma substring_length n : forall s m,
  (String.length (String.substring m n s) <= n)%nat.
Proof.
  induction n as [|n IHn]; intros s m.
  - revert m. induction s as [|c s IHs]; intros [|m]; simpl; auto.
  - revert m.
    induction s as [|c s IHs]; intros [|m]; simpl; auto with arith.
Qed.

Lemma considerSentence_inv cs c st sentence :
  In c cs -> suggestionInv cs st ->
  suggestionInv cs (considerSentence c st sentence).
Proof.
  intros Hc (Hmap & Hnd & Hall). unfold considerSentence.
  destruct (Nat.leb 3 _ && Nat.leb _ 8); [|repeat split; assumption].
  set (suggestion := String.substring 0 60 _).
  destruct (existsb (String.eqb (toLowerCase suggestion)) (usedTerms st))
    eqn:E; simpl; [repeat split; assumption|].
  repeat split; simpl.
  - now rewrite map_app, Hmap.
  - apply NoDup_app; [assumption | repeat constructor; intros [] |].
    intros a Ha [Hb|[]]. subst a.
    apply existsb_eqb_In in Ha. congruence.
  - apply Forall_app. split; [assumption|].
    constructor; [|constructor]. simpl. split.
    + apply substring_length.
    + exists c. auto.
Qed.

Lemma fold_inv {A S} (I : S -> Prop) (f : S -> A -> S) : forall l st,
  (forall a st, In a l -> I st -> I (f st a)) -> I st ->
  I (fold_left f l st).
Proof.
  induction l as [|a l IH]; intros st Hf Hst; simpl; [assumption|].
  apply IH.
  - intros b st' Hb. apply Hf. now right.
  - apply Hf; [now left | assumption].
Qed.

Lemma considerChunk_inv cs c st :
  In c cs -> suggestionInv cs st -> suggestionInv cs (considerChunk st c).
Proof.
  intros Hc Hst. unfold considerChunk.
  apply fold_inv; [|assumption].
  intros sentence st' _. now apply considerSentence_inv.
Qed.

Lemma NoDup_firstn {A} n : forall l : list A, NoDup l -> NoDup (firstn n l).
Proof.
  induction n as [|n IH]; intros [|x l] Hl; simpl; try constructor.
  - inversion Hl as [|? ? Hx Hl']; subst. intros Hin. apply Hx.
    now apply In_firstn in Hin.
  - inversion Hl; subst. now apply IH.
Qed.

(** X16. [getSearchSuggestions] returns at most [limit] suggestions, no
    two of them equal up to the case of the letters, each of at most 60
    characters and carrying the document id of a chunk in scope; with no
    chunk in scope it returns none. *)
Theorem getSearchSuggestions_properties (db : DocumentDatabase)
    (docId : option Z) (limit : nat) :
  let result := getSearchSuggestions db docId limit in
  (length result <= limit)%nat /\
  NoDup (map (fun s => toLowerCase (suggestionText s)) result) /\
  (forall s, In s result ->
     (String.length (suggestionText s) <= 60)%nat /\
     exists c, In c (selectChunks db docId) /\
               suggestionDocumentId s = documentId c) /\
  (selectChunks db docId = [] -> result = []).
Proof.
  intros result. unfold result, getSearchSuggestions.
  destruct (Nat.eqb_spec (length (selectChunks db docId)) 0) as [E|E].
  { split; [simpl; lia|]. split; [constructor|].
    split; [intros s0 [] | reflexivity]. }
  rewrite slice_prefix.
  set (cs := selectChunks db docId) in *.
  assert (Hinv : suggestionInv cs
            (fold_left considerChunk cs
               {| suggestions := []; usedTerms := [] |})).
  { apply fold_inv.
    - intros c st Hc. now apply considerChunk_inv.
    - repeat split; simpl; constructor. }
  destruct Hinv as (Hmap & Hnd & Hall).
  split; [apply firstn_le_length|]. split; [|split].
  - rewrite <- firstn_map, Hmap. now apply NoDup_firstn.
  - intros s Hs. apply In_firstn in Hs.
    exact (proj1 (Forall_forall _ _) Hall s Hs).
  - intros Hnil. rewrite Hnil in E. simpl in E. lia.
Qed.

Lemma getSearchSuggestions_properties_witness :
  getSearchSuggestions {| documents := []; storedChunks := [] |} None 5 = [].
Proof.
  apply (getSearchSuggestions_properties
           {| documents := []; storedChunks := [] |} None 5).
  reflexivity.
Defined.

End SuggestionProofs.

Module WindowProofs.
Import JsString JsArray PdfProcessor ChunkerSpec WindowSpec ChunkerProofs.

(** *** [trim] leaves the text of a chunk as it is *)

Lemma word_ends w :
  allNonSpace w = true -> w <> EmptyString ->
  firstNonSpace w = true /\ lastNonSpace w = true.
Proof.
  intros Hall Hne. split.
  - destruct w as [|c w]; [congruence|]. simpl in *.
    now apply andb_true_iff in Hall.
  - induction w as [|c w IH]; [congruence|].
    simpl in Hall. apply andb_true_iff in Hall as [Hc Hw].
    destruct w as [|c' w']; [exact Hc|].
    change (lastNonSpace (String c (String c' w')))
      with (lastNonSpace (String c' w')).
    apply IH; [assumption | discriminate].
Qed.

Lemma firstNonSpace_app s1 s2 :
  firstNonSpace s1 = true -> firstNonSpace (s1 ++ s2) = true.
Proof. destruct s1; simpl; [discriminate | auto]. Qed.

Lemma lastNonSpace_app s1 s2 :
  lastNonSpace s2 = true -> lastNonSpace (s1 ++ s2) = true.
Proof.
  intros H2. induction s1 as [|c s1 IH]; simpl; [assumption|].
  destruct (s1 ++ s2)%string eqn:E; [|assumption].
  destruct s1; simpl in E; [|discriminate]. subst s2. discriminate.
Qed.

Lemma join_ends ws :
  Forall (fun w => firstNonSpace w = true /\ lastNonSpace w = true) ws ->
  ws <> [] ->
  firstNonSpace (join " " ws) = true /\ lastNonSpace (join " " ws) = true.
Proof.
  induction 1 as [|w ws [Hf Hl] Hws IH]; intros Hne; [congruence|].
  destruct ws as [|w' ws'].
  - simpl. auto.
  - destruct (IH ltac:(discriminate)) as [_ IHl].
    change (join " " (w :: w' :: ws'))
      with (w ++ " " ++ join " " (w' :: ws'))%string.
    split.
    + now apply firstNonSpace_app.
    + now apply lastNonSpace_app, lastNonSpace_app.
Qed.

Lemma trimStart_id s : firstNonSpace s = true -> trimStart s = s.
Proof.
  destruct s as [|c s]; simpl; [discriminate|].
  intros H. apply negb_true_iff in H. now rewrite H.
Qed.

Lemma trimEnd_id s : lastNonSpace s = true -> trimEnd s = s.
Proof.
  induction s as [|c s IH]; [discriminate|].
  destruct s as [|c' s'].
  - simpl. intros H. apply negb_true_iff in H. now rewrite H.
  - intros H. change (lastNonSpace (String c (String c' s')))
      with (lastNonSpace (String c' s')) in H.
    specialize (IH H).
    change (trimEnd (String c (String c' s')))
      with (match trimEnd (String c' s') with
            | EmptyString =>
                if isSpace c then EmptyString else String c EmptyString
            | t => String c t
            end).
    now rewrite IH.
Qed.

Lemma splitWords_words t :
  Forall (fun w => firstNonSpace w = true /\ lastNonSpace w = true)
    (splitWords t).
Proof.
  unfold splitWords, splitSpaces.
  pose proof (splitAux_allNonSpace t EmptyString false eq_refl) as H.
  induction H as [|w l Hw Hl IH]; simpl; [constructor|].
  destruct (jsLength w >? 0)%Z eqn:E; [|assumption].
  constructor; [|assumption].
  apply word_ends; [assumption|].
  intros ->. discriminate.
Qed.

Lemma Forall_window {A} (P : A -> Prop) (l : list A) s e :
  Forall P l -> Forall P (firstn e (skipn s l)).
Proof.
  intros H. apply Forall_forall. intros x Hx.
  apply (proj1 (Forall_forall _ l) H). eapply In_window, Hx.
Qed.

Lemma trim_window words s e :
  Forall (fun w => firstNonSpace w = true /\ lastNonSpace w = true) words ->
  (s < e <= length words)%nat ->
  trim (join " " (slice words (Z.of_nat s) (Z.of_nat e)))
  = join " " (slice words (Z.of_nat s) (Z.of_nat e)).
Proof.
  intros Hw Hse.
  assert (Hne : slice words (Z.of_nat s) (Z.of_nat e) <> []).
  { intros E. pose proof (slice_window_length words s e ltac:(lia)) as Hl.
    rewrite E in Hl. simpl in Hl. lia. }
  assert (Hall : Forall (fun w => firstNonSpace w = true /\
                                  lastNonSpace w = true)
                   (slice words (Z.of_nat s) (Z.of_nat e))).
  { rewrite slice_window by lia. now apply Forall_window. }
  destruct (join_ends _ Hall Hne) as [Hf Hl].
  unfold trim. rewrite (trimStart_id _ Hf). now apply trimEnd_id.
Qed.

(** *** The loop emits the windows *)

Section Windows.

Variable p : PDFProcessor.
Variable words : list string.
Variable docId : Z.
Hypothesis Hsize : (1 <= maxChunkSize p)%Z.
Hypothesis Hoverlap : (0 <= chunkOverlap p)%Z.
Hypothesis Hwords :
  Forall (fun w => firstNonSpace w = true /\ lastNonSpace w = true) words.

Lemma stepOf_bounds : (1 <= stepOf p <= maxChunkSize p)%Z.
Proof. unfold stepOf. lia. Qed.

Lemma chunkCount_last k :
  (0 < length words)%nat ->
  (Z.of_nat (length words) <= windowStart p k + maxChunkSize p)%Z ->
  (forall j, (j < k)%nat ->
     (windowStart p j + maxChunkSize p < Z.of_nat (length words))%Z) ->
  chunkCount p (length words) = S k.
Proof.
  intros Hlen Hlast Hprev. unfold chunkCount.
  destruct (length words) as [|n] eqn:E; [lia|]. f_equal.
  pose proof stepOf_bounds as Hstep.
  unfold windowStart in *.
  set (d := Z.max (Z.of_nat (S n) - maxChunkSize p) 0).
  assert (Hq : ((d + stepOf p - 1) / stepOf p = Z.of_nat k)%Z).
  { symmetry.
    apply Z.div_unique with (r := (d + stepOf p - 1 - Z.of_nat k * stepOf p)%Z);
      [|lia].
    left. split.
    - destruct k as [|k']; [unfold d; lia|].
      specialize (Hprev k' ltac:(lia)). unfold d. nia.
    - unfold d. nia. }
  rewrite Hq. lia.
Qed.

Lemma loopStep_windows st :
  windowInv p words docId st ->
  match loopStep p words docId st with
  | Continue st' => windowInv p words docId st'
  | Return cs =>
      cs = map (windowChunk p words docId) (seq 0 (chunkCount p (length words)))
  end.
Proof.
  intros (k & Hchunks & Hnext & Hstart & Hprev).
  pose proof stepOf_bounds as Hstep.
  unfold loopStep.
  destruct (startIndex st <? Z.of_nat (length words))%Z eqn:Hlt.
  2:{ apply Z.ltb_ge in Hlt. rewrite Hchunks. f_equal. f_equal.
      destruct k as [|k'].
      - unfold windowStart in Hstart. simpl in Hstart.
        assert (length words = 0%nat) by lia.
        rewrite H. reflexivity.
      - specialize (Hprev k' ltac:(lia)).
        unfold windowStart in *. nia. }
  apply Z.ltb_lt in Hlt.
  assert (Hs0 : (0 <= startIndex st)%Z) by (rewrite Hstart; unfold windowStart; nia).
  set (s := Z.to_nat (startIndex st)).
  set (endIndex := Z.min (startIndex st + maxChunkSize p)
                     (Z.of_nat (length words))).
  set (e := Z.to_nat endIndex).
  assert (Hs : startIndex st = Z.of_nat s) by (unfold s; lia).
  assert (He : endIndex = Z.of_nat e) by (unfold e, endIndex; lia).
  assert (Hse : (s < e <= length words)%nat) by (unfold e, endIndex, s; lia).
  assert (Hwe : windowEnd p words k = endIndex).
  { unfold windowEnd, endIndex. now rewrite Hstart. }
  rewrite Hs, He.
  rewrite (trim_window words s e Hwords Hse).
  assert (Hpos : (0 <? jsLength (join " "
                    (slice words (Z.of_nat s) (Z.of_nat e))))%Z = true).
  { rewrite <- (trim_window words s e Hwords Hse).
    apply trim_length_pos, slice_window_hasNonSpace; [|exact Hse].
    eapply Forall_impl; [|exact Hwords].
    intros w [Hf _]. destruct w as [|c w]; [discriminate|].
    simpl in *. now rewrite Hf. }
  rewrite Hpos.
  assert (Hc : {| documentId := docId; chunkIndex := nextIndex st;
                  text := join " " (slice words (Z.of_nat s) (Z.of_nat e));
                  tokenCount :=
                    Z.of_nat (length (slice words (Z.of_nat s) (Z.of_nat e)));
                  embedding := None |} = windowChunk p words docId k).
  { unfold windowChunk. rewrite Hwe, He, <- Hstart, Hs, Hnext.
    rewrite slice_window_length by lia. f_equal. lia. }
  rewrite Hc.
  assert (Hchunks' : chunks st ++ [windowChunk p words docId k]
                     = map (windowChunk p words docId) (seq 0 (S k))).
  { rewrite seq_S, map_app, Hchunks. reflexivity. }
  destruct (Z.of_nat e >=? Z.of_nat (length words))%Z eqn:Hend; cbn [chunks].
  - apply Z.geb_le in Hend. rewrite Hchunks'. f_equal. f_equal. symmetry.
    apply chunkCount_last; [lia | | exact Hprev].
    rewrite <- Hstart. unfold e, endIndex in Hend. lia.
  - rewrite Z.geb_leb in Hend. apply Z.leb_gt in Hend.
    exists (S k). cbn [chunks nextIndex startIndex].
    split; [exact Hchunks'|]. split; [lia|]. split.
    + unfold windowStart in *.
      rewrite Nat2Z.inj_succ, Z.mul_succ_l.
      assert (Hdef : stepOf p = Z.max (maxChunkSize p - chunkOverlap p) 1)
        by reflexivity.
      lia.
    + intros j Hj. destruct (Nat.eq_dec j k) as [->|Hne].
      * rewrite <- Hstart. unfold e, endIndex in Hend. lia.
      * apply Hprev. lia.
Qed.

Lemma runLoop_windows : forall fuel st cs,
  windowInv p words docId st ->
  runLoop fuel p words docId st = Some cs ->
  cs = map (windowChunk p words docId) (seq 0 (chunkCount p (length words))).
Proof.
  induction fuel as [|fuel IH]; intros st cs Hinv Hrun; [discriminate|].
  simpl in Hrun. pose proof (loopStep_windows st Hinv) as Hstep.
  destruct (loopStep p words docId st) as [st'|cs'].
  - now apply (IH st').
  - now injection Hrun as <-.
Qed.

End Windows.

Lemma initialLoop_windows p words docId :
  windowInv p words docId initialLoop.
Proof.
  exists 0%nat. repeat split; try reflexivity. intros j Hj. lia.
Qed.

(** X17. For a window size of at least one token and an overlap of at
    least zero, [chunkText] returns exactly the windows over the words of
    the text: chunk j holds the words from position j * step up to
    j * step + maxChunkSize or the end of the text, joined by single
    spaces, with step = max(maxChunkSize - overlap, 1); the number of
    chunks is [chunkCount]. The [trim] of the source changes nothing. *)
Theorem chunkText_windows (p : PDFProcessor) (t : string) (docId : Z)
    (fuel : nat) :
  (1 <= maxChunkSize p)%Z -> (0 <= chunkOverlap p)%Z ->
  (length (splitWords t) < fuel)%nat ->
  chunkText fuel p t docId =
  Some (map (windowChunk p (splitWords t) docId)
          (seq 0 (chunkCount p (length (splitWords t))))).
Proof.
  intros Hsize Hoverlap Hfuel. unfold chunkText.
  destruct (runLoop_terminates p (splitWords t) docId fuel initialLoop)
    as [cs Hcs].
  { simpl. lia. }
  rewrite Hcs. f_equal.
  apply (runLoop_windows p (splitWords t) docId Hsize Hoverlap
           (splitWords_words t) fuel initialLoop cs);
    [apply initialLoop_windows | exact Hcs].
Qed.

Lemma chunkText_windows_witness :
  chunkText 4 {| maxChunkSize := 2; chunkOverlap := 1 |} "a b c" 7 =
  Some (map (windowChunk {| maxChunkSize := 2; chunkOverlap := 1 |}
               (splitWords "a b c") 7)
          (seq 0 (chunkCount {| maxChunkSize := 2; chunkOverlap := 1 |}
                    (length (splitWords "a b c"))))).
Proof.
  apply chunkText_windows; simpl; lia.
Defined.

(** X18. A text of at most [maxChunkSize] words becomes one chunk, with
    index 0, holding all its words joined by single spaces; a text without
    a word gives no chunk. *)
Theorem chunkText_short_text (p : PDFProcessor) (t : string) (docId : Z)
    (fuel : nat) :
  (1 <= maxChunkSize p)%Z -> (0 <= chunkOverlap p)%Z ->
  (length (splitWords t) < fuel)%nat ->
  (Z.of_nat (length (splitWords t)) <= maxChunkSize p)%Z ->
  chunkText fuel p t docId =
  Some (match splitWords t with
        | [] => []
        | _ :: _ =>
            [ {| documentId := docId;
                 chunkIndex := 0;
                 text := join " " (splitWords t);
                 tokenCount := Z.of_nat (length (splitWords t));
                 embedding := None |} ]
        end).
Proof.
  intros Hsize Hoverlap Hfuel Hshort. unfold chunkText.
  destruct (runLoop_terminates p (splitWords t) docId fuel initialLoop)
    as [cs Hcs].
  { simpl. lia. }
  rewrite Hcs. f_equal.
  rewrite (runLoop_windows p (splitWords t) docId Hsize Hoverlap
             (splitWords_words t) fuel initialLoop cs
             (initialLoop_windows _ _ _) Hcs).
  destruct (splitWords t) as [|w ws] eqn:E; [reflexivity|].
  assert (Hcount : chunkCount p (length (w :: ws)) = 1%nat).
  { unfold chunkCount. cbn [length]. f_equal.
    pose proof (stepOf_bounds p Hsize Hoverlap) as Hstep.
    rewrite Z.max_r by (cbn [length] in Hshort; lia).
    rewrite Z.div_small by lia. reflexivity. }
  rewrite Hcount. cbn [seq map]. f_equal.
  unfold windowChunk, windowEnd, windowStart.
  rewrite Z.mul_0_l, Z.add_0_l, Z.min_r by lia.
  rewrite Z.sub_0_r.
  change 0%Z with (Z.of_nat 0).
  rewrite slice_window by lia.
  rewrite Nat.sub_0_r, skipn_O, firstn_all. reflexivity.
Qed.

Lemma chunkText_short_text_witness :
  chunkText 4 newPDFProcessor "  a  b c " 7 =
  Some (match splitWords "  a  b c " with
        | [] => []
        | _ :: _ =>
            [ {| documentId := 7;
                 chunkIndex := 0;
                 text := join " " (splitWords "  a  b c ");
                 tokenCount := Z.of_nat (length (splitWords "  a  b c "));
                 embedding := None |} ]
        end).
Proof.
  apply chunkText_short_text; simpl; lia.
Defined.

End WindowProofs.

Module DocumentProofs.
Import JsString JsArray PdfDocument ChunkerSpec WindowSpec.
Import ChunkerProofs WindowProofs.

Lemma hasNonSpace_revOnto s : forall acc,
  hasNonSpace (revOnto s acc) = hasNonSpace s || hasNonSpace acc.
Proof.
  induction s as [|c s IH]; intros acc; simpl; [reflexivity|].
  rewrite IH. simpl. destruct (isSpace c), (hasNonSpace s); reflexivity.
Qed.

Lemma splitAux_hasNonSpace s : forall cur inRun,
  existsb hasNonSpace (splitAux cur inRun s)
  = hasNonSpace cur || hasNonSpace s.
Proof.
  induction s as [|c s IH]; intros cur inRun; simpl.
  - rewrite hasNonSpace_revOnto. simpl.
    now rewrite !orb_false_r.
  - destruct (isSpace c) eqn:Hc; simpl.
    + destruct inRun.
      * apply IH.
      * simpl. rewrite IH, hasNonSpace_revOnto. simpl.
        now rewrite !orb_false_r.
    + rewrite IH. simpl. rewrite Hc. simpl.
      destruct (hasNonSpace cur); reflexivity.
Qed.

Lemma splitWords_empty_iff t :
  splitWords t = [] <-> hasNonSpace t = false.
Proof.
  unfold splitWords, splitSpaces.
  pose proof (splitAux_hasNonSpace t EmptyString false) as Hex.
  simpl in Hex.
  pose proof (splitAux_allNonSpace t EmptyString false eq_refl) as Hall.
  revert Hex Hall. generalize (splitAux EmptyString false t) as pieces.
  intros pieces Hex Hall. rewrite <- Hex. clear Hex.
  induction Hall as [|w l Hw Hl IH]; simpl; [tauto|].
  destruct (jsLength w >? 0)%Z eqn:E.
  - rewrite (nonempty_allNonSpace w E Hw). simpl.
    split; [discriminate | discriminate].
  - destruct w as [|c w].
    + simpl. exact IH.
    + unfold jsLength in E. rewrite Z.gtb_ltb in E. apply Z.ltb_ge in E.
      cbn [String.length] in E. lia.
Qed.

Lemma trimEnd_empty s : hasNonSpace s = false -> trimEnd s = EmptyString.
Proof.
  induction s as [|c s IH]; simpl; [reflexivity|].
  intros H. apply orb_false_iff in H as [Hc Hs].
  rewrite (IH Hs). apply negb_false_iff in Hc. now rewrite Hc.
Qed.

Lemma hasNonSpace_trimEnd s : hasNonSpace (trimEnd s) = hasNonSpace s.
Proof.
  induction s as [|c s IH]; simpl; [reflexivity|].
  destruct (trimEnd s) as [|c' t'] eqn:E.
  - simpl in IH. rewrite <- IH.
    destruct (isSpace c) eqn:Hc; simpl; rewrite ?Hc; reflexivity.
  - change (hasNonSpace (String c (String c' t')))
      with (negb (isSpace c) || hasNonSpace (String c' t')).
    now rewrite IH.
Qed.

Lemma trim_empty_or_visible s :
  trim s = EmptyString \/ hasNonSpace (trim s) = true.
Proof.
  unfold trim. rewrite hasNonSpace_trimEnd.
  destruct (hasNonSpace (trimStart s)) eqn:E; [now right|].
  left. now apply trimEnd_empty.
Qed.

Section Outcomes.

Variable fuel : nat.
Variable p : PDFProcessor.
Variable t : string.
Variable docId : Z.
Hypothesis Hsize : (1 <= maxChunkSize p)%Z.
Hypothesis Hoverlap : (0 <= chunkOverlap p)%Z.
Hypothesis Hfuel : (length (splitWords t) < fuel)%nat.

Lemma chunkText_enough_fuel :
  chunkText fuel p t docId =
  Some (map (windowChunk p (splitWords t) docId)
          (seq 0 (chunkCount p (length (splitWords t))))).
Proof.
  unfold chunkText.
  destruct (runLoop_terminates p (splitWords t) docId fuel initialLoop)
    as [cs Hcs]; [simpl; lia|].
  rewrite Hcs. f_equal.
  apply (runLoop_windows p (splitWords t) docId Hsize Hoverlap
           (splitWords_words t) fuel initialLoop cs);
    [apply initialLoop_windows | exact Hcs].
Qed.

Lemma processDocument_short :
  (String.length t < 10)%nat ->
  processDocument fuel p t docId =
  Some (Throw "PDF appears to be empty or contains no readable text").
Proof.
  intros Hlen. unfold processDocument.
  assert (H : (jsLength t <? 10)%Z = true)
    by (apply Z.ltb_lt; unfold jsLength; lia).
  now rewrite H, orb_true_r.
Qed.

Lemma long_text_tests :
  (10 <= String.length t)%nat ->
  String.eqb t "" || (jsLength t <? 10)%Z = false.
Proof.
  intros Hlen.
  assert (H1 : String.eqb t "" = false).
  { apply String.eqb_neq. intros E. rewrite E in Hlen. simpl in Hlen. lia. }
  assert (H2 : (jsLength t <? 10)%Z = false)
    by (apply Z.ltb_ge; unfold jsLength; lia).
  now rewrite H1, H2.
Qed.

Lemma processDocument_blank :
  (10 <= String.length t)%nat -> hasNonSpace t = false ->
  processDocument fuel p t docId =
  Some (Throw "No valid text chunks could be created from the document").
Proof.
  intros Hlen Hblank. unfold processDocument.
  rewrite (long_text_tests Hlen), chunkText_enough_fuel.
  rewrite (proj2 (splitWords_empty_iff t) Hblank). reflexivity.
Qed.

Lemma processDocument_visible :
  (10 <= String.length t)%nat -> hasNonSpace t = true ->
  exists r,
    processDocument fuel p t docId = Some (Ok r) /\
    fullText r = t /\
    processedChunks r <> [] /\
    processedChunks r =
      map (windowChunk p (splitWords t) docId)
        (seq 0 (chunkCount p (length (splitWords t)))) /\
    totalChunks (stats r) = Z.of_nat (length (processedChunks r)).
Proof.
  intros Hlen Hvisible. unfold processDocument.
  rewrite (long_text_tests Hlen), chunkText_enough_fuel.
  assert (Hne : splitWords t <> []).
  { intros E. apply splitWords_empty_iff in E. congruence. }
  destruct (splitWords t) as [|w ws] eqn:E; [congruence|].
  assert (Hcount : exists n, chunkCount p (length (w :: ws)) = S n).
  { unfold chunkCount. cbn [length]. eexists. reflexivity. }
  destruct Hcount as [n Hn]. rewrite Hn.
  cbn [seq map length Nat.eqb].
  eexists. split; [reflexivity|].
  cbn [fullText processedChunks stats totalChunks].
  repeat split. discriminate.
Qed.

End Outcomes.

(** X19. [processDocument], from the extracted text on, has three
    outcomes: a text of fewer than 10 characters throws the "empty" error;
    a text of 10 characters or more, all white space, throws the "no valid
    chunks" error; any other text returns the text, its windows as chunks
    (at least one) and their number as [totalChunks]. *)
Theorem processDocument_outcomes (fuel : nat) (p : PDFProcessor)
    (t : string) (docId : Z) :
  (1 <= maxChunkSize p)%Z -> (0 <= chunkOverlap p)%Z ->
  (length (splitWords t) < fuel)%nat ->
  ((String.length t < 10)%nat ->
   processDocument fuel p t docId =
   Some (Throw "PDF appears to be empty or contains no readable text")) /\
  ((10 <= String.length t)%nat -> hasNonSpace t = false ->
   processDocument fuel p t docId =
   Some (Throw "No valid text chunks could be created from the document")) /\
  ((10 <= String.length t)%nat -> hasNonSpace t = true ->
   exists r,
     processDocument fuel p t docId = Some (Ok r) /\
     fullText r = t /\
     processedChunks r <> [] /\
     processedChunks r =
       map (windowChunk p (splitWords t) docId)
         (seq 0 (chunkCount p (length (splitWords t)))) /\
     totalChunks (stats r) = Z.of_nat (length (processedChunks r))).
Proof.
  intros Hsize Hoverlap Hfuel. split; [|split].
  - now apply processDocument_short.
  - now apply processDocument_blank.
  - now apply processDocument_visible.
Qed.

Lemma processDocument_outcomes_witness :
  exists r,
    processDocument 4 newPDFProcessor "hello world!" 7 = Some (Ok r) /\
    fullText r = "hello world!".
Proof.
  destruct (processDocument_outcomes 4 newPDFProcessor "hello world!" 7)
    as (_ & _ & H); [simpl; lia | simpl; lia | simpl; lia |].
  destruct H as (r & Hok & Hfull & _); [simpl; lia | reflexivity |].
  exists r. split; [exact Hok | exact Hfull].
Defined.

(** X20. On the text that [extractTextFromPDF] returns, which is
    trimmed, [processDocument] never throws the "no valid chunks" error: it
    throws the "empty" error exactly when the text has fewer than 10
    characters, and returns otherwise. *)
Theorem processDocument_after_extraction (fuel : nat) (p : PDFProcessor)
    (pages : list (list string)) (docId : Z) :
  (1 <= maxChunkSize p)%Z -> (0 <= chunkOverlap p)%Z ->
  (length (splitWords (extractTextFromPDF pages)) < fuel)%nat ->
  processDocument fuel p (extractTextFromPDF pages) docId
  <> Some (Throw "No valid text chunks could be created from the document")
  /\
  (processDocument fuel p (extractTextFromPDF pages) docId =
   Some (Throw "PDF appears to be empty or contains no readable text")
   <-> (String.length (extractTextFromPDF pages) < 10)%nat).
Proof.
  intros Hsize Hoverlap Hfuel.
  set (t := extractTextFromPDF pages) in *.
  pose proof (processDocument_short fuel p t docId Hfuel) as Hshort.
  pose proof (processDocument_visible fuel p t docId Hsize Hoverlap Hfuel)
    as Hok.
  assert (Hvisible : (10 <= String.length t)%nat -> hasNonSpace t = true).
  { intros Hlen. destruct (trim_empty_or_visible
      (fold_left (fun fullText items =>
         (fullText ++ (join " " items ++ String "010" ""))%string) pages ""))
      as [E|E]; fold (extractTextFromPDF pages) in E; fold t in E.
    - rewrite E in Hlen. simpl in Hlen. lia.
    - exact E. }
  destruct (Nat.lt_ge_cases (String.length t) 10) as [Hlt|Hge].
  - rewrite (Hshort Hlt). split; [discriminate|]. tauto.
  - destruct (Hok Hge (Hvisible Hge)) as (r & Hr & _). rewrite Hr.
    split; [discriminate|]. split; [discriminate | lia].
Qed.

Lemma processDocument_after_extraction_witness :
  processDocument 4 newPDFProcessor
    (extractTextFromPDF [["hello"; "world!"]]) 7
  <> Some (Throw "No valid text chunks could be created from the document").
Proof.
  apply (processDocument_after_extraction 4 newPDFProcessor
           [["hello"; "world!"]] 7); simpl; lia.
Defined.

End DocumentProofs.

Module StoreProofs.
Import JsString JsArray App VectorSpec RankSpec StoreSpec GeneratorSpec.
Import VectorProofs VocabularyProofs SortProofs SearchProofs BatchProofs.
Import EncoderProofs RankingProofs.

(** *** [getDocumentChunks] *)

Lemma insertSorted_byIndex x : forall l,
  byIndex l -> byIndex (insertSorted indexAfter x l).
Proof.
  unfold byIndex, indexAfter.
  induction l as [|y l IH]; simpl; intros Hl.
  - repeat constructor.
  - inversion Hl as [|? ? Hl' Hy]; subst.
    destruct (0 <? chunkIndex x - chunkIndex y)%Z eqn:E.
    + apply Z.ltb_lt in E. constructor; [now apply IH|].
      apply Forall_forall. intros z Hz.
      apply insertSorted_In in Hz as [->|Hz]; [lia|].
      exact (proj1 (Forall_forall _ l) Hy z Hz).
    + apply Z.ltb_ge in E.
      constructor; [assumption|].
      constructor; [lia|].
      eapply Forall_impl; [|exact Hy]. simpl. intros z Hz. lia.
Qed.

Lemma sortWith_byIndex : forall l, byIndex (sortWith indexAfter l).
Proof.
  induction l as [|x l IH]; simpl; [constructor|].
  now apply insertSorted_byIndex.
Qed.

(** X21. [getDocumentChunks] returns the stored chunks of the document,
    all of them and no other, sorted by chunk index. *)
Theorem getDocumentChunks_sorted_filter (db : DocumentDatabase) (id : Z) :
  byIndex (getDocumentChunks db id) /\
  (forall c, In c (getDocumentChunks db id) <->
             In c (storedChunks db) /\ documentId c = id) /\
  length (getDocumentChunks db id)
  = length (filter (fun c => (documentId c =? id)%Z) (storedChunks db)).
Proof.
  unfold getDocumentChunks. split; [apply sortWith_byIndex|]. split.
  - intros c. rewrite sortWith_In, filter_In, Z.eqb_eq. reflexivity.
  - apply sortWith_length.
Qed.

(** A list in order is left as it is by the sort. *)
Lemma sortWith_sorted {A} (after : A -> A -> bool) : forall l,
  StronglySorted (fun a b => after a b = false) l -> sortWith after l = l.
Proof.
  induction 1 as [|x l Hl IH Hx]; simpl; [reflexivity|].
  rewrite IH. destruct l as [|y l']; [reflexivity|].
  simpl. inversion Hx as [|? ? Hy _]; subst. now rewrite Hy.
Qed.

Lemma filter_all {A} (p : A -> bool) l :
  Forall (fun x => p x = true) l -> filter p l = l.
Proof.
  induction 1 as [|x l Hx Hl IH]; simpl; [reflexivity|].
  now rewrite Hx, IH.
Qed.

Lemma filter_none {A} (p : A -> bool) l :
  Forall (fun x => p x = false) l -> filter p l = [].
Proof.
  induction 1 as [|x l Hx Hl IH]; simpl; [reflexivity|].
  now rewrite Hx.
Qed.

(** X22. When the store holds no chunk of a document, the chunks added
    for it by [addChunksBatch], given in the order of their indices, are
    read back by [getDocumentChunks] as they were given; the chunks of the
    other documents are not changed, and [getAllChunks] has the new chunks
    at its end. *)
Theorem addChunksBatch_then_getDocumentChunks (db : DocumentDatabase)
    (cs : list Chunk) (id : Z) :
  Forall (fun c => documentId c <> id) (storedChunks db) ->
  Forall (fun c => documentId c = id) cs ->
  byIndex cs ->
  getDocumentChunks (addChunksBatch db cs) id = cs /\
  (forall id', id' <> id ->
     getDocumentChunks (addChunksBatch db cs) id' = getDocumentChunks db id') /\
  getAllChunks (addChunksBatch db cs) = getAllChunks db ++ cs.
Proof.
  intros Hold Hnew Hsorted.
  unfold getDocumentChunks, addChunksBatch, getAllChunks. cbn [storedChunks].
  split; [|split; [|reflexivity]].
  - rewrite filter_app.
    rewrite (filter_none _ (storedChunks db)).
    + rewrite (filter_all _ cs).
      * simpl. apply sortWith_sorted.
        eapply StronglySorted_ind with
          (P := fun l => StronglySorted
                  (fun a b => (0 <? chunkIndex a - chunkIndex b)%Z = false) l);
          [constructor | | exact Hsorted].
        intros a l _ IH Ha. constructor; [assumption|].
        eapply Forall_impl; [|exact Ha]. simpl. intros b Hb.
        apply Z.ltb_ge. lia.
      * eapply Forall_impl; [|exact Hnew]. simpl. intros c Hc.
        now apply Z.eqb_eq.
    + eapply Forall_impl; [|exact Hold]. simpl. intros c Hc.
      now apply Z.eqb_neq.
  - intros id' Hne. rewrite filter_app.
    rewrite (filter_none _ cs); [now rewrite app_nil_r|].
    eapply Forall_impl; [|exact Hnew]. simpl. intros c Hc.
    apply Z.eqb_neq. congruence.
Qed.

Lemma addChunksBatch_then_getDocumentChunks_witness :
  getDocumentChunks
    (addChunksBatch {| documents := []; storedChunks := [] |}
       VocabularySpec.exampleCorpus) 1
  = VocabularySpec.exampleCorpus.
Proof.
  apply (addChunksBatch_then_getDocumentChunks
           {| documents := []; storedChunks := [] |}
           VocabularySpec.exampleCorpus 1).
  - constructor.
  - repeat constructor.
  - repeat constructor; simpl; lia.
Defined.

(** *** [deleteDocument] *)

Lemma filter_filter {A} (p q : A -> bool) l :
  filter p (filter q l) = filter (fun x => q x && p x) l.
Proof.
  induction l as [|x l IH]; simpl; [reflexivity|].
  destruct (q x); simpl; [destruct (p x); now rewrite IH | exact IH].
Qed.

Lemma findDocument_filter l id id' :
  findDocument (filter (fun entry => negb (fst entry =? id)%Z) l) id'
  = if (id' =? id)%Z then None else findDocument l id'.
Proof.
  induction l as [|[k d] l IH]; simpl.
  - now destruct (id' =? id)%Z.
  - destruct (Z.eqb_spec k id) as [E|E]; simpl.
    + rewrite IH. subst k.
      destruct (Z.eqb_spec id' id) as [E'|E']; [reflexivity|].
      destruct (Z.eqb_spec id id'); [congruence | reflexivity].
    + rewrite IH.
      destruct (Z.eqb_spec k id') as [E'|E']; [|reflexivity].
      subst k. destruct (Z.eqb_spec id' id); [congruence | reflexivity].
Qed.

(** X23. After [deleteDocument], the document and its chunks are gone,
    and every other document and every chunk of another document is as
    before. *)
Theorem deleteDocument_removes_only_that_document (db : DocumentDatabase)
    (id : Z) :
  getDocument (deleteDocument db id) id = None /\
  getDocumentChunks (deleteDocument db id) id = [] /\
  (forall c, In c (getAllChunks (deleteDocument db id)) <->
             In c (getAllChunks db) /\ documentId c <> id) /\
  (forall id', id' <> id ->
     getDocument (deleteDocument db id) id' = getDocument db id' /\
     getDocumentChunks (deleteDocument db id) id' = getDocumentChunks db id').
Proof.
  unfold getDocument, getDocumentChunks, getAllChunks, deleteDocument.
  cbn [documents storedChunks].
  split; [|split; [|split]].
  - rewrite findDocument_filter. now rewrite Z.eqb_refl.
  - rewrite filter_filter, filter_none; [reflexivity|].
    apply Forall_forall. intros c _.
    destruct (Z.eqb_spec (documentId c) id); reflexivity.
  - intros c. rewrite filter_In, negb_true_iff, Z.eqb_neq. reflexivity.
  - intros id' Hne. split.
    + rewrite findDocument_filter.
      destruct (Z.eqb_spec id' id); [congruence | reflexivity].
    + rewrite filter_filter. f_equal. apply filter_ext. intros c.
      destruct (Z.eqb_spec (documentId c) id) as [E|E]; simpl; [|reflexivity].
      rewrite E. symmetry. apply Z.eqb_neq. congruence.
Qed.

Lemma deleteDocument_removes_only_that_document_witness :
  getDocumentChunks (deleteDocument HybridExample.exampleDb 1) 2
  = getDocumentChunks HybridExample.exampleDb 2.
Proof.
  apply (deleteDocument_removes_only_that_document
           HybridExample.exampleDb 1). lia.
Defined.

(** *** From the chunks to the store, and back by a search *)

Lemma withEmbeddings_map (f : Chunk -> list R) : forall cs pre,
  withEmbeddings (length pre) cs (pre ++ map f cs)
  = map (fun c => {| documentId := documentId c;
                     chunkIndex := chunkIndex c;
                     text := text c;
                     tokenCount := tokenCount c;
                     embedding := Some (f c) |}) cs.
Proof.
  induction cs as [|c cs IH]; intros pre; [reflexivity|].
  cbn [withEmbeddings map]. f_equal.
  - f_equal. rewrite nth_error_app2 by lia. now rewrite Nat.sub_diag.
  - replace (pre ++ f c :: map f cs) with ((pre ++ [f c]) ++ map f cs)
      by (now rewrite <- app_assoc).
    replace (S (length pre)) with (length (pre ++ [f c]))
      by (rewrite length_app; simpl; lia).
    apply IH.
Qed.

Lemma embedAndStore_result g db cs :
  embedAndStore g db cs =
  Ok (buildVocabulary g cs,
      addChunksBatch db (map (embedded (buildVocabulary g cs)) cs)).
Proof.
  unfold embedAndStore. rewrite generateEmbeddingsBatch_map.
  cbn [bind fst snd]. f_equal. f_equal. f_equal.
  apply (withEmbeddings_map
           (fun c => tryCatch (generateEmbedding (buildVocabulary g cs) (text c))
                       (fun _ => zeroVector (vectorSize g))) cs []).
Qed.

Lemma buildVocabulary_reachable_initialized g cs :
  reachable g -> isInitialized g = true ->
  reachable (buildVocabulary g cs) /\
  isInitialized (buildVocabulary g cs) = true.
Proof.
  intros Hr Hi. split; [now apply reachable_batch | exact Hi].
Qed.

Lemma reachable_facts g :
  reachable g ->
  (0 < vectorSize g)%Z /\ allValues (fun x => (0 <= x)%R) (idfScores g).
Proof.
  intros Hreach.
  assert (Hinv : vectorSize g = 384%Z /\
                 allValues (fun x => (0 < x)%R) (idfScores g)).
  { induction Hreach as [|g Hg [IH1 IH2]|g cs Hg [IH1 IH2]].
    - split; [reflexivity | constructor].
    - split; [|now apply initialize_positive].
      unfold initialize. now destruct (isInitialized g).
    - split; [exact IH1 | now apply buildVocabulary_positive]. }
  destruct Hinv as [Hsize Hpos]. split; [lia|].
  eapply Forall_impl; [|exact Hpos]. simpl. intros e He. lra.
Qed.

Lemma selectChunks_inScope db docId c :
  In c (storedChunks db) -> inScope docId c -> In c (selectChunks db docId).
Proof.
  unfold selectChunks, inScope, getAllChunks, getDocumentChunks.
  intros Hin Hscope. destruct docId as [id|]; [|assumption].
  destruct (Z.eqb_spec id 0) as [E|E]; [assumption|].
  destruct Hscope as [H0|Hdoc]; [congruence|].
  apply sortWith_In, filter_In. split; [assumption | now apply Z.eqb_eq].
Qed.

Lemma descending_head {A} (key : A -> R) l x :
  descending key l -> In x l ->
  exists h rest, l = h :: rest /\ (key x <= key h)%R.
Proof.
  unfold descending. intros Hl Hin.
  destruct l as [|h rest]; [contradiction|].
  exists h, rest. split; [reflexivity|].
  destruct Hin as [->|Hin]; [lra|].
  inversion Hl as [|? ? _ Hh]; subst.
  exact (proj1 (Forall_forall _ rest) Hh x Hin).
Qed.

Local Open Scope R_scope.

(** X24. After the chunks of a document are embedded and stored by an
    initialized generator, a search for the exact text of one of the
    chunks (a text with a token, the chunk in the scope of the search,
    [topK] at least 1, a threshold of at most 1) returns, and its first
    result has similarity 1. *)
Theorem embedAndStore_then_search (vs : VectorSearch)
    (g : EmbeddingGenerator) (db : DocumentDatabase) (cs : list Chunk)
    (c : Chunk) (docId : option Z) (topK : nat) :
  reachable g -> isInitialized g = true ->
  similarityThreshold vs <= 1 -> (0 < topK)%nat ->
  In c cs -> tokenize (text c) <> [] -> inScope docId c ->
  exists g' db' resp best rest,
    embedAndStore g db cs = Ok (g', db') /\
    searchSimilarChunks vs g' db' (text c) docId topK = Ok resp /\
    results resp = best :: rest /\
    similarity best = 1.
Proof.
  intros Hreach Hinit Hthr Hk Hc Htok Hscope.
  set (g' := buildVocabulary g cs).
  set (db' := addChunksBatch db (map (embedded g') cs)).
  destruct (buildVocabulary_reachable_initialized g cs Hreach Hinit)
    as [Hreach' Hinit']. fold g' in Hreach', Hinit'.
  destruct (reachable_facts g' Hreach') as [Hvs Hidf].
  destruct (proj1 (proj1 (searchSimilarChunks_total_on_initialized
              vs g' db' (text c) docId topK)) Hinit') as [resp Hok].
  pose proof (searchSimilarChunks_results _ _ _ _ _ _ _ Hok) as Hres.
  set (qe := generateTFIDFVector g' (text c)) in *.
  set (c' := embedded g' c).
  assert (Hemb : embeddingOf c' = qe).
  { unfold c', embedded, embeddingOf, generateEmbedding. cbn [embedding].
    now rewrite Hinit'. }
  assert (Hsim : cosineSimilarity qe (embeddingOf c') = 1).
  { rewrite Hemb. apply cosineSimilarity_self, norm_unit_dot.
    now apply (generateTFIDFVector_tokens g' (text c)). }
  assert (Hsel : In c' (selectChunks db' docId)).
  { apply selectChunks_inScope.
    - unfold db', addChunksBatch. cbn [storedChunks].
      apply in_or_app. right. now apply in_map.
    - destruct docId; exact Hscope. }
  set (sorted := sortWith (byKeyDescending scoredSimilarity)
                   (filter (fun r => Rleb (similarityThreshold vs)
                                       (scoredSimilarity r))
                      (map (scoreChunk qe) (selectChunks db' docId)))).
  assert (Hin : In (scoreChunk qe c') sorted).
  { apply sortWith_In, filter_In. split; [now apply in_map|].
    apply Rleb_true. cbn [scoreChunk scoredSimilarity]. rewrite Hsim.
    exact Hthr. }
  destruct (descending_head scoredSimilarity sorted _
              (sortWith_descending _ _) Hin) as (h & rest & Hsorted & Hle).
  cbn [scoreChunk scoredSimilarity] in Hle. rewrite Hsim in Hle.
  assert (Hh : In h sorted) by (rewrite Hsorted; now left).
  apply sortWith_In, filter_In in Hh as [Hh _].
  apply in_map_iff in Hh as (ch & <- & _).
  assert (Hle1 : scoredSimilarity (scoreChunk qe ch) <= 1).
  { cbn [scoreChunk scoredSimilarity].
    rewrite cosineSimilarity_closed. cbv zeta.
    destruct (Req_EM_T _ 0); [lra|]. destruct (Req_EM_T _ 0); [lra|].
    apply clamp01_range. }
  exists g', db', resp, (enhance db' (scoreChunk qe ch)),
    (map (enhance db') (firstn (topK - 1) rest)).
  split; [apply embedAndStore_result|]. split; [exact Hok|]. split.
  - rewrite Hres, rank_firstn. fold sorted. rewrite Hsorted.
    destruct topK as [|k]; [lia|].
    replace (S k - 1)%nat with k by lia. reflexivity.
  - cbn [enhance similarity]. lra.
Qed.

End StoreProofs.

Module ZeroVectorProofs.
Import JsString JsArray App VectorSpec RankSpec TieSpec StoreSpec.
Import GeneratorSpec HybridExample.
Import VectorProofs SortProofs SearchProofs EncoderProofs RankingProofs.
Import StoreProofs ExampleProofs.
Local Open Scope R_scope.

Lemma isZeroVector_firstn n v : isZeroVector v -> isZeroVector (firstn n v).
Proof.
  unfold isZeroVector. intros H. apply Forall_forall. intros x Hx.
  apply In_firstn in Hx. exact (proj1 (Forall_forall _ v) H x Hx).
Qed.

Lemma isZeroVector_dot v : isZeroVector v -> dot v v = 0.
Proof.
  intros H. rewrite (isZeroVector_repeat v H). apply dot_repeat_zero.
Qed.

Lemma cosineSimilarity_zero_r a b :
  isZeroVector b -> cosineSimilarity a b = 0.
Proof.
  intros Hb. rewrite cosineSimilarity_closed. cbv zeta.
  rewrite (isZeroVector_dot (firstn (common a b) b))
    by now apply isZeroVector_firstn.
  destruct (Req_EM_T _ 0); [reflexivity|].
  destruct (Req_EM_T 0 0); [reflexivity | lra].
Qed.

Lemma cosineSimilarity_zero_l a b :
  isZeroVector a -> cosineSimilarity a b = 0.
Proof.
  intros Ha. rewrite cosineSimilarity_comm. now apply cosineSimilarity_zero_r.
Qed.

(** X25. With a positive threshold, a search never returns a chunk that
    was stored without a vector or with a vector of zeros, as the batch
    stores them when the generator is not initialized. *)
Theorem search_never_returns_zero_vector
    (vs : VectorSearch) (g : EmbeddingGenerator) (db : DocumentDatabase)
    (q : string) (docId : option Z) (topK : nat) (resp : SearchResponse) :
  searchSimilarChunks vs g db q docId topK = Ok resp ->
  0 < similarityThreshold vs ->
  forall r, In r (results resp) ->
    embedding (chunk r) <> None /\
    ~ isZeroVector (embeddingOf (chunk r)).
Proof.
  intros Hok Hthr r Hr.
  destruct (search_result_origin _ _ _ _ _ _ _ _ Hok Hr)
    as (c & Hc & -> & Hle).
  cbn [enhance scoreChunk chunk similarity scoredChunk scoredSimilarity] in *.
  assert (Hnz : ~ isZeroVector (embeddingOf c)).
  { intros Hz. rewrite (cosineSimilarity_zero_r _ _ Hz) in Hle. lra. }
  split; [|exact Hnz].
  intros Hnone. apply Hnz. unfold embeddingOf. rewrite Hnone. constructor.
Qed.

(** X26. With a positive threshold, a query without a token (only words
    of fewer than three letters, or punctuation) returns no result. *)
Theorem search_without_token_finds_nothing
    (vs : VectorSearch) (g : EmbeddingGenerator) (db : DocumentDatabase)
    (q : string) (docId : option Z) (topK : nat) (resp : SearchResponse) :
  searchSimilarChunks vs g db q docId topK = Ok resp ->
  0 < similarityThreshold vs ->
  tokenize q = [] ->
  results resp = [].
Proof.
  intros Hok Hthr Htok.
  destruct (results resp) as [|r rest] eqn:E; [reflexivity|]. exfalso.
  assert (Hr : In r (results resp)) by (rewrite E; now left).
  destruct (search_result_origin _ _ _ _ _ _ _ _ Hok Hr)
    as (c & Hc & -> & Hle).
  cbn [enhance scoreChunk similarity scoredSimilarity] in Hle.
  assert (Hq : isZeroVector (generateTFIDFVector g q)).
  { unfold generateTFIDFVector. rewrite Htok.
    change (accumulate g (calculateTermFrequency []) (zeroVector (vectorSize g)))
      with (zeroVector (vectorSize g)).
    unfold normalizeVector, zeroVector.
    rewrite sumSquares_dot, dot_repeat_zero, sqrt_0.
    destruct (Req_EM_T 0 0) as [_|H]; [|congruence].
    apply Forall_forall. intros x Hx. now apply repeat_spec in Hx. }
  rewrite (cosineSimilarity_zero_l _ _ Hq) in Hle. lra.
Qed.

End ZeroVectorProofs.

(** The theorems above at the stored chunk of the example. *)
Module MoreExamples.
Import JsString JsArray App VectorSpec RankSpec TieSpec StoreSpec.
Import GeneratorSpec HybridExample.
Import VectorProofs SortProofs SearchProofs EncoderProofs RankingProofs.
Import StoreProofs ExampleProofs ZeroVectorProofs.
Local Open Scope R_scope.

Lemma search_never_returns_zero_vector_witness :
  exists resp,
    searchSimilarChunks newVectorSearch trained exampleDb "node.js"
      (Some 1%Z) 5 = Ok resp /\
    forall r, In r (results resp) -> embedding (chunk r) <> None.
Proof.
  destruct (search_stored 5 ltac:(lia)) as (resp & Hok & _).
  exists resp. split; [exact Hok|].
  intros r Hr.
  apply (search_never_returns_zero_vector newVectorSearch trained exampleDb
           "node.js" (Some 1%Z) 5 resp Hok); [simpl; lra | exact Hr].
Defined.

Lemma trained_search (q : string) :
  exists resp,
    searchSimilarChunks newVectorSearch trained exampleDb q (Some 1%Z) 5
    = Ok resp.
Proof.
  apply (searchSimilarChunks_total_on_initialized newVectorSearch trained
           exampleDb q (Some 1%Z) 5).
  reflexivity.
Qed.

Lemma search_without_token_finds_nothing_witness :
  exists resp,
    searchSimilarChunks newVectorSearch trained exampleDb "is it?"
      (Some 1%Z) 5 = Ok resp /\
    results resp = [].
Proof.
  destruct (trained_search "is it?") as [resp Hok].
  exists resp. split; [exact Hok|].
  apply (search_without_token_finds_nothing newVectorSearch trained exampleDb
           "is it?" (Some 1%Z) 5 resp Hok).
  - simpl. lra.
  - vm_compute. reflexivity.
Defined.

Lemma searchSimilarChunks_ties_in_candidate_order_witness :
  exists resp n,
    searchSimilarChunks newVectorSearch trained exampleDb "node.js"
      (Some 1%Z) 5 = Ok resp /\
    map chunk (filter (fun r => Reqb (similarity r) 1) (results resp))
    = firstn n
        (filter
           (fun c => Reqb (cosineSimilarity
                             (generateTFIDFVector trained "node.js")
                             (embeddingOf c)) 1)
           (selectChunks exampleDb (Some 1%Z))).
Proof.
  destruct (search_stored 5 ltac:(lia)) as (resp & Hok & _).
  destruct (searchSimilarChunks_ties_in_candidate_order newVectorSearch
              trained exampleDb "node.js" (Some 1%Z) 5 resp 1 Hok)
    as [n Hn].
  exists resp, n. split; [exact Hok | exact Hn].
Defined.

Lemma searchSimilarChunks_scope_witness :
  exists resp,
    searchSimilarChunks newVectorSearch trained exampleDb "node.js"
      (Some 1%Z) 5 = Ok resp /\
    totalSearched resp = 1%nat.
Proof.
  destruct (search_stored 5 ltac:(lia)) as (resp & Hok & _).
  exists resp. split; [exact Hok|].
  apply (searchSimilarChunks_scope newVectorSearch trained exampleDb
           "node.js" (Some 1%Z) 5 resp Hok).
Defined.

Lemma searchSimilarChunks_throws_iff_uninitialized_witness :
  searchSimilarChunks newVectorSearch newEmbeddingGenerator exampleDb "node"
    None 5
  = Throw "Embedding model not initialized. Please wait for model to load.".
Proof.
  apply (searchSimilarChunks_throws_iff_uninitialized JsRegExp.matchCount
           newVectorSearch newEmbeddingGenerator exampleDb "node" None 5).
  reflexivity.
Defined.

Lemma hybridSearch_shape_witness :
  exists resp,
    hybridSearch JsRegExp.matchCount newVectorSearch trained exampleDb
      "node.js" (Some 1%Z) 5 = Ok resp /\
    (length (hybridResults resp) <= 5)%nat /\
    descending combinedScore (hybridResults resp).
Proof.
  destruct hybrid_stored as (resp & r & Hok & _).
  exists resp. split; [exact Hok|].
  destruct (hybridSearch_shape JsRegExp.matchCount newVectorSearch trained
              exampleDb "node.js" (Some 1%Z) 5 resp Hok) as (H1 & H2 & _).
  split; [exact H1 | exact H2].
Defined.

Lemma embedAndStore_then_search_witness :
  exists g' db' resp best rest,
    embedAndStore (initialize newEmbeddingGenerator)
      {| documents := []; storedChunks := [] |} [ingested] = Ok (g', db') /\
    searchSimilarChunks newVectorSearch g' db' (text ingested) None 5
      = Ok resp /\
    results resp = best :: rest /\
    similarity best = 1.
Proof.
  apply (embedAndStore_then_search newVectorSearch
           (initialize newEmbeddingGenerator)
           {| documents := []; storedChunks := [] |} [ingested] ingested
           None 5).
  - apply reachable_initialize, reachable_new.
  - reflexivity.
  - simpl. lra.
  - lia.
  - now left.
  - vm_compute. discriminate.
  - exact I.
Defined.

Lemma getDocumentChunks_sorted_filter_witness :
  In stored (getDocumentChunks exampleDb 1).
Proof.
  apply (getDocumentChunks_sorted_filter exampleDb 1).
  split; [now left | reflexivity].
Defined.

End MoreExamples.
